(** * matter-tree: the tree builder, its force pass and the canvas hand-off

    A shallow embedding of [src/tree.ts] (class [TreePhysics], class
    [TreeNode], [CFG]) and of the effect of [src/App.tsx].

    Conventions.
    - Node ids are strings; a JS [Map] keyed by ids is a [gmap string _]
      when only lookups matter and an association list when its
      iteration order is read ([bodyCache]).
    - Loops whose number of iterations is not bounded by the size of
      their input (the [while (q.length)] loop, the recursion of
      [buildRec]) take a fuel argument and return [None] when it runs
      out; termination theorems give a fuel that suffices.
    - JS numbers are binary64. The builder is modelled over exact
      rationals and the repulsion step over the reals; what is stated
      of a number in those models is either exact in binary64 as well
      (integers, comparisons with a margin, opposite signs) or carries
      the room that rounding needs. [Forces64] is the repulsion step in
      binary64 itself, for the inputs on which rounding decides.
    - [worldBodies] and [worldConstraints] list what [buildTree] passes
      to [World.add]. The world holds more: the constructor (tree.ts
      93-107) has put four static walls and the mouse constraint in it
      before [buildTree] runs. *)

From Stdlib Require Import QArith Qround Reals Lra.
From Stdlib Require Lqa PrimFloat Uint63.
From stdpp Require Import base gmap list strings sorting pretty.

Local Open Scope string_scope.
Local Open Scope list_scope.
Local Open Scope nat_scope.

(** ** Adjacency and the breadth-first depth labelling (tree.ts 168-178) *)

Module Bfs.

Abbreviation Adjacency := (gmap string (list string)).
Abbreviation DepthMap := (gmap string nat).

(** [adjacency.get(p) || []] *)
Definition childrenOf (adjacency : Adjacency) (p : string) : list string :=
  default [] (adjacency !! p).

(** The [for (const c of ...)] loop of lines 172-177: [depth] and the
    queue [q] are updated in place, [depth.get(p) ?? 0] is read again at
    every insertion. *)
Fixpoint visitChildren (p : string) (cs : list string)
    (depth : DepthMap) (q : list string) : DepthMap * list string :=
  match cs with
  | [] => (depth, q)
  | c :: cs' =>
      match depth !! c with
      | Some _ => visitChildren p cs' depth q
      | None =>
          visitChildren p cs' (<[c := default 0 (depth !! p) + 1]> depth) (q ++ [c])
      end
  end.

(** The [while (q.length)] loop. One unit of fuel pays for one
    [q.shift()]. The last argument records the ids in the order in
    which they were shifted off the queue; the code does not keep it,
    the termination claim counts it. *)
Fixpoint bfsLoop (fuel : nat) (adjacency : Adjacency)
    (depth : DepthMap) (q shifted : list string)
    : option (DepthMap * list string) :=
  match q with
  | [] => Some (depth, shifted)
  | p :: q' =>
      match fuel with
      | O => None
      | S fuel' =>
          let '(depth', q'') := visitChildren p (childrenOf adjacency p) depth q' in
          bfsLoop fuel' adjacency depth' q'' (shifted ++ [p])
      end
  end.

(** Lines 168-178 as a whole. *)
Definition computeDepth (fuel : nat) (adjacency : Adjacency) (rootId : string)
    : option (DepthMap * list string) :=
  bfsLoop fuel adjacency {[rootId := 0]} [rootId] [].

(** Every id the loop can ever see: the root and whatever occurs in a
    child list. Its size is the fuel that always suffices. *)
Definition idUniverse (adjacency : Adjacency) (rootId : string) : gset string :=
  {[rootId]} ∪ list_to_set (concat (snd <$> map_to_list adjacency)).

Definition bfsFuel (adjacency : Adjacency) (rootId : string) : nat :=
  size (idUniverse adjacency rootId).

(** Paths of the adjacency graph, counted in edges, grown at their end. *)
Inductive path (adjacency : Adjacency) (u : string) : string → nat → Prop :=
  | path_here : path adjacency u u 0
  | path_snoc v w n :
      path adjacency u v n → w ∈ childrenOf adjacency v →
      path adjacency u w (S n).

Definition reachable (adjacency : Adjacency) (u v : string) : Prop :=
  ∃ n, path adjacency u v n.

(** [d] is the length of a shortest path from [u] to [v]. *)
Definition distance (adjacency : Adjacency) (u v : string) (d : nat) : Prop :=
  path adjacency u v d ∧ ∀ n, path adjacency u v n → d ≤ n.

(** *** Vocabulary of the proofs about the loop *)

(** The potential that every [q.shift()] lowers by one. *)
Definition potential (adjacency : Adjacency) (rootId : string)
    (depth : DepthMap) (q : list string) : nat :=
  size (idUniverse adjacency rootId ∖ dom depth) + length q.

Definition depthOf (depth : DepthMap) (v : string) : nat :=
  default 0 (depth !! v).

(** What holds each time the [while] condition is evaluated. *)
Record loopInv (adjacency : Adjacency) (rootId : string)
    (depth : DepthMap) (q : list string) : Prop := {
  inv_root : depth !! rootId = Some 0;
  inv_queue : ∀ v, v ∈ q → is_Some (depth !! v);
  inv_sorted : StronglySorted le (depthOf depth <$> q);
  inv_front : ∀ h v d,
      head q = Some h → depth !! v = Some d → d ≤ depthOf depth h + 1;
  inv_path : ∀ v d, depth !! v = Some d → path adjacency rootId v d;
  inv_closed : ∀ u c,
      is_Some (depth !! u) → u ∉ q → c ∈ childrenOf adjacency u →
      is_Some (depth !! c) ∧ depthOf depth c ≤ depthOf depth u + 1;
}.

(** What holds inside the [for] loop over the children of [p], after
    the children in [seen] have been looked at. *)
Record visitInv (adjacency : Adjacency) (rootId p : string)
    (seen : list string) (depth : DepthMap) (q : list string) : Prop := {
  vis_root : depth !! rootId = Some 0;
  vis_parent : is_Some (depth !! p);
  vis_queue : ∀ v, v ∈ q →
      is_Some (depth !! v) ∧ depthOf depth p ≤ depthOf depth v;
  vis_sorted : StronglySorted le (depthOf depth <$> q);
  vis_bound : ∀ v d, depth !! v = Some d → d ≤ depthOf depth p + 1;
  vis_path : ∀ v d, depth !! v = Some d → path adjacency rootId v d;
  vis_closed : ∀ u c,
      is_Some (depth !! u) → u ≠ p → u ∉ q → c ∈ childrenOf adjacency u →
      is_Some (depth !! c) ∧ depthOf depth c ≤ depthOf depth u + 1;
  vis_seen : ∀ c, c ∈ seen → is_Some (depth !! c);
}.

(** The ids that were ever enqueued, in order: each once, and exactly
    the keys of [depth]. *)
Definition traceInv (depth : DepthMap) (l : list string) : Prop :=
  NoDup l ∧ ∀ v, v ∈ l ↔ is_Some (depth !! v).

End Bfs.


(** ** Numbers

    JS numbers that only pass through [+ - * /] are idealised as
    rationals; [NaN] (the result of arithmetic on [undefined]) is
    [None]. The divisions of the builder have the divisors [slots + 1]
    and, inside its own loop, [numLeaves], which are at least 1. *)

Definition num : Type := option Q.

Definition lift2 (f : Q → Q → Q) (a b : num) : num :=
  match a, b with
  | Some u, Some v => Some (f u v)
  | _, _ => None
  end.

Definition nadd : num → num → num := lift2 Qplus.
Definition nmul : num → num → num := lift2 Qmult.
Definition ofNat (n : nat) : Q := inject_Z (Z.of_nat n).

(** ** Config (tree.ts 4-17) *)

Module CFG.

Record SpringOpt := { length : Q; stiffness : Q; damping : Q }.
Record RepulsionOpt := { k : Z; min : Z; max : Z }.

Definition nodeRadius : Q := 12.
Definition twigRadius : Q := 4.
Definition leafRadius : Q := 8.
Definition airFriction : Q := 0.05.
Definition spring : SpringOpt :=
  {| length := 80; stiffness := 0.03; damping := 0.3 |}.
Definition twigSpring : SpringOpt :=
  {| length := 20; stiffness := 0.015; damping := 0.5 |}.
Definition leafSpring : SpringOpt :=
  {| length := 15; stiffness := 0.01; damping := 0.6 |}.
Definition repulsion : RepulsionOpt := {| k := 1; min := 26; max := 240 |}.

End CFG.

(** ** Bodies, constraints, tree nodes *)

Module Body.

(** The fields of a matter-js body that [tree.ts] sets. [id] stands for
    the identity of the JS object: the bodies made during one
    [buildTree] are numbered in the order of their creation. *)
Record t := mk {
  id : nat;
  label : string;
  position : num * num;
  circleRadius : Q;
  frictionAir : Q;
  fillStyle : string;
  strokeStyle : string;
  lineWidth : Q;
  group : Z;                       (* collisionFilter.group *)
}.

End Body.

Module Constraint.

(** [render] is [None] for [{visible: false}] and the stroke style and
    line width otherwise. *)
Record t := mk {
  bodyA : option Body.t;
  pointA : option (Q * Q);
  bodyB : Body.t;
  length : Q;
  stiffness : Q;
  damping : Q;
  render : option (string * Q);
}.

End Constraint.

Module TreeNode.

Inductive t := mk {
  id : string;
  body : Body.t;
  children : list t;
  edges : list Constraint.t;
}.

(** [new TreeNode(id, body)] *)
Definition new (id : string) (body : Body.t) : t := mk id body [] [].

(** [addChild(child, opt, isLeaf)]: the receiver after the two pushes,
    and the constraint returned. *)
Definition addChild (self child : t) (opt : CFG.SpringOpt) (isLeaf : bool)
    : t * Constraint.t :=
  let c := Constraint.mk (Some (body self)) None (body child)
             (CFG.length opt) (CFG.stiffness opt) (CFG.damping opt)
             (Some (if isLeaf then ("#4a9d4a", 1%Q) else ("#6af08e", 2%Q))) in
  (mk (id self) (body self) (children self ++ [child]) (edges self ++ [c]), c).

(** [traverse(fn)]: the nodes in the order in which [fn] is called. *)
Fixpoint traverse (n : t) : list t :=
  match n with
  | mk _ _ cs _ => n :: flat_map traverse cs
  end.

End TreeNode.

(** ** The tree builder (class TreePhysics, tree.ts 160-355) *)

Module TreePhysics.

Import Bfs.

(** What the builder reads from its surroundings: the successive
    results of [Math.random()], the trigonometry of [Math], the size of
    [this.render.canvas], the collision group of a fresh circle and the
    result of [Body.nextGroup(true)]. *)
Record Host := {
  random : nat → Q;
  Math_cos : Q → Q;
  Math_sin : Q → Q;
  Math_PI : Q;
  canvasWidth : Q;
  canvasHeight : Q;
  circleGroup : Z;
  nextGroup : Z;
}.

(** What one run of [buildTree] updates in place: the closure variables
    [idxByDepth] and [bodyCache] (a [Map], in insertion order), what it
    has passed to [World.add] so far, [this.nodeBodies], and the two
    counters behind [Math.random()] and the creation of bodies. *)
Record State := mkState {
  draws : nat;
  nextBodyId : nat;
  idxByDepth : gmap nat nat;
  bodyCache : list (string * Body.t);
  worldBodies : list Body.t;
  worldConstraints : list Constraint.t;
  nodeBodies : list Body.t;
}.

(** What [buildTree] leaves behind: [this.root], [this.rootPin],
    [this.nodes], [this.nodeBodies] and its additions to the world:
    [worldBodies] and [worldConstraints] are the bodies and constraints
    that [buildTree] has passed to [World.add], not the whole world. *)
Module Scene.
Record t := mk {
  root : TreeNode.t;
  rootPin : Constraint.t;
  nodes : list TreeNode.t;
  nodeBodies : list Body.t;
  worldBodies : list Body.t;
  worldConstraints : list Constraint.t;
}.
End Scene.

(** State passing with one failure, the recursion of [buildRec] going
    deeper than the fuel allows. *)
Definition M (A : Type) : Type := State → option (A * State).

Definition ret {A} (a : A) : M A := λ s, Some (a, s).
Definition bind {A B} (m : M A) (k : A → M B) : M B :=
  λ s, match m s with
       | Some (a, s') => k a s'
       | None => None
       end.
Definition tooDeep {A} : M A := λ _, None.

Notation "'let*' x := m 'in' k" := (bind m (λ x, k))
  (at level 10, x name, m at level 100, k at level 200).

(** [Math.random()] *)
Definition Math_random (h : Host) : M Q :=
  λ s, Some (random h (draws s),
             mkState (S (draws s)) (nextBodyId s) (idxByDepth s) (bodyCache s)
                     (worldBodies s) (worldConstraints s) (nodeBodies s)).

(** [Bodies.circle(x, y, radius, {frictionAir, render, collisionFilter})]
    followed by the assignment of [label]. *)
Definition Bodies_circle (x y : num) (radius frictionAir : Q)
    (fillStyle strokeStyle : string) (lineWidth : Q) (group : Z)
    (label : string) : M Body.t :=
  λ s, Some (Body.mk (nextBodyId s) label (x, y) radius frictionAir
                     fillStyle strokeStyle lineWidth group,
             mkState (draws s) (S (nextBodyId s)) (idxByDepth s) (bodyCache s)
                     (worldBodies s) (worldConstraints s) (nodeBodies s)).

(** [World.add(this.world, constraint)] *)
Definition World_add_constraint (c : Constraint.t) : M unit :=
  λ s, Some ((), mkState (draws s) (nextBodyId s) (idxByDepth s) (bodyCache s)
                         (worldBodies s) (worldConstraints s ++ [c]) (nodeBodies s)).

(** [World.add(this.world, [leafBody, leafConstraint]);
     this.nodeBodies.push(leafBody)] *)
Definition addLeafToWorld (b : Body.t) (c : Constraint.t) : M unit :=
  λ s, Some ((), mkState (draws s) (nextBodyId s) (idxByDepth s) (bodyCache s)
                         (worldBodies s ++ [b]) (worldConstraints s ++ [c])
                         (nodeBodies s ++ [b])).

(** [bodyCache.get(id)] and [bodyCache.set(id, b)] *)
Fixpoint cacheGet (cache : list (string * Body.t)) (id : string) : option Body.t :=
  match cache with
  | [] => None
  | (k, b) :: rest => if decide (k = id) then Some b else cacheGet rest id
  end.

Fixpoint cacheSet (cache : list (string * Body.t)) (id : string) (b : Body.t)
    : list (string * Body.t) :=
  match cache with
  | [] => [(id, b)]
  | (k, b0) :: rest =>
      if decide (k = id) then (k, b) :: rest else (k, b0) :: cacheSet rest id b
  end.

(** [-Math.abs(Bodies.circle(0, 0, 1).collisionFilter.group || Body.nextGroup(true))] *)
Definition collisionGroup (h : Host) : Z :=
  (- Z.abs (if circleGroup h =? 0 then nextGroup h else circleGroup h))%Z.

(** [counts]: how many ids carry each depth. The sum does not depend on
    the order in which [depth] is iterated. *)
Definition countByDepth (depth : DepthMap) : gmap nat nat :=
  map_fold (λ _ d counts, <[d := default 0 (counts !! d) + 1]> counts) ∅ depth.

(** [Math.max(...depth.values())] *)
Definition maxDepth (depth : DepthMap) : nat :=
  max_list (snd <$> map_to_list depth).

(** [depth.get(id) > 0], false when [depth.get(id)] is [undefined]. *)
Definition aboveRoot (depth : DepthMap) (id : string) : bool :=
  match depth !! id with
  | Some d => bool_decide (0 < d)
  | None => false
  end.

Section Builder.

Variable h : Host.
Variable adjacency : Adjacency.
Variable depth : DepthMap.

Let group : Z := collisionGroup h.

(** [this.center] *)
Definition center : Q * Q := ((canvasWidth h * 0.5)%Q, (canvasHeight h * 0.5)%Q).

(** [makeBody] (184-205) *)
Definition makeBody (id : string) : M Body.t :=
  λ s,
    let d := depthOf depth id in
    let k := default 0 (idxByDepth s !! d) in
    let spreadWidth := (canvasWidth h * 0.6)%Q in
    let nodePosition : num :=
      match countByDepth depth !! d with
      | Some slots => Some (((ofNat k + 1) / (ofNat slots + 1)) * spreadWidth)%Q
      | None => None
      end in
    let x := nadd (Some (center.1 - spreadWidth * 0.5)%Q) nodePosition in
    let y : num := Some (canvasHeight h - 120 - ofNat d * 90)%Q in
    Bodies_circle x y CFG.nodeRadius CFG.airFriction "#75d7ff" "#dff6ff" 1.5 group id
      (mkState (draws s) (nextBodyId s) (<[d := k + 1]> (idxByDepth s)) (bodyCache s)
               (worldBodies s) (worldConstraints s) (nodeBodies s)).

(** [getBody] (207-209) *)
Definition getBody (id : string) : M Body.t :=
  λ s,
    match cacheGet (bodyCache s) id with
    | Some b => Some (b, s)
    | None =>
        match makeBody id s with
        | Some (b, s1) =>
            let s2 := mkState (draws s1) (nextBodyId s1) (idxByDepth s1)
                        (cacheSet (bodyCache s1) id b)
                        (worldBodies s1) (worldConstraints s1) (nodeBodies s1) in
            match cacheGet (bodyCache s2) id with
            | Some b' => Some (b', s2)
            | None => None
            end
        | None => None
        end
    end.

(** The body of the loop of [addLeafNodes] (280-314), [n] iterations
    from index [i] on. *)
Fixpoint addLeafLoop (n i : nat) (parentNode childNode : TreeNode.t)
    : M TreeNode.t :=
  match n with
  | O => ret parentNode
  | S n' =>
      let parentPos := Body.position (TreeNode.body parentNode) in
      let childPos := Body.position (TreeNode.body childNode) in
      let midX := nmul (nadd parentPos.1 childPos.1) (Some 0.5%Q) in
      let midY := nmul (nadd parentPos.2 childPos.2) (Some 0.5%Q) in
      let* rx := Math_random h in
      let* ry := Math_random h in
      let offsetX := ((rx - 0.5) * 60)%Q in
      let offsetY := ((ry - 0.5) * 40)%Q in
      let name := "leaf_" +:+ TreeNode.id parentNode +:+ "_" +:+ pretty i in
      let* leafBody :=
        Bodies_circle (nadd midX (Some offsetX)) (nadd midY (Some offsetY))
          CFG.leafRadius (CFG.airFriction * 1.5)%Q "#90EE90" "#228B22" 1
          (Body.group (TreeNode.body parentNode)) name in
      let leafNode := TreeNode.new name leafBody in
      let parentNode' := (TreeNode.addChild parentNode leafNode CFG.leafSpring true).1 in
      let leafConstraint := (TreeNode.addChild parentNode leafNode CFG.leafSpring true).2 in
      let* _ := addLeafToWorld leafBody leafConstraint in
      addLeafLoop n' (S i) parentNode' childNode
  end.

(** [addLeafNodes] (276-315): the parent node after the attachments. *)
Definition addLeafNodes (parentNode childNode : TreeNode.t) : M TreeNode.t :=
  let* r := Math_random h in
  let numLeaves := (2 + Qfloor (r * 3))%Z in
  addLeafLoop (Z.to_nat numLeaves) 0 parentNode childNode.

(** The body of the loop of [addTerminalLeaves] (321-354). *)
Fixpoint addTerminalLoop (numLeaves : Z) (n i : nat) (terminalNode : TreeNode.t)
    : M TreeNode.t :=
  match n with
  | O => ret terminalNode
  | S n' =>
      let nodePos := Body.position (TreeNode.body terminalNode) in
      let angle := ((ofNat i / inject_Z numLeaves) * Math_PI h * 2)%Q in
      let* r := Math_random h in
      let radius := (25 + r * 20)%Q in
      let leafX := nadd nodePos.1 (Some (Math_cos h angle * radius)%Q) in
      let leafY := nadd nodePos.2 (Some (Math_sin h angle * radius)%Q) in
      let name := "terminal_leaf_" +:+ TreeNode.id terminalNode +:+ "_" +:+ pretty i in
      let* leafBody :=
        Bodies_circle leafX leafY
          CFG.leafRadius (CFG.airFriction * 1.5)%Q "#90EE90" "#228B22" 1
          (Body.group (TreeNode.body terminalNode)) name in
      let leafNode := TreeNode.new name leafBody in
      let terminalNode' := (TreeNode.addChild terminalNode leafNode CFG.leafSpring true).1 in
      let leafConstraint := (TreeNode.addChild terminalNode leafNode CFG.leafSpring true).2 in
      let* _ := addLeafToWorld leafBody leafConstraint in
      addTerminalLoop numLeaves n' (S i) terminalNode'
  end.

(** [addTerminalLeaves] (317-355) *)
Definition addTerminalLeaves (terminalNode : TreeNode.t) : M TreeNode.t :=
  let* r := Math_random h in
  let numLeaves := (3 + Qfloor (r * 4))%Z in
  addTerminalLoop numLeaves (Z.to_nat numLeaves) 0 terminalNode.

(** The [for (const cid of children)] loop of [buildRec] (215-224);
    [rec] is the recursive call. *)
Fixpoint buildChildren (rec : string → M TreeNode.t) (id : string)
    (cs : list string) (node : TreeNode.t) : M TreeNode.t :=
  match cs with
  | [] => ret node
  | cid :: cs' =>
      let* child := rec cid in
      let node1 := (TreeNode.addChild node child CFG.spring false).1 in
      let cons := (TreeNode.addChild node child CFG.spring false).2 in
      let* _ := World_add_constraint cons in
      let* node2 :=
        if aboveRoot depth id then addLeafNodes node1 child else ret node1 in
      buildChildren rec id cs' node2
  end.

(** [buildRec] (211-232). [fuel] bounds the depth of the recursion. *)
Fixpoint buildRec (fuel : nat) (id : string) : M TreeNode.t :=
  match fuel with
  | O => tooDeep
  | S fuel' =>
      let* b := getBody id in
      let node := TreeNode.new id b in
      let children := childrenOf adjacency id in
      let* node' := buildChildren (buildRec fuel') id children node in
      if bool_decide (children = []) && aboveRoot depth id
      then addTerminalLeaves node'
      else ret node'
  end.

(** The state in which [buildRec(rootId)] starts: one body, the circle
    probed for its collision group, has been created, and [buildTree]
    has not yet added anything to the world (the walls and the mouse
    constraint of the constructor are in it, and stay out of the two
    lists). *)
Definition startState : State := mkState 0 1 ∅ [] [] [] [].

(** [buildTree] from line 179 on, up to line 253. *)
Definition buildWith (fuel : nat) (rootId : string) : option Scene.t :=
  match buildRec fuel rootId startState with
  | None => None
  | Some (root, s) =>
      let bodies := snd <$> bodyCache s in
      let rootPin :=
        Constraint.mk None (Some (center.1, (canvasHeight h - 100)%Q))
          (TreeNode.body root) 0 1 0.9 None in
      let nodes := TreeNode.traverse root in
      Some (Scene.mk root rootPin nodes (TreeNode.body <$> nodes)
              (worldBodies s ++ bodies) (worldConstraints s ++ [rootPin]))
  end.

End Builder.

(** [buildTree({adjacency, rootId})] (161-253). The depth labelling is
    run with the fuel that always suffices. *)
Definition buildTree (h : Host) (fuel : nat) (adjacency : Adjacency)
    (rootId : string) : option Scene.t :=
  match computeDepth (bfsFuel adjacency rootId) adjacency rootId with
  | Some (depth, _) => buildWith h adjacency depth fuel rootId
  | None => None
  end.

End TreePhysics.

(** ** Vocabulary of the claims about the builder *)

Module BuildInv.

Import Bfs TreePhysics.

(** Bodies made by [makeBody] have [CFG.nodeRadius], the decorative ones
    of [addLeafNodes] and [addTerminalLeaves] have [CFG.leafRadius]. *)
Definition isNodeBody (b : Body.t) : bool :=
  Qeq_bool (Body.circleRadius b) CFG.nodeRadius.
Definition isLeafBody (b : Body.t) : bool :=
  Qeq_bool (Body.circleRadius b) CFG.leafRadius.
Definition isTreeNode (n : TreeNode.t) : bool := isNodeBody (TreeNode.body n).

(** The ids of the nodes of [l] that stand for an id of the adjacency. *)
Definition treeIds (l : list TreeNode.t) : list string :=
  TreeNode.id <$> filter (λ n, isTreeNode n) l.

Definition descendants (n : TreeNode.t) : list TreeNode.t :=
  flat_map TreeNode.traverse (TreeNode.children n).

Definition springOf (c : Constraint.t) : CFG.SpringOpt :=
  CFG.Build_SpringOpt (Constraint.length c) (Constraint.stiffness c)
    (Constraint.damping c).

Definition constraintOk (g : Z) (c : Constraint.t) : Prop :=
  Body.group (Constraint.bodyB c) = g ∧
  (∀ a, Constraint.bodyA c = Some a → Body.group a = g) ∧
  (isLeafBody (Constraint.bodyB c) → springOf c = CFG.leafSpring).

Definition cacheKeys (s : State) : list string := fst <$> bodyCache s.

Record stateOk (g : Z) (s : State) : Prop := {
  ok_keys : NoDup (cacheKeys s);
  ok_cache : ∀ k b, (k, b) ∈ bodyCache s →
      Body.label b = k ∧ isNodeBody b ∧ Body.group b = g ∧
      Body.id b < nextBodyId s;
  ok_world : ∀ b, b ∈ worldBodies s →
      isLeafBody b ∧ Body.group b = g ∧ Body.id b < nextBodyId s;
  ok_ids : NoDup (Body.id <$> ((snd <$> bodyCache s) ++ worldBodies s));
  ok_constraints : ∀ c, c ∈ worldConstraints s → constraintOk g c;
  ok_nodeBodies : ∀ b, b ∈ nodeBodies s → Body.group b = g;
}.

(** The cache only grows. *)
Definition cacheLe (s s' : State) : Prop :=
  ∀ id b, cacheGet (bodyCache s) id = Some b → cacheGet (bodyCache s') id = Some b.

(** A node is either built for an id, and then carries the cached body
    of that id, or a decoration without children. *)
Definition localOk (g : Z) (s : State) (n : TreeNode.t) : Prop :=
  Body.group (TreeNode.body n) = g ∧
  if isTreeNode n
  then cacheGet (bodyCache s) (TreeNode.id n) = Some (TreeNode.body n)
  else isLeafBody (TreeNode.body n) ∧ TreeNode.children n = [].

Definition nodeOk (g : Z) (s : State) (n : TreeNode.t) : Prop :=
  Forall (localOk g s) (TreeNode.traverse n).

(** [p'] is [p] after [added] was pushed on its children. *)
Definition extends (p p' : TreeNode.t) (added : list TreeNode.t) : Prop :=
  TreeNode.id p' = TreeNode.id p ∧ TreeNode.body p' = TreeNode.body p ∧
  TreeNode.children p' = TreeNode.children p ++ added.

Definition leafOk (g : Z) (l : TreeNode.t) : Prop :=
  TreeNode.children l = [] ∧ isLeafBody (TreeNode.body l) ∧
  Body.group (TreeNode.body l) = g.

(** What a run of a part of the builder guarantees, from a state that
    is in order. *)
Definition keeps {A} (g : Z) (m : M A) (post : State → A → State → Prop) : Prop :=
  ∀ s a s', stateOk g s → m s = Some (a, s') →
    stateOk g s' ∧ cacheLe s s' ∧ post s a s'.

(** Every key added to the cache between [s] and [s'] is the id of a
    node in [l]. *)
Definition newKeysIn (s s' : State) (l : list TreeNode.t) : Prop :=
  ∀ k, k ∈ cacheKeys s' → k ∈ cacheKeys s ∨ k ∈ treeIds l.

(** The engine's test for a pair of collision filters: bodies that
    share a non-zero group collide exactly when the group is positive;
    otherwise categories and masks decide, and the bodies of [tree.ts]
    keep the default category and mask, which let every pair through. *)
Definition canCollide (a b : Body.t) : bool :=
  if (Body.group a =? Body.group b)%Z && negb (Body.group a =? 0)%Z
  then (0 <? Body.group a)%Z
  else true.

(** The pre-order walk that [buildRec] follows, without the bodies. *)
Fixpoint walkChildren (rec : string → option (list string)) (cs : list string)
    : option (list string) :=
  match cs with
  | [] => Some []
  | c :: cs' =>
      match rec c with
      | Some l => match walkChildren rec cs' with
                  | Some ls => Some (l ++ ls)
                  | None => None
                  end
      | None => None
      end
  end.

Fixpoint walk (fuel : nat) (adjacency : Adjacency) (id : string)
    : option (list string) :=
  match fuel with
  | O => None
  | S fuel' =>
      match walkChildren (walk fuel' adjacency) (childrenOf adjacency id) with
      | Some l => Some (id :: l)
      | None => None
      end
  end.

(** The part of the adjacency that the root reaches is a tree: child
    lists do not repeat an id, the root is nobody's child and nobody
    has two parents. *)
Record isTree (adjacency : Adjacency) (rootId : string) : Prop := {
  tree_children : ∀ p,
      reachable adjacency rootId p → NoDup (childrenOf adjacency p);
  tree_root : ∀ p,
      reachable adjacency rootId p → rootId ∉ childrenOf adjacency p;
  tree_parent : ∀ p1 p2 c,
      reachable adjacency rootId p1 → reachable adjacency rootId p2 →
      c ∈ childrenOf adjacency p1 → c ∈ childrenOf adjacency p2 → p1 = p2;
}.

(** A test that implies [isTree]: the root and all the entries of all
    the child lists are pairwise distinct. *)
Definition distinctChildren (adjacency : Adjacency) (rootId : string) : Prop :=
  NoDup (rootId :: concat (snd <$> map_to_list adjacency)).

(** A fuel that suffices for [buildRec] on a tree: one more than the
    largest depth. *)
Definition treeFuel (adjacency : Adjacency) (rootId : string) : nat :=
  match computeDepth (bfsFuel adjacency rootId) adjacency rootId with
  | Some (depth, _) => S (maxDepth depth)
  | None => 0
  end.

End BuildInv.

(** ** [makeTree] (tree.ts 420-443) and inputs for the examples *)

Module MakeTree.

Import Bfs TreePhysics.

Definition edges : list (string * string) :=
  [ ("root", "root2"); ("root2", "A"); ("A", "B"); ("A", "C"); ("B", "D");
    ("B", "E"); ("C", "F"); ("C", "G"); ("E", "H"); ("E", "I"); ("G", "J") ].

(** [for (const [p, c] of edges)
       adjacency.set(p, (adjacency.get(p) || []).concat(c))] *)
Definition adjacencyOf (es : list (string * string)) : Adjacency :=
  foldl (λ adjacency e, <[e.1 := default [] (adjacency !! e.1) ++ [e.2]]> adjacency)
        ∅ es.

Definition adjacency : Adjacency := adjacencyOf edges.

(** [scene.buildTree({adjacency, rootId: 'root'})] *)
Definition makeTree (h : Host) (fuel : nat) : option Scene.t :=
  buildTree h fuel adjacency "root".

(** A host for the examples: an 800 by 600 canvas, [Math.random()]
    always 1/2, the first non-colliding group of the engine, and a
    [Math] whose cosine and sine are the constants 1 and 0. *)
Definition sampleHost : Host :=
  {| random := λ _, 0.5%Q;
     Math_cos := λ _, 1%Q;
     Math_sin := λ _, 0%Q;
     Math_PI := 3.14159%Q;
     canvasWidth := 800;
     canvasHeight := 600;
     circleGroup := 0;
     nextGroup := -1 |}.

(** Not a tree: "C" has two parents. *)
Definition diamond : Adjacency :=
  {[ "root" := ["A"; "B"]; "A" := ["C"]; "B" := ["C"] ]}.

(** A root with one child. *)
Definition twoNodes : Adjacency := {[ "root" := ["A"] ]}.

(** A tree in which a node carries an id that [addLeafNodes] makes up
    for a decoration. *)
Definition leafNamed : Adjacency :=
  {[ "root" := ["A"]; "A" := ["leaf_A_0"] ]}.

(** Two labellings of [twoNodes] with the same ids: the one that the
    breadth-first loop computes, one that puts "A" at the level of the
    root, and one that puts it higher up. *)
Definition depthBfs : DepthMap := {[ "root" := 0; "A" := 1 ]}.
Definition depthFlat : DepthMap := {[ "root" := 0; "A" := 0 ]}.
Definition depthHigh : DepthMap := {[ "root" := 0; "A" := 5 ]}.

End MakeTree.

(** ** Forgetting positions

    What is left of the output of the builder when the initial
    positions of the bodies are not looked at. *)

Module Erase.

Import TreePhysics.

Definition body (b : Body.t) : Body.t :=
  Body.mk (Body.id b) (Body.label b) (None, None) (Body.circleRadius b)
    (Body.frictionAir b) (Body.fillStyle b) (Body.strokeStyle b)
    (Body.lineWidth b) (Body.group b).

Definition constraint (c : Constraint.t) : Constraint.t :=
  Constraint.mk (body <$> Constraint.bodyA c) (Constraint.pointA c)
    (body (Constraint.bodyB c)) (Constraint.length c) (Constraint.stiffness c)
    (Constraint.damping c) (Constraint.render c).

Fixpoint node (n : TreeNode.t) : TreeNode.t :=
  match n with
  | TreeNode.mk i b cs es =>
      TreeNode.mk i (body b) (node <$> cs) (constraint <$> es)
  end.

Definition scene (sc : Scene.t) : Scene.t :=
  Scene.mk (node (Scene.root sc)) (constraint (Scene.rootPin sc))
    (node <$> Scene.nodes sc) (body <$> Scene.nodeBodies sc)
    (body <$> Scene.worldBodies sc) (constraint <$> Scene.worldConstraints sc).

Definition cache (c : list (string * Body.t)) : list (string * Body.t) :=
  (λ kb, (kb.1, body kb.2)) <$> c.

(** Two states of the builder that differ in positions, and in the
    counters [idxByDepth] that only feed positions, at most. *)
Record sameState (s1 s2 : State) : Prop := {
  same_draws : draws s1 = draws s2;
  same_nextBodyId : nextBodyId s1 = nextBodyId s2;
  same_cache : cache (bodyCache s1) = cache (bodyCache s2);
  same_worldBodies : body <$> worldBodies s1 = body <$> worldBodies s2;
  same_worldConstraints :
    constraint <$> worldConstraints s1 = constraint <$> worldConstraints s2;
  same_nodeBodies : body <$> nodeBodies s1 = body <$> nodeBodies s2;
}.

(** Two runs that end alike: both too deep, or both with results that
    differ in positions at most. *)
Definition sameRun (r1 r2 : option (TreeNode.t * State)) : Prop :=
  match r1, r2 with
  | Some (n1, s1), Some (n2, s2) => node n1 = node n2 ∧ sameState s1 s2
  | None, None => True
  | _, _ => False
  end.

End Erase.

(** ** The repulsion step of [applyForces] (tree.ts 375-398)

    The step needs a square root, so its numbers are idealised as real
    numbers. A body enters with its position; what the step does is the
    sequence of its calls [Body.applyForce(list[n], list[n].position, f)],
    each recorded as the index [n] and the force [f]; [bodies] is the
    [list] of the source. *)

Module Forces.

Local Open Scope R_scope.

Definition Vec : Type := R * R.

Definition k : R := IZR (CFG.k CFG.repulsion).
Definition min : R := IZR (CFG.min CFG.repulsion).
Definition max : R := IZR (CFG.max CFG.repulsion).

(** [dx * dx + dy * dy] for the pair. *)
Definition r2 (A B : Vec) : R :=
  (B.1 - A.1) * (B.1 - A.1) + (B.2 - A.2) * (B.2 - A.2).

(** What the body of the inner loop computes for one pair: the force
    [{x: fx, y: fy}], or nothing when it [continue]s, together with the
    divisors of the divisions it has carried out, in order. *)
Record PairResult := { divisors : list R; force : option Vec }.

Definition repelPair (A B : Vec) : PairResult :=
  let dx := B.1 - A.1 in
  let dy := B.2 - A.2 in
  if Req_dec_T (r2 A B) 0 then {| divisors := []; force := None |}
  else
    let r := sqrt (r2 A B) in
    if Rlt_dec max r then {| divisors := []; force := None |}
    else
      let clamped := Rmax r min in
      let mag := k / (clamped * clamped) in
      let fx := (dx / r) * mag in
      let fy := (dy / r) * mag in
      {| divisors := [clamped * clamped; r; r]; force := Some (fx, fy) |}.

(** The two calls of [Body.applyForce] for the pair [list[i]], [list[j]]. *)
Definition pairCalls (i j : nat) (A B : Vec) : list (nat * Vec)%type :=
  match force (repelPair A B) with
  | Some (fx, fy) => [(i, (- fx, - fy)); (j, (fx, fy))]
  | None => []
  end.

(** [for (let j = i + 1; j < list.length; j++)], on the rest of the list. *)
Fixpoint innerLoop (i j : nat) (A : Vec) (rest : list Vec) : list (nat * Vec)%type :=
  match rest with
  | [] => []
  | B :: rest' => pairCalls i j A B ++ innerLoop i (S j) A rest'
  end.

(** [for (let i = 0; i < list.length; i++)], from index [i] on. *)
Fixpoint outerLoop (i : nat) (bodies : list Vec) : list (nat * Vec)%type :=
  match bodies with
  | [] => []
  | A :: rest => innerLoop i (S i) A rest ++ outerLoop (S i) rest
  end.

Definition repulsion (bodies : list Vec) : list (nat * Vec)%type :=
  outerLoop 0 bodies.

(** The length of a vector. *)
Definition norm (v : Vec) : R := sqrt (v.1 * v.1 + v.2 * v.2).

End Forces.

(** ** The effect of the UI component (App.tsx 9-49) *)

Module App.

(** The canvas element: [dataset.started] ([None] when the attribute is
    absent) and its size. *)
Record Canvas := {
  started : option string;
  width : Z;
  height : Z;
}.

(** [canvasRef.current], the number of [resize] listeners that the
    effect has registered on the window, and the canvases handed to
    [makeTree] so far. *)
Record Page := {
  current : option Canvas;
  resizeListeners : nat;
  makeTreeCalls : list Canvas;
}.

(** What can happen to the page: the effect runs, the window is
    resized, the cleanup of the effect runs. The sizes are those of the
    container, less its padding, at that moment. *)
Inductive Event :=
  | RunEffect (w h : Z)
  | WindowResize (w h : Z)
  | Cleanup.

(** JS truthiness of [dataset.started]. *)
Definition truthy (v : option string) : bool :=
  match v with
  | Some s => negb (bool_decide (s = ""))
  | None => false
  end.

(** The body of the effect. *)
Definition effect (w h : Z) (p : Page) : Page :=
  match current p with
  | Some canvas =>
      if truthy (started canvas) then p
      else
        let marked := {| started := Some "1"; width := w; height := h |} in
        {| current := Some marked;
           resizeListeners := S (resizeListeners p);
           makeTreeCalls := makeTreeCalls p ++ [marked] |}
  | None => p
  end.

(** [handleResize], when it is registered. *)
Definition handleResize (w h : Z) (p : Page) : Page :=
  match resizeListeners p, current p with
  | S _, Some canvas =>
      {| current := Some {| started := started canvas; width := w; height := h |};
         resizeListeners := resizeListeners p;
         makeTreeCalls := makeTreeCalls p |}
  | _, _ => p
  end.

Definition cleanup (p : Page) : Page :=
  {| current := current p;
     resizeListeners := pred (resizeListeners p);
     makeTreeCalls := makeTreeCalls p |}.

Definition step (p : Page) (e : Event) : Page :=
  match e with
  | RunEffect w h => effect w h p
  | WindowResize w h => handleResize w h p
  | Cleanup => cleanup p
  end.

Definition run (p : Page) (events : list Event) : Page := foldl step p events.

(** A page on which nothing has happened yet. *)
Definition mount (canvas : option Canvas) : Page :=
  {| current := canvas; resizeListeners := 0; makeTreeCalls := [] |}.

(** What holds of a page from its mounting on: [makeTree] has not been
    called, or it has been called once and the canvas carries the
    marker. *)
Definition handedOver (p : Page) : Prop :=
  makeTreeCalls p = [] ∨
  (length (makeTreeCalls p) = 1 ∧
   ∃ canvas, current p = Some canvas ∧ truthy (started canvas) = true).

End App.

(** ** More vocabulary: totals of the repulsion step *)

Module ForceTotals.

Import Forces.

Local Open Scope R_scope.

(** The sum of the forces of a sequence of [Body.applyForce] calls. *)
Fixpoint sumForces (calls : list (nat * Vec)%type) : Vec :=
  match calls with
  | [] => (0, 0)
  | (_, f) :: rest => (f.1 + (sumForces rest).1, f.2 + (sumForces rest).2)
  end.

End ForceTotals.

(** ** More vocabulary: the pairs of the repulsion step *)

Module ForcePairs.

Import Forces.

(** The pairs of indices [(i, j)] with [i < j < n], in the order in
    which the two loops reach them. *)
Definition indexPairs (n : nat) : list (nat * nat) :=
  flat_map (λ i, (λ j, (i, j)) <$> seq (S i) (n - S i)) (seq 0 n).

(** The calls of [Body.applyForce] that the loop body makes for the
    entries [p.1] and [p.2] of the list. *)
Definition callsFor (bodies : list Vec) (p : nat * nat)
    : list (nat * Vec)%type :=
  match bodies !! p.1, bodies !! p.2 with
  | Some A, Some B => pairCalls p.1 p.2 A B
  | _, _ => []
  end.

Local Open Scope R_scope.

(** The distance of two positions. *)
Definition dist (A B : Vec) : R := sqrt (r2 A B).

(** The room left for the rounding of binary64: one part in 10^9, some
    million times the error of the dozen operations of the loop body;
    and the distance from which on the squares of the differences are
    far from underflow. *)
Definition slack : R := / 10 ^ 9.
Definition tiny : R := / 10 ^ 150.

(** Inner and outer product of two vectors. *)
Definition dot (u v : Vec) : R := u.1 * v.1 + u.2 * v.2.
Definition cross (u v : Vec) : R := u.1 * v.2 - u.2 * v.1.

End ForcePairs.

(** ** The repulsion step in binary64 (tree.ts 375-398)

    The same loop with the numbers of JS: [float] is IEEE 754 binary64,
    its operations round to nearest, ties to even, as those of JS do. *)

Module Forces64.

Import PrimFloat.

Local Open Scope float_scope.

Definition Vec : Type := float * float.

Definition ofZ (z : Z) : float := of_uint63 (Uint63.of_Z z).

Definition k : float := ofZ (CFG.k CFG.repulsion).
Definition min : float := ofZ (CFG.min CFG.repulsion).
Definition max : float := ofZ (CFG.max CFG.repulsion).

(** [Math.max(a, b)]: [NaN] when an argument is, and [+0] for the two
    zeros in either order. *)
Definition Math_max (a b : float) : float :=
  if is_nan a || is_nan b then nan
  else if a <? b then b
  else if b <? a then a
  else if a =? 0 then a + b
  else a.

(** The body of the inner loop for one pair: the force
    [{x: fx, y: fy}], or nothing when it [continue]s. [r2 === 0] is
    [=?], which holds of both zeros and not of [NaN]; [r > max] is
    [<?], false when [r] is [NaN]. *)
Definition repelPair (A B : Vec) : option Vec :=
  let dx := B.1 - A.1 in
  let dy := B.2 - A.2 in
  let r2 := dx * dx + dy * dy in
  if r2 =? 0 then None
  else
    let r := sqrt r2 in
    if max <? r then None
    else
      let clamped := Math_max r min in
      let mag := k / (clamped * clamped) in
      let fx := (dx / r) * mag in
      let fy := (dy / r) * mag in
      Some (fx, fy).

Definition pairCalls (i j : nat) (A B : Vec) : list (nat * Vec)%type :=
  match repelPair A B with
  | Some (fx, fy) => [(i, (- fx, - fy)); (j, (fx, fy))]
  | None => []
  end.

Fixpoint innerLoop (i j : nat) (A : Vec) (rest : list Vec)
    : list (nat * Vec)%type :=
  match rest with
  | [] => []
  | B :: rest' => pairCalls i j A B ++ innerLoop i (S j) A rest'
  end.

Fixpoint outerLoop (i : nat) (bodies : list Vec) : list (nat * Vec)%type :=
  match bodies with
  | [] => []
  | A :: rest => innerLoop i (S i) A rest ++ outerLoop (S i) rest
  end.

Definition repulsion (bodies : list Vec) : list (nat * Vec)%type :=
  outerLoop 0 bodies.

End Forces64.

(** ** More vocabulary: the layers of the depth map *)

Module Layers.

Import Bfs.

(** The entries of [depth] that carry the depth [d]. *)
Definition atDepth (depth : DepthMap) (d : nat) : DepthMap :=
  filter (λ kv, kv.2 = d) depth.

End Layers.

(** ** More inputs for the examples *)

Module MoreInputs.

Import Bfs.

(** A root on a cycle. *)
Definition cyclic : Adjacency := {[ "root" := ["A"]; "A" := ["root"] ]}.

(** A host whose cosine and sine turn with the angle: the rational
    point of the unit circle with the parameter [a]. *)
Definition turningHost : TreePhysics.Host :=
  {| TreePhysics.random := λ _, 0.5%Q;
     TreePhysics.Math_cos := λ a, ((1 - a * a) / (1 + a * a))%Q;
     TreePhysics.Math_sin := λ a, ((2 * a) / (1 + a * a))%Q;
     TreePhysics.Math_PI := 3.14159%Q;
     TreePhysics.canvasWidth := 800;
     TreePhysics.canvasHeight := 600;
     TreePhysics.circleGroup := 0;
     TreePhysics.nextGroup := -1 |}.

End MoreInputs.

(** ** More vocabulary: the shape of the tree that is built *)

Module Shape.

Import Bfs TreePhysics BuildInv.

(** The constraint that [addChild] makes for a child of a node with
    the body [b]: the main spring for a node of the adjacency, the leaf
    spring for a decoration. *)
Definition linkOk (b : Body.t) (child : TreeNode.t) (e : Constraint.t) : Prop :=
  Constraint.bodyA e = Some b ∧ Constraint.pointA e = None ∧
  Constraint.bodyB e = TreeNode.body child ∧
  springOf e = (if isTreeNode child then CFG.spring else CFG.leafSpring).

(** [edges] runs parallel to [children]. *)
Definition wired (n : TreeNode.t) : Prop :=
  Forall2 (linkOk (TreeNode.body n)) (TreeNode.children n) (TreeNode.edges n).

(** A decoration: not a node of the adjacency, nothing below it. *)
Definition isLeafNode (n : TreeNode.t) : Prop :=
  isTreeNode n = false ∧ TreeNode.children n = [] ∧ TreeNode.edges n = [].

(** What holds of every node that the builder makes. *)
Definition shapeOk (h : Host) (adjacency : Adjacency) (depth : DepthMap)
    (n : TreeNode.t) : Prop :=
  wired n ∧
  if isTreeNode n
  then
    treeIds (TreeNode.children n) = childrenOf adjacency (TreeNode.id n) ∧
    Forall (λ c, isTreeNode c = false → isLeafNode c) (TreeNode.children n) ∧
    (aboveRoot depth (TreeNode.id n) = false →
       Forall (λ c, isTreeNode c) (TreeNode.children n)) ∧
    (aboveRoot depth (TreeNode.id n) = true →
     childrenOf adjacency (TreeNode.id n) = [] →
       ∃ i, length (TreeNode.children n)
            = Z.to_nat (3 + Qfloor (random h i * 4)))
  else TreeNode.children n = [] ∧ TreeNode.edges n = [].

(** All the constraints held by the nodes of a list, and the bodies of
    its decorations. *)
Definition allEdges (l : list TreeNode.t) : list Constraint.t :=
  concat (TreeNode.edges <$> l).
Definition leafBodies (l : list TreeNode.t) : list Body.t :=
  TreeNode.body <$> filter (λ n, isTreeNode n = false) l.

(** The nodes whose body the last lines of [makeTree] recolour:
    [if (n.children.length === 0) n.body.render.fillStyle = '#ffd27c']. *)
Definition restyled (scene : Scene.t) : list TreeNode.t :=
  filter (λ n, TreeNode.children n = []) (Scene.nodes scene).

End Shape.

(** ** More vocabulary: the first layout *)

Module Layout.

Import Bfs TreePhysics BuildInv Layers.

(** The ids of [keys] that [depth] puts at depth [d], in the order of
    [keys]. *)
Definition layerOf (depth : DepthMap) (d : nat) (keys : list string)
    : list string :=
  filter (λ id, depthOf depth id = d) keys.

(** The position that [makeBody] (185-193) computes when [idxByDepth]
    holds [k] for the depth [d]. *)
Definition slotOf (h : Host) (depth : DepthMap) (d k : nat) : num * num :=
  (nadd (Some ((center h).1 - canvasWidth h * 0.6 * 0.5)%Q)
        match countByDepth depth !! d with
        | Some slots =>
            Some (((ofNat k + 1) / (ofNat slots + 1)) * (canvasWidth h * 0.6))%Q
        | None => None
        end,
   Some (canvasHeight h - 120 - ofNat d * 90)%Q).

(** The same in closed form: slot [k] of [slots] across the middle 60%
    of the canvas, and the height of the layer [d]. *)
Definition slotX (h : Host) (slots k : nat) : Q :=
  (canvasWidth h * 0.5 - canvasWidth h * 0.6 * 0.5
   + ((ofNat k + 1) / (ofNat slots + 1)) * (canvasWidth h * 0.6))%Q.
Definition layerY (h : Host) (d : nat) : Q :=
  (canvasHeight h - 120 - ofNat d * 90)%Q.

(** [idxByDepth] counts the cached bodies of each layer, and each
    cached body sits in the slot of its rank among the bodies of its
    layer. *)
Definition layoutOk (h : Host) (depth : DepthMap) (idx : gmap nat nat)
    (cache : list (string * Body.t)) : Prop :=
  (∀ d, default 0 (idx !! d) = length (layerOf depth d cache.*1)) ∧
  (∀ i id b, cache !! i = Some (id, b) →
     Body.position b
     = slotOf h depth (depthOf depth id)
         (length (layerOf depth (depthOf depth id) (take i cache.*1)))).

(** The cache holds the bodies in the order in which they were made:
    their numbers grow along it and stay below the number of the next
    body. *)
Definition cacheSorted (next : nat) (cache : list (string * Body.t)) : Prop :=
  (∀ i j a b, i < j → cache.*2 !! i = Some a → cache.*2 !! j = Some b →
     Body.id a < Body.id b) ∧
  (∀ b, b ∈ cache.*2 → Body.id b < next).

(** A coordinate of at most 10^9 in absolute value, far beyond any
    canvas; on such coordinates the rounding of binary64 stays below
    a millionth, well within [room]. *)
Definition moderate (q : Q) : Prop := (- 1000000000 <= q)%Q ∧ (q <= 1000000000)%Q.
Definition room : Q := 1 # 1000.

(** A position made of two numbers, neither of them [NaN]. *)
Definition numeric (p : num * num) : Prop := ∃ x y, p = (Some x, Some y).

(** Two positions are the same point. *)
Definition samePoint (p q : num * num) : Prop :=
  match p, q with
  | (Some x1, Some y1), (Some x2, Some y2) => (x1 == x2)%Q ∧ (y1 == y2)%Q
  | _, _ => False
  end.

End Layout.

(** ** The resize handler of [TreePhysics] (tree.ts 118-150) *)

Module Resize.

Import TreePhysics.

(** What the handler does to [this.rootPin] (145-148). [container]
    tells whether the canvas has a parent element; [width] and [height]
    are what [this.render.canvas] reports once the handler has set its
    size, which is what [this.center] reads. The point is updated in
    place, so the constraint in the world moves with it. *)
Definition onResize (container : bool) (width height : Q)
    (rootPin : option Constraint.t) : option Constraint.t :=
  if container then
    match rootPin with
    | Some pin =>
        let center := ((width * 0.5)%Q, (height * 0.5)%Q) in
        Some (Constraint.mk (Constraint.bodyA pin)
                (Some (center.1, (center.2 * 1.25)%Q))
                (Constraint.bodyB pin) (Constraint.length pin)
                (Constraint.stiffness pin) (Constraint.damping pin)
                (Constraint.render pin))
    | None => None
    end
  else rootPin.

End Resize.

(** * Facts about the breadth-first labelling *)

Module BfsFacts.
Import Bfs.

Section Run.
Variable adjacency : Adjacency.
Variable rootId : string.

Local Abbreviation U := (idUniverse adjacency rootId).
Local Abbreviation potential := (Bfs.potential adjacency rootId).

Lemma child_in_universe p c : c ∈ childrenOf adjacency p → c ∈ U.
Proof.
  unfold childrenOf, idUniverse. intros Hc.
  destruct (adjacency !! p) as [cs|] eqn:E; simpl in Hc; [|by apply elem_of_nil in Hc].
  apply elem_of_union_r, elem_of_list_to_set, list_elem_of_In, in_concat.
  exists cs. split; [|by apply list_elem_of_In].
  apply list_elem_of_In, list_elem_of_fmap. exists (p, cs). split; [done|].
  by apply elem_of_map_to_list.
Qed.

(** *** Termination: the potential [|U \ dom depth| + |q|] *)

Lemma potential_enqueue depth q c d :
  c ∈ U → depth !! c = None →
  potential (<[c := d]> depth) (q ++ [c]) = potential depth q.
Proof.
  intros HU Hc. unfold Bfs.potential. rewrite length_app, dom_insert_L. simpl.
  assert (Hin : c ∈ U ∖ dom depth).
  { apply elem_of_difference. split; [done|]. by apply not_elem_of_dom. }
  replace (U ∖ ({[c]} ∪ dom depth)) with ((U ∖ dom depth) ∖ {[c]}) by set_solver.
  rewrite size_difference by set_solver. rewrite size_singleton.
  assert (size (U ∖ dom depth) ≠ 0).
  { intros H0. apply size_empty_inv in H0. set_solver. }
  lia.
Qed.

Lemma visitChildren_potential p cs depth q :
  (∀ c, c ∈ cs → c ∈ U) →
  potential (visitChildren p cs depth q).1 (visitChildren p cs depth q).2
  = potential depth q.
Proof.
  revert depth q. induction cs as [|c cs IH]; intros depth q HU; simpl; [done|].
  destruct (depth !! c) eqn:E.
  - apply IH. intros; apply HU; by right.
  - rewrite IH by (intros; apply HU; by right).
    apply potential_enqueue; [apply HU; by left | done].
Qed.

Lemma bfsLoop_enough fuel depth q shifted :
  potential depth q ≤ fuel → is_Some (bfsLoop fuel adjacency depth q shifted).
Proof.
  revert depth q shifted. induction fuel as [|fuel IH]; intros depth q shifted Hp.
  - destruct q; [by eexists|]. unfold Bfs.potential in Hp; simpl in Hp; lia.
  - destruct q as [|p q]; [by eexists|]. simpl.
    pose proof (visitChildren_potential p (childrenOf adjacency p) depth q
                  (child_in_universe p)) as Hv.
    destruct (visitChildren p (childrenOf adjacency p) depth q) as [depth' q'].
    apply IH. simpl in Hv. rewrite Hv. unfold Bfs.potential in *. simpl in Hp. lia.
Qed.

Lemma initial_potential : potential {[rootId := 0]} [rootId] = bfsFuel adjacency rootId.
Proof.
  unfold Bfs.potential, bfsFuel. simpl. rewrite dom_singleton_L.
  assert (size (U ∖ {[rootId]}) = size U - 1).
  { rewrite size_difference by (unfold idUniverse; set_solver).
    by rewrite size_singleton. }
  assert (size U ≠ 0).
  { intros H0. apply size_empty_inv in H0. unfold idUniverse in H0. set_solver. }
  lia.
Qed.

Lemma computeDepth_enough :
  is_Some (computeDepth (bfsFuel adjacency rootId) adjacency rootId).
Proof. apply bfsLoop_enough. by rewrite initial_potential. Qed.

Lemma path_in_universe v n : path adjacency rootId v n → v ∈ U.
Proof.
  destruct 1 as [|v w n _ Hw].
  - unfold idUniverse. set_solver.
  - by eapply child_in_universe.
Qed.

(** *** Correctness: the invariants of the two loops *)

Lemma depthOf_insert_old depth c d v :
  depth !! c = None → is_Some (depth !! v) →
  depthOf (<[c := d]> depth) v = depthOf depth v.
Proof.
  intros Hc [x Hv]. unfold depthOf.
  rewrite lookup_insert_ne; [done|]. intros ->. congruence.
Qed.

Lemma depthOf_fmap_insert_old depth c d (q : list string) :
  depth !! c = None → (∀ v, v ∈ q → is_Some (depth !! v)) →
  depthOf (<[c := d]> depth) <$> q = depthOf depth <$> q.
Proof.
  intros Hc Hq. apply list_fmap_ext. intros i v Hv.
  apply depthOf_insert_old; [done|]. apply Hq. by eapply list_elem_of_lookup_2.
Qed.

Lemma visitInv_skip p seen depth q c :
  visitInv adjacency rootId p seen depth q → is_Some (depth !! c) →
  visitInv adjacency rootId p (seen ++ [c]) depth q.
Proof.
  intros [] Hc. split; try done.
  intros c' [Hin | ->%list_elem_of_singleton]%elem_of_app; auto.
Qed.

Lemma visitInv_enqueue p seen depth q c :
  visitInv adjacency rootId p seen depth q →
  c ∈ childrenOf adjacency p → depth !! c = None →
  visitInv adjacency rootId p (seen ++ [c])
    (<[c := depthOf depth p + 1]> depth) (q ++ [c]).
Proof.
  intros [Hroot Hp Hq Hsorted Hbound Hpath Hclosed Hseen] Hchild Hc.
  assert (Hold : ∀ v, is_Some (depth !! v) →
            depthOf (<[c := depthOf depth p + 1]> depth) v = depthOf depth v).
  { intros v Hv. by apply depthOf_insert_old. }
  assert (Hkeep : ∀ v, is_Some (depth !! v) →
            is_Some (<[c := depthOf depth p + 1]> depth !! v)).
  { intros v [x Hv]. exists x. rewrite lookup_insert_ne; [done|]. congruence. }
  assert (Hnew : depthOf (<[c := depthOf depth p + 1]> depth) c = depthOf depth p + 1).
  { unfold depthOf at 1. by rewrite lookup_insert_eq. }
  split.
  - rewrite lookup_insert_ne; [done|]. congruence.
  - by apply Hkeep.
  - intros v [Hin | ->%list_elem_of_singleton]%elem_of_app.
    + destruct (Hq v Hin) as [Hv Hle]. split; [by apply Hkeep|].
      rewrite !Hold; done.
    + split; [rewrite lookup_insert_eq; by eexists|].
      rewrite Hnew, Hold by done. lia.
  - rewrite fmap_app. apply StronglySorted_app. split_and!.
    + intros x1 x2 Hx1 ->%list_elem_of_singleton. rewrite Hnew.
      apply list_elem_of_fmap in Hx1 as (v & -> & Hv).
      destruct (Hq v Hv) as [[d Hd] _]. rewrite Hold by by eexists.
      unfold depthOf at 1. rewrite Hd. simpl. by eapply Hbound.
    + rewrite depthOf_fmap_insert_old; [done..|]. intros v Hv. by apply Hq.
    + simpl. repeat constructor.
  - intros v d. rewrite Hold by done. destruct (decide (v = c)) as [->|Hne].
    + rewrite lookup_insert_eq. intros [= <-]. lia.
    + rewrite lookup_insert_ne by done. apply Hbound.
  - intros v d. destruct (decide (v = c)) as [->|Hne].
    + rewrite lookup_insert_eq. intros [= <-].
      destruct Hp as [dp Hdp]. unfold depthOf. rewrite Hdp. simpl.
      replace (dp + 1) with (S dp) by lia.
      eapply path_snoc; [by apply Hpath|done].
    + rewrite lookup_insert_ne by done. apply Hpath.
  - intros u c' Hu Hup Huq Hc'.
    assert (u ≠ c) by (intros ->; apply Huq, elem_of_app; right; by left).
    rewrite lookup_insert_ne in Hu by done.
    assert (u ∉ q) by (intros ?; apply Huq, elem_of_app; by left).
    destruct (Hclosed u c' Hu Hup H0 Hc') as [Hd Hle].
    split; [by apply Hkeep|]. rewrite !Hold; done.
  - intros c' [Hin | ->%list_elem_of_singleton]%elem_of_app.
    + by apply Hkeep, Hseen.
    + rewrite lookup_insert_eq. by eexists.
Qed.

Lemma visitChildren_inv p cs seen depth q :
  (∀ c, c ∈ cs → c ∈ childrenOf adjacency p) →
  visitInv adjacency rootId p seen depth q →
  visitInv adjacency rootId p (seen ++ cs)
    (visitChildren p cs depth q).1 (visitChildren p cs depth q).2.
Proof.
  revert seen depth q. induction cs as [|c cs IH]; intros seen depth q Hcs Hinv.
  - simpl. by rewrite app_nil_r.
  - simpl. replace (seen ++ c :: cs) with ((seen ++ [c]) ++ cs)
      by (by rewrite <- app_assoc).
    assert (Hcs' : ∀ c0, c0 ∈ cs → c0 ∈ childrenOf adjacency p)
      by (intros; apply Hcs; by right).
    destruct (depth !! c) eqn:E.
    + apply IH; [done|]. apply visitInv_skip; [done|by eexists].
    + unfold depthOf in *. apply IH; [done|].
      apply visitInv_enqueue; [done| apply Hcs; by left |done].
Qed.

Lemma loopInv_init : loopInv adjacency rootId {[rootId := 0]} [rootId].
Proof.
  split.
  - apply lookup_singleton_eq.
  - intros v ->%list_elem_of_singleton. rewrite lookup_singleton_eq. by eexists.
  - simpl. repeat constructor.
  - intros h v d [= <-] [<- <-]%lookup_singleton_Some. lia.
  - intros v d [<- <-]%lookup_singleton_Some. constructor.
  - intros u c [x [<- _]%lookup_singleton_Some] Hq. exfalso. apply Hq. by left.
Qed.

Lemma loopInv_shift p q depth :
  loopInv adjacency rootId depth (p :: q) →
  visitInv adjacency rootId p [] depth q.
Proof.
  intros [Hroot Hq Hsorted Hfront Hpath Hclosed].
  simpl in Hsorted. apply StronglySorted_cons in Hsorted as [Hmin Hsorted].
  split; try done.
  - apply Hq. by left.
  - intros v Hv. split; [apply Hq; by right|].
    rewrite Forall_forall in Hmin. apply Hmin, list_elem_of_fmap. eauto.
  - intros v d Hd. by eapply Hfront.
  - intros u c Hu Hne Hnq. apply Hclosed; [done|].
    intros [->|?]%elem_of_cons; done.
  - intros c Hc. by apply elem_of_nil in Hc.
Qed.

Lemma visitInv_finish p depth q :
  visitInv adjacency rootId p (childrenOf adjacency p) depth q →
  loopInv adjacency rootId depth q.
Proof.
  intros [Hroot Hp Hq Hsorted Hbound Hpath Hclosed Hseen].
  split; try done.
  - intros v Hv. by apply Hq.
  - intros h v d Hh Hd.
    assert (h ∈ q) as Hin by (destruct q; simplify_eq/=; by left).
    destruct (Hq h Hin) as [_ Hle]. specialize (Hbound v d Hd). lia.
  - intros u c Hu Hnq Hc. destruct (decide (u = p)) as [->|Hne].
    + destruct (Hseen c Hc) as [d Hd]. split; [by eexists|].
      unfold depthOf at 1. rewrite Hd. simpl. by eapply Hbound.
    + by apply Hclosed.
Qed.

Lemma bfsLoop_inv fuel depth q shifted depth' shifted' :
  loopInv adjacency rootId depth q →
  bfsLoop fuel adjacency depth q shifted = Some (depth', shifted') →
  loopInv adjacency rootId depth' [].
Proof.
  revert depth q shifted. induction fuel as [|fuel IH]; intros depth q shifted Hinv Hrun.
  - destruct q; simplify_eq/=. done.
  - destruct q as [|p q]; simplify_eq/=; [done|].
    pose proof (visitChildren_inv p (childrenOf adjacency p) [] depth q
                  (λ _ H, H) (loopInv_shift _ _ _ Hinv)) as Hv.
    destruct (visitChildren p (childrenOf adjacency p) depth q) as [d1 q1].
    simpl in Hv. eapply IH; [|done]. by eapply visitInv_finish.
Qed.

(** Once the queue is empty every labelled id is closed, so the label
    is a lower bound for every path. *)
Lemma closed_lower_bound depth v n :
  loopInv adjacency rootId depth [] →
  path adjacency rootId v n → ∃ d, depth !! v = Some d ∧ d ≤ n.
Proof.
  intros Hinv. induction 1 as [|v w n Hp [d [Hd Hle]] Hw].
  - exists 0. split; [apply Hinv|done].
  - destruct (inv_closed _ _ _ _ Hinv v w) as [[dw Hdw] Hb];
      [by eexists | apply not_elem_of_nil | done |].
    exists dw. split; [done|]. unfold depthOf in Hb. rewrite Hd, Hdw in Hb.
    simpl in Hb. lia.
Qed.

Lemma final_depth_is_distance depth v d :
  loopInv adjacency rootId depth [] →
  depth !! v = Some d ↔ distance adjacency rootId v d.
Proof.
  intros Hinv. split.
  - intros Hd. split; [by apply Hinv|].
    intros n Hn. destruct (closed_lower_bound depth v n Hinv Hn) as (d' & Hd' & Hle).
    congruence.
  - intros [Hp Hmin].
    destruct (closed_lower_bound depth v d Hinv Hp) as (d' & Hd' & Hle).
    assert (d ≤ d') by (apply Hmin; by apply Hinv). by replace d with d' by lia.
Qed.

(** *** The order of the shifts *)

Lemma visitChildren_trace p cs pre depth q :
  traceInv depth (pre ++ q) →
  traceInv (visitChildren p cs depth q).1 (pre ++ (visitChildren p cs depth q).2).
Proof.
  revert depth q. induction cs as [|c cs IH]; intros depth q Ht; simpl; [done|].
  destruct (depth !! c) eqn:E; [by apply IH|].
  apply IH. destruct Ht as [Hnd Hdom]. rewrite app_assoc. split.
  - apply NoDup_app. split_and!; [done| |apply NoDup_singleton].
    intros x Hx ->%list_elem_of_singleton. apply Hdom in Hx as [? ?]. congruence.
  - intros v. rewrite elem_of_app, list_elem_of_singleton, Hdom.
    destruct (decide (v = c)) as [->|Hne].
    + rewrite lookup_insert_eq. split; [by eexists|]. by right.
    + rewrite lookup_insert_ne by done. split; [intros [?|?]; done|by left].
Qed.

Lemma bfsLoop_trace fuel depth q shifted depth' shifted' :
  traceInv depth (shifted ++ q) →
  bfsLoop fuel adjacency depth q shifted = Some (depth', shifted') →
  traceInv depth' shifted'.
Proof.
  revert depth q shifted. induction fuel as [|fuel IH]; intros depth q shifted Ht Hrun.
  - destruct q; simplify_eq/=. by rewrite app_nil_r in Ht.
  - destruct q as [|p q]; simplify_eq/=; [by rewrite app_nil_r in Ht|].
    pose proof (visitChildren_trace p (childrenOf adjacency p) (shifted ++ [p]) depth q) as Hv.
    destruct (visitChildren p (childrenOf adjacency p) depth q) as [d1 q1].
    simpl in Hv. eapply IH; [|done]. apply Hv. by rewrite <- app_assoc.
Qed.

Lemma traceInv_init : traceInv {[rootId := 0]} ([] ++ [rootId]).
Proof.
  split; [apply NoDup_singleton|]. intros v. simpl.
  rewrite list_elem_of_singleton. split.
  - intros ->. rewrite lookup_singleton_eq. by eexists.
  - by intros [x [<- _]%lookup_singleton_Some].
Qed.

End Run.
End BfsFacts.

(** * The claims about the depth labelling *)

Import Bfs.

(** C1. For every adjacency and root, the breadth-first loop of
    [buildTree] returns, and the depth it has given to an id is the
    length of a shortest path from the root to that id; every id the
    root reaches has been given one. *)
Theorem bfs_depth_is_shortest_path (adjacency : Adjacency) (rootId : string) :
  ∃ depth shifted,
    computeDepth (bfsFuel adjacency rootId) adjacency rootId
      = Some (depth, shifted) ∧
    (∀ v d, depth !! v = Some d ↔ distance adjacency rootId v d) ∧
    (∀ v, reachable adjacency rootId v → is_Some (depth !! v)).
Proof.
  destruct (BfsFacts.computeDepth_enough adjacency rootId) as [[depth shifted] Hrun].
  exists depth, shifted. split; [done|].
  pose proof (BfsFacts.bfsLoop_inv adjacency rootId _ _ _ _ _ _
                (BfsFacts.loopInv_init adjacency rootId) Hrun) as Hinv.
  split.
  - intros v d. by apply BfsFacts.final_depth_is_distance.
  - intros v [n Hn].
    destruct (BfsFacts.closed_lower_bound adjacency rootId depth v n Hinv Hn)
      as (d & Hd & _).
    by exists d.
Qed.

(** C8. The loop terminates on every adjacency, cyclic or not, within
    as many shifts as there are ids, and with any larger bound as well:
    the ids shifted off the queue are pairwise distinct, and they are
    the ids that the root reaches. *)
Theorem bfs_terminates_one_shift_per_id
    (adjacency : Adjacency) (rootId : string) (extra : nat) :
  ∃ depth shifted,
    computeDepth (bfsFuel adjacency rootId + extra) adjacency rootId
      = Some (depth, shifted) ∧
    NoDup shifted ∧
    (∀ v, v ∈ shifted ↔ reachable adjacency rootId v) ∧
    (∀ v, v ∈ shifted ↔ is_Some (depth !! v)) ∧
    length shifted ≤ bfsFuel adjacency rootId.
Proof.
  destruct (BfsFacts.bfsLoop_enough adjacency rootId
              (bfsFuel adjacency rootId + extra) {[rootId := 0]} [rootId] [])
    as [[depth shifted] Hrun].
  { pose proof (BfsFacts.initial_potential adjacency rootId). lia. }
  exists depth, shifted. split; [done|].
  pose proof (BfsFacts.bfsLoop_inv adjacency rootId _ _ _ _ _ _
                (BfsFacts.loopInv_init adjacency rootId) Hrun) as Hinv.
  destruct (BfsFacts.bfsLoop_trace adjacency _ _ _ _ _ _
              (BfsFacts.traceInv_init rootId) Hrun) as [Hnd Hdom].
  assert (Hreach : ∀ v, v ∈ shifted ↔ reachable adjacency rootId v).
  { intros v. rewrite Hdom. split.
    - intros [d Hd]. exists d. by apply (inv_path _ _ _ _ Hinv).
    - intros [n Hn].
      destruct (BfsFacts.closed_lower_bound adjacency rootId depth v n Hinv Hn)
        as (d & Hd & _).
      by exists d. }
  split_and!; [done..|].
  unfold bfsFuel.
  rewrite <- (size_list_to_set (C := gset string) shifted) by done.
  apply subseteq_size. intros v Hv%elem_of_list_to_set.
  apply Hreach in Hv as [n Hn]. by eapply BfsFacts.path_in_universe.
Qed.

(** * Facts about the builder *)

Module BuildFacts.
Import Bfs TreePhysics BuildInv.

(** *** The monad *)

Lemma bind_Some {A B} (m : M A) (k : A → M B) s r :
  bind m k s = Some r ↔ ∃ a s1, m s = Some (a, s1) ∧ k a s1 = Some r.
Proof.
  unfold bind. destruct (m s) as [[a s1]|]; split.
  - intros H. by exists a, s1.
  - by intros (? & ? & [= <- <-] & ?).
  - done.
  - by intros (? & ? & ? & ?).
Qed.

Ltac inv_bind H :=
  let a := fresh "a" in
  let s := fresh "s" in
  let H1 := fresh "Hstep" in
  apply bind_Some in H as (a & s & H1 & H).

(** *** The cache *)

Lemma cacheGet_Some_elem cache k b :
  cacheGet cache k = Some b → (k, b) ∈ cache.
Proof.
  induction cache as [|[k0 b0] cache IH]; simpl; [done|].
  case_decide as Hk.
  - intros [= <-]. subst. by left.
  - intros Hg. right. by apply IH.
Qed.

Lemma cacheGet_None cache k :
  cacheGet cache k = None ↔ k ∉ fst <$> cache.
Proof.
  induction cache as [|[k0 b0] cache IH]; simpl.
  - split; [intros _; apply not_elem_of_nil|done].
  - case_decide as Hk.
    + subst. split; [done|]. intros Hn. exfalso. apply Hn. by left.
    + rewrite IH, not_elem_of_cons. naive_solver.
Qed.

Lemma cacheGet_elem cache k b :
  NoDup (fst <$> cache) → (k, b) ∈ cache → cacheGet cache k = Some b.
Proof.
  induction cache as [|[k0 b0] cache IH]; simpl.
  - intros _ Hin. by apply elem_of_nil in Hin.
  - intros [Hnot Hnd]%NoDup_cons [Heq|Hin]%elem_of_cons.
    + injection Heq as -> ->. by rewrite decide_True.
    + case_decide as Hk; [|by apply IH]. subst. exfalso. apply Hnot.
      apply list_elem_of_fmap. by exists (k, b).
Qed.

Lemma cacheGet_app c1 c2 k :
  cacheGet (c1 ++ c2) k =
  match cacheGet c1 k with Some b => Some b | None => cacheGet c2 k end.
Proof.
  induction c1 as [|[k0 b0] c1 IH]; simpl; [done|]. by case_decide.
Qed.

Lemma cacheSet_absent cache k b :
  cacheGet cache k = None → cacheSet cache k b = cache ++ [(k, b)].
Proof.
  induction cache as [|[k0 b0] cache IH]; simpl; [done|].
  case_decide; [done|]. intros Hg. by rewrite IH.
Qed.

Lemma cacheGet_cacheSet cache k b : cacheGet (cacheSet cache k b) k = Some b.
Proof.
  induction cache as [|[k0 b0] cache IH]; simpl.
  - by rewrite decide_True.
  - destruct (decide (k0 = k)) as [Hk|Hk]; simpl.
    + by rewrite decide_True.
    + by rewrite decide_False.
Qed.

(** *** Node bodies and leaf bodies *)

Lemma node_not_leaf b : isNodeBody b → isLeafBody b → False.
Proof.
  unfold isNodeBody, isLeafBody. intros H1%Is_true_true H2%Is_true_true.
  apply Qeq_bool_iff in H1, H2. rewrite H1 in H2. discriminate.
Qed.

Lemma leaf_not_tree_node n : isLeafBody (TreeNode.body n) → isTreeNode n = false.
Proof.
  intros Hl. destruct (isTreeNode n) eqn:E; [|done].
  exfalso. eapply node_not_leaf; [|done]. unfold isTreeNode in E. by rewrite E.
Qed.

Lemma traverse_unfold n : TreeNode.traverse n = n :: descendants n.
Proof. by destruct n. Qed.

Lemma treeIds_app l1 l2 : treeIds (l1 ++ l2) = treeIds l1 ++ treeIds l2.
Proof. unfold treeIds. by rewrite filter_app, fmap_app. Qed.

Lemma leaves_flat l g :
  Forall (leafOk g) l → flat_map TreeNode.traverse l = l.
Proof.
  induction 1 as [|n l [Hc _] _ IH]; simpl; [done|].
  rewrite traverse_unfold. unfold descendants. rewrite Hc. simpl. by rewrite IH.
Qed.

Lemma leaves_treeIds l g : Forall (leafOk g) l → treeIds l = [].
Proof.
  induction 1 as [|n l (_ & Hl & _) _ IH]; [done|].
  unfold treeIds in *. rewrite filter_cons_False; [exact IH|].
  intros Ht. rewrite (leaf_not_tree_node n Hl) in Ht. exact Ht.
Qed.

Lemma descendants_extends p p' added g :
  extends p p' added → Forall (leafOk g) added →
  descendants p' = descendants p ++ added.
Proof.
  intros (_ & _ & Hc) Hl. unfold descendants. rewrite Hc, flat_map_app.
  by rewrite (leaves_flat added g Hl).
Qed.


(** *** The state stays in order *)

Lemma cacheLe_refl s : cacheLe s s.
Proof. by intros ??. Qed.

Lemma cacheLe_trans s1 s2 s3 : cacheLe s1 s2 → cacheLe s2 s3 → cacheLe s1 s3.
Proof. intros H12 H23 ???. by apply H23, H12. Qed.

Lemma cacheLe_same s s' : bodyCache s' = bodyCache s → cacheLe s s'.
Proof. intros E ???. by rewrite E. Qed.

Lemma localOk_mono g s s' n : cacheLe s s' → localOk g s n → localOk g s' n.
Proof.
  intros Hle [Hg Hn]. split; [done|]. destruct (isTreeNode n); [by apply Hle|done].
Qed.

Lemma Forall_localOk_mono g s s' l :
  cacheLe s s' → Forall (localOk g s) l → Forall (localOk g s') l.
Proof.
  intros Hle Hl. eapply Forall_impl; [exact Hl|]. intros n. by apply localOk_mono.
Qed.

Lemma ids_below g s x :
  stateOk g s → x ∈ Body.id <$> ((snd <$> bodyCache s) ++ worldBodies s) →
  x < nextBodyId s.
Proof.
  intros Hok (b & -> & [Hb|Hb]%elem_of_app)%list_elem_of_fmap.
  - apply list_elem_of_fmap in Hb as ([k b'] & -> & Hin). simpl.
    by apply (ok_cache g s Hok) in Hin as (_ & _ & _ & ?).
  - by apply (ok_world g s Hok) in Hb as (_ & _ & ?).
Qed.

Lemma stateOk_add_leaf g s b c d ix :
  stateOk g s → Body.id b = nextBodyId s → isLeafBody b → Body.group b = g →
  constraintOk g c →
  stateOk g (mkState d (S (nextBodyId s)) ix (bodyCache s)
               (worldBodies s ++ [b]) (worldConstraints s ++ [c])
               (nodeBodies s ++ [b])).
Proof.
  intros Hok Hid Hleaf Hg Hc.
  pose proof (ok_keys g s Hok) as Hkeys. pose proof (ok_ids g s Hok) as Hids.
  pose proof (ok_constraints g s Hok) as Hcons.
  pose proof (ok_nodeBodies g s Hok) as Hnb.
  split; simpl.
  - done.
  - intros k b' Hin. apply (ok_cache g s Hok) in Hin as (? & ? & ? & ?).
    split_and!; [done..|lia].
  - intros b' [Hin | ->%list_elem_of_singleton]%elem_of_app.
    + apply (ok_world g s Hok) in Hin as (? & ? & ?). split_and!; [done..|lia].
    + split_and!; [done..|lia].
  - rewrite app_assoc, fmap_app. apply NoDup_app. split_and!.
    + done.
    + intros x Hx ->%list_elem_of_singleton. apply (ids_below g s) in Hx; [|done].
      lia.
    + apply NoDup_singleton.
  - intros c' [Hin | ->%list_elem_of_singleton]%elem_of_app; [|done].
    by apply Hcons.
  - intros b' [Hin | ->%list_elem_of_singleton]%elem_of_app; [|done].
    by apply Hnb.
Qed.

Lemma stateOk_add_constraint g s c :
  stateOk g s → constraintOk g c →
  stateOk g (mkState (draws s) (nextBodyId s) (idxByDepth s) (bodyCache s)
               (worldBodies s) (worldConstraints s ++ [c]) (nodeBodies s)).
Proof.
  intros [] Hc. split; simpl; try done.
  intros c' [Hin | ->%list_elem_of_singleton]%elem_of_app; [|done].
  by apply ok_constraints0.
Qed.

Lemma stateOk_draw g s d :
  stateOk g s →
  stateOk g (mkState d (nextBodyId s) (idxByDepth s) (bodyCache s)
               (worldBodies s) (worldConstraints s) (nodeBodies s)).
Proof. intros []. by split. Qed.

Section Builder.

Variable h : Host.
Variable adjacency : Adjacency.
Variable depth : DepthMap.

Local Abbreviation g := (collisionGroup h).

Lemma getBody_keeps id :
  keeps g (getBody h depth id) (λ s b s',
    cacheGet (bodyCache s') id = Some b ∧ isNodeBody b ∧ Body.group b = g ∧
    ∀ k, k ∈ cacheKeys s' → k ∈ cacheKeys s ∨ k = id).
Proof.
  intros s b s' Hok. unfold getBody.
  destruct (cacheGet (bodyCache s) id) as [b0|] eqn:Hget.
  - intros [= <- <-]. split_and!; [done|apply cacheLe_refl|done| | |by left].
    + by apply cacheGet_Some_elem, (ok_cache g s Hok) in Hget as (_ & ? & _).
    + by apply cacheGet_Some_elem, (ok_cache g s Hok) in Hget as (_ & _ & ? & _).
  - unfold makeBody, Bodies_circle. simpl.
    match goal with |- context [Body.mk ?a1 ?a2 ?a3 ?a4 ?a5 ?a6 ?a7 ?a8 ?a9] =>
      set (nb := Body.mk a1 a2 a3 a4 a5 a6 a7 a8 a9) end.
    assert (Hnb_id : Body.id nb = nextBodyId s) by done.
    assert (Hnb_label : Body.label nb = id) by done.
    assert (Hnb_node : isNodeBody nb) by done.
    assert (Hnb_group : Body.group nb = g) by done.
    clearbody nb.
    rewrite cacheGet_cacheSet.
    intros [= <- <-]. simpl. rewrite (cacheSet_absent _ _ _ Hget).
    pose proof Hget as Hfresh. apply cacheGet_None in Hfresh.
    pose proof (ok_keys g s Hok) as Hkeys. pose proof (ok_ids g s Hok) as Hids.
    pose proof (ok_constraints g s Hok) as Hcons.
    pose proof (ok_nodeBodies g s Hok) as Hnb.
    split_and!.
    + split; simpl.
      * unfold cacheKeys. simpl. rewrite fmap_app. apply NoDup_app. split_and!.
        -- done.
        -- by intros x Hx ->%list_elem_of_singleton.
        -- apply NoDup_singleton.
      * intros k b' [Hin | [= -> ->]%list_elem_of_singleton]%elem_of_app.
        -- apply (ok_cache g s Hok) in Hin as (? & ? & ? & ?).
           split_and!; [done..|lia].
        -- simpl. split_and!; [done..|lia].
      * intros b' Hin. apply (ok_world g s Hok) in Hin as (? & ? & ?).
        split_and!; [done..|lia].
      * rewrite (fmap_app snd). simpl.
        assert (Hperm : ((snd <$> bodyCache s) ++ [nb]) ++ worldBodies s
                        ≡ₚ nb :: ((snd <$> bodyCache s) ++ worldBodies s))
          by (rewrite <- app_assoc; simpl; by rewrite <- Permutation_middle).
        rewrite Hperm, fmap_cons. apply NoDup_cons. split; [|done].
        intros Hx. apply (ids_below g s) in Hx; [lia|done].
      * done.
      * done.
    + intros k b' Hk. simpl. rewrite cacheGet_app. by rewrite Hk.
    + rewrite cacheGet_app, Hget. simpl. by rewrite decide_True.
    + done.
    + done.
    + unfold cacheKeys. simpl. rewrite fmap_app. simpl.
      intros k [?| ->%list_elem_of_singleton]%elem_of_app; [by left|by right].
Qed.

Lemma extends_nil p : extends p p [].
Proof. split_and!; [done..|by rewrite app_nil_r]. Qed.

Lemma extends_step p p1 p' x added :
  TreeNode.id p1 = TreeNode.id p → TreeNode.body p1 = TreeNode.body p →
  TreeNode.children p1 = TreeNode.children p ++ [x] →
  extends p1 p' added → extends p p' (x :: added).
Proof.
  intros Hi Hb Hc (Hi' & Hb' & Hc'). split_and!; [congruence..|].
  by rewrite Hc', Hc, <- app_assoc.
Qed.

(** One decoration: a fresh leaf body in the group of its parent, hung
    on a leaf spring. *)
Ltac leaf_step IH Hok Hrun Hgroup :=
  unfold bind, Math_random, Bodies_circle, addLeafToWorld in Hrun;
  simpl in Hrun;
  eapply IH in Hrun as (Hok' & Hle & Hcache & leaves & Hext & Hleaves);
  [ split_and!;
    [ exact Hok' | apply cacheLe_same; by rewrite Hcache | by rewrite Hcache
    | eexists; split;
      [ eapply extends_step; [| | |exact Hext]; done
      | apply Forall_cons; split; [|exact Hleaves];
        split_and!; [done|done|exact Hgroup] ] ]
  | exact Hgroup
  | apply stateOk_add_leaf; [exact Hok|done|done|exact Hgroup|];
    split_and!; [exact Hgroup| by intros ? [= <-] |done] ].

Lemma addLeafLoop_keeps n i parentNode childNode :
  Body.group (TreeNode.body parentNode) = g →
  keeps g (addLeafLoop h n i parentNode childNode) (λ s p' s',
    bodyCache s' = bodyCache s ∧
    ∃ leaves, extends parentNode p' leaves ∧ Forall (leafOk g) leaves).
Proof.
  revert i parentNode. induction n as [|n IH]; intros i parentNode Hgroup s p' s' Hok Hrun.
  - injection Hrun as <- <-. split_and!; [done|apply cacheLe_refl|done|].
    exists []. split; [apply extends_nil|constructor].
  - simpl in Hrun. leaf_step IH Hok Hrun Hgroup.
Qed.

Lemma addTerminalLoop_keeps numLeaves n i terminalNode :
  Body.group (TreeNode.body terminalNode) = g →
  keeps g (addTerminalLoop h numLeaves n i terminalNode) (λ s p' s',
    bodyCache s' = bodyCache s ∧
    ∃ leaves, extends terminalNode p' leaves ∧ Forall (leafOk g) leaves).
Proof.
  revert i terminalNode. induction n as [|n IH]; intros i terminalNode Hgroup s p' s' Hok Hrun.
  - injection Hrun as <- <-. split_and!; [done|apply cacheLe_refl|done|].
    exists []. split; [apply extends_nil|constructor].
  - simpl in Hrun. leaf_step IH Hok Hrun Hgroup.
Qed.

Lemma addLeafNodes_keeps parentNode childNode :
  Body.group (TreeNode.body parentNode) = g →
  keeps g (addLeafNodes h parentNode childNode) (λ s p' s',
    bodyCache s' = bodyCache s ∧
    ∃ leaves, extends parentNode p' leaves ∧ Forall (leafOk g) leaves).
Proof.
  intros Hgroup s p' s' Hok Hrun. unfold addLeafNodes, bind, Math_random in Hrun.
  eapply addLeafLoop_keeps in Hrun; [|done|by apply stateOk_draw].
  destruct Hrun as (? & ? & ? & ?). split_and!; try done.
Qed.

Lemma addTerminalLeaves_keeps terminalNode :
  Body.group (TreeNode.body terminalNode) = g →
  keeps g (addTerminalLeaves h terminalNode) (λ s p' s',
    bodyCache s' = bodyCache s ∧
    ∃ leaves, extends terminalNode p' leaves ∧ Forall (leafOk g) leaves).
Proof.
  intros Hgroup s p' s' Hok Hrun. unfold addTerminalLeaves, bind, Math_random in Hrun.
  eapply addTerminalLoop_keeps in Hrun; [|done|by apply stateOk_draw].
  destruct Hrun as (? & ? & ? & ?). split_and!; try done.
Qed.

Lemma maybe_leaves_keeps (b : bool) (m : M TreeNode.t) node :
  keeps g m (λ s p' s',
    bodyCache s' = bodyCache s ∧
    ∃ leaves, extends node p' leaves ∧ Forall (leafOk g) leaves) →
  keeps g (if b then m else ret node) (λ s p' s',
    bodyCache s' = bodyCache s ∧
    ∃ leaves, extends node p' leaves ∧ Forall (leafOk g) leaves).
Proof.
  intros Hm. destruct b; [done|]. intros s p' s' Hok [= <- <-].
  split_and!; [done|apply cacheLe_refl|done|].
  exists []. split; [apply extends_nil|constructor].
Qed.

Lemma treeIds_cons_tree n l :
  isTreeNode n → treeIds (n :: l) = TreeNode.id n :: treeIds l.
Proof. intros Hn. unfold treeIds. by rewrite filter_cons_True. Qed.

Lemma leafOk_localOk s l : leafOk g l → localOk g s l.
Proof.
  intros (Hc & Hl & Hg). split; [done|]. by rewrite leaf_not_tree_node.
Qed.

Lemma descendants_addChild node child opt isLeaf :
  descendants (TreeNode.addChild node child opt isLeaf).1
  = descendants node ++ TreeNode.traverse child.
Proof.
  unfold descendants. simpl. rewrite flat_map_app. simpl. by rewrite app_nil_r.
Qed.

(** What a call of [buildRec] guarantees. *)
Local Abbreviation recPost wrec id := (λ (s : State) (c : TreeNode.t) (s' : State),
  nodeOk g s' c ∧ isTreeNode c ∧ TreeNode.id c = id ∧
  newKeysIn s s' (TreeNode.traverse c) ∧
  wrec = Some (treeIds (TreeNode.traverse c))).

Lemma buildChildren_spec rec wrec id :
  (∀ cid, keeps g (rec cid) (recPost (wrec cid) cid)) →
  ∀ cs node s node' s',
    Body.group (TreeNode.body node) = g →
    stateOk g s → Forall (localOk g s) (descendants node) →
    buildChildren h depth rec id cs node s = Some (node', s') →
    stateOk g s' ∧ cacheLe s s' ∧
    TreeNode.id node' = TreeNode.id node ∧
    TreeNode.body node' = TreeNode.body node ∧
    Forall (localOk g s') (descendants node') ∧
    ∃ l, walkChildren wrec cs = Some l ∧
         treeIds (descendants node') = treeIds (descendants node) ++ l ∧
         ∀ k, k ∈ cacheKeys s' → k ∈ cacheKeys s ∨ k ∈ l.
Proof.
  intros Hrec. induction cs as [|cid cs IH]; intros node s node' s' Hgroup Hok Hdesc Hrun.
  - injection Hrun as <- <-. split_and!; [done|apply cacheLe_refl|done..|].
    exists []. split_and!; [done|by rewrite app_nil_r|by left].
  - cbn [buildChildren] in Hrun. inv_bind Hrun. rename a into child, s0 into s1.
    apply Hrec in Hstep as (Hok1 & Hle1 & Hchild & Htree & Hid & Hnew & Hw); [|done].
    set (node1 := (TreeNode.addChild node child CFG.spring false).1) in *.
    set (cons := (TreeNode.addChild node child CFG.spring false).2) in *.
    assert (Hgroup1 : Body.group (TreeNode.body node1) = g) by done.
    unfold bind at 1 in Hrun. unfold World_add_constraint in Hrun.
    cbv beta iota in Hrun.
    inv_bind Hrun. rename a into node2, s0 into s2.
    assert (Hchild_head : localOk g s1 child).
    { unfold nodeOk in Hchild. rewrite traverse_unfold in Hchild.
      by apply Forall_cons in Hchild as [? _]. }
    apply (maybe_leaves_keeps _ _ _
             (addLeafNodes_keeps node1 child Hgroup1)) in Hstep
      as (Hok2 & Hle2 & Hcache2 & leaves & Hext & Hleaves).
    2:{ apply stateOk_add_constraint; [done|]. split_and!; simpl.
        - apply Hchild_head.
        - by intros ? [= <-].
        - intros Hl. exfalso. eapply node_not_leaf; [exact Htree|exact Hl]. }
    simpl in Hcache2.
    assert (Hle02 : cacheLe s s2).
    { eapply cacheLe_trans; [exact Hle1|]. by apply cacheLe_same. }
    assert (Hle12 : cacheLe s1 s2) by by apply cacheLe_same.
    assert (Hdesc2 : descendants node2
                     = (descendants node ++ TreeNode.traverse child) ++ leaves).
    { rewrite (descendants_extends _ _ _ _ Hext Hleaves).
      unfold node1. by rewrite descendants_addChild. }
    apply IH in Hrun as (Hok' & Hle' & Hid' & Hbody' & Hdesc' & l' & Hwalk & Hids & Hkeys).
    + destruct Hext as (Hid2 & Hbody2 & _). simpl in Hid2, Hbody2.
      split_and!; [done|by eapply cacheLe_trans|congruence|congruence|done|].
      exists (treeIds (TreeNode.traverse child) ++ l'). split_and!.
      * simpl. by rewrite Hw, Hwalk.
      * rewrite Hids, Hdesc2, !treeIds_app, (leaves_treeIds _ _ Hleaves).
        by rewrite app_nil_r, <- app_assoc.
      * intros k Hk. apply Hkeys in Hk as [Hk|Hk].
        -- unfold cacheKeys in Hk. rewrite Hcache2 in Hk.
           apply Hnew in Hk as [Hk|Hk]; [by left|].
           right. apply elem_of_app. by left.
        -- right. apply elem_of_app. by right.
    + destruct Hext as (_ & Hbody2 & _). by rewrite Hbody2.
    + done.
    + rewrite Hdesc2. rewrite !Forall_app. split_and!.
      * apply (Forall_localOk_mono g s s2); [exact Hle02|exact Hdesc].
      * apply (Forall_localOk_mono g s1 s2); [exact Hle12|exact Hchild].
      * eapply Forall_impl; [exact Hleaves|]. intros. by apply leafOk_localOk.
Qed.

Lemma buildRec_spec fuel id :
  keeps g (buildRec h adjacency depth fuel id)
    (recPost (walk fuel adjacency id) id).
Proof.
  revert id. induction fuel as [|fuel IH]; intros id s node s' Hok Hrun; [done|].
  simpl in Hrun. inv_bind Hrun. rename a into b, s0 into s1.
  apply getBody_keeps in Hstep as (Hok1 & Hle1 & Hget & Hnode & Hgroup & Hkeys1); [|done].
  inv_bind Hrun. rename a into node1, s0 into s2.
  eapply (buildChildren_spec _ _ _ IH) in Hstep
    as (Hok2 & Hle2 & Hid2 & Hbody2 & Hdesc2 & l & Hwalk & Hids & Hkeys2);
    [|done|done|constructor].
  simpl in Hid2, Hbody2, Hids.
  assert (Hgroup1 : Body.group (TreeNode.body node1) = g) by by rewrite Hbody2.
  apply (maybe_leaves_keeps _ _ _ (addTerminalLeaves_keeps _ Hgroup1)) in Hrun
    as (Hok' & Hle' & Hcache' & leaves & Hext & Hleaves); [|done].
  assert (Hdesc' : descendants node = descendants node1 ++ leaves)
    by by eapply descendants_extends.
  destruct Hext as (Hid' & Hbody' & _).
  assert (Htree : isTreeNode node).
  { unfold isTreeNode. by rewrite Hbody', Hbody2. }
  assert (Hl : treeIds (TreeNode.traverse node) = id :: l).
  { rewrite traverse_unfold, treeIds_cons_tree by done.
    rewrite Hdesc', treeIds_app, (leaves_treeIds _ _ Hleaves), Hids.
    rewrite app_nil_r. f_equal. congruence. }
  split_and!;
    [done|exact (cacheLe_trans _ _ _ Hle1 (cacheLe_trans _ _ _ Hle2 Hle'))| | | | |].
  - unfold nodeOk. rewrite traverse_unfold. apply Forall_cons. split.
    + split; [by rewrite Hbody'|]. destruct (isTreeNode node); [|done].
      rewrite Hid', Hid2, Hbody', Hbody2. by apply Hle', Hle2.
    + rewrite Hdesc', Forall_app. split.
      * apply (Forall_localOk_mono g s2 s'); [exact Hle'|exact Hdesc2].
      * eapply Forall_impl; [exact Hleaves|]. intros. by apply leafOk_localOk.
  - done.
  - congruence.
  - intros k Hk. rewrite Hl. unfold cacheKeys in Hk. rewrite Hcache' in Hk.
    apply Hkeys2 in Hk as [Hk|Hk].
    + apply Hkeys1 in Hk as [Hk| ->]; [by left|]. right. by left.
    + right. by right.
  - rewrite Hl. simpl. by rewrite Hwalk.
Qed.

(** *** Only the depth of the recursion can stop the builder *)

Lemma addLeafLoop_total n i parentNode childNode s :
  is_Some (addLeafLoop h n i parentNode childNode s).
Proof.
  revert i parentNode s. induction n as [|n IH]; intros i parentNode s; simpl.
  - by eexists.
  - unfold bind, Math_random, Bodies_circle, addLeafToWorld. simpl. apply IH.
Qed.

Lemma addTerminalLoop_total numLeaves n i terminalNode s :
  is_Some (addTerminalLoop h numLeaves n i terminalNode s).
Proof.
  revert i terminalNode s. induction n as [|n IH]; intros i terminalNode s; simpl.
  - by eexists.
  - unfold bind, Math_random, Bodies_circle, addLeafToWorld. simpl. apply IH.
Qed.

Lemma getBody_total id s : is_Some (getBody h depth id s).
Proof.
  unfold getBody. destruct (cacheGet (bodyCache s) id); [by eexists|].
  unfold makeBody, Bodies_circle. simpl. rewrite cacheGet_cacheSet. by eexists.
Qed.

Lemma buildChildren_total rec id cs node s :
  (∀ cid s1, cid ∈ cs → is_Some (rec cid s1)) →
  is_Some (buildChildren h depth rec id cs node s).
Proof.
  revert node s. induction cs as [|cid cs IH]; intros node s Hrec.
  - by eexists.
  - cbn [buildChildren]. unfold bind at 1.
    destruct (Hrec cid s) as [[child s1] ->]; [by left|].
    unfold bind at 1. unfold World_add_constraint. cbv beta iota.
    unfold bind at 1.
    match goal with |- is_Some (match ?m ?st with _ => _ end) =>
      assert (is_Some (m st)) as [[node2 s2] ->]
    end.
    { destruct (aboveRoot depth id); [|by eexists].
      unfold addLeafNodes, bind, Math_random. apply addLeafLoop_total. }
    apply IH. intros; apply Hrec. by right.
Qed.

Lemma walkChildren_Some wrec cs l c :
  walkChildren wrec cs = Some l → c ∈ cs → is_Some (wrec c).
Proof.
  revert l. induction cs as [|c0 cs IH]; intros l; simpl.
  - intros _ Hc. by apply elem_of_nil in Hc.
  - destruct (wrec c0) eqn:E0; [|done].
    destruct (walkChildren wrec cs); [|done].
    intros _ [->|Hc]%elem_of_cons; [by eexists|by eapply IH].
Qed.

Lemma buildRec_total fuel id s :
  is_Some (walk fuel adjacency id) →
  is_Some (buildRec h adjacency depth fuel id s).
Proof.
  revert id s. induction fuel as [|fuel IH]; intros id s [l Hw]; [done|].
  simpl in Hw. destruct (walkChildren _ _) as [ls|] eqn:Hcs; [|done].
  cbn [buildRec]. unfold bind at 1.
  destruct (getBody_total id s) as [[b s1] ->].
  unfold bind at 1.
  destruct (buildChildren_total (buildRec h adjacency depth fuel) id
              (childrenOf adjacency id) (TreeNode.new id b) s1) as [[node' s2] ->].
  { intros cid s' Hc. apply IH. by eapply walkChildren_Some. }
  destruct (_ && _); [|by eexists].
  unfold addTerminalLeaves, bind, Math_random. apply addTerminalLoop_total.
Qed.

(** *** What [buildWith] returns *)

Lemma stateOk_start : stateOk g startState.
Proof.
  split; simpl.
  - constructor.
  - intros ?? Hin. by apply elem_of_nil in Hin.
  - intros ? Hin. by apply elem_of_nil in Hin.
  - constructor.
  - intros ? Hin. by apply elem_of_nil in Hin.
  - intros ? Hin. by apply elem_of_nil in Hin.
Qed.

Lemma buildWith_Some fuel rootId scene :
  buildWith h adjacency depth fuel rootId = Some scene →
  ∃ root s,
    buildRec h adjacency depth fuel rootId startState = Some (root, s) ∧
    stateOk g s ∧ nodeOk g s root ∧ isTreeNode root ∧
    newKeysIn startState s (TreeNode.traverse root) ∧
    walk fuel adjacency rootId = Some (treeIds (TreeNode.traverse root)) ∧
    Scene.root scene = root ∧
    Scene.nodes scene = TreeNode.traverse root ∧
    Scene.nodeBodies scene = TreeNode.body <$> TreeNode.traverse root ∧
    Scene.worldBodies scene = worldBodies s ++ (snd <$> bodyCache s) ∧
    Scene.worldConstraints scene = worldConstraints s ++ [Scene.rootPin scene] ∧
    Constraint.bodyB (Scene.rootPin scene) = TreeNode.body root ∧
    Constraint.bodyA (Scene.rootPin scene) = None.
Proof.
  unfold buildWith.
  destruct (buildRec h adjacency depth fuel rootId startState) as [[root s]|] eqn:Hrun;
    [|done].
  intros [= <-]. exists root, s.
  apply buildRec_spec in Hrun as (Hok & _ & Hnode & Htree & _ & Hnew & Hw);
    [|apply stateOk_start].
  by split_and!.
Qed.

End Builder.

Lemma buildTree_Some h fuel adjacency rootId scene :
  buildTree h fuel adjacency rootId = Some scene →
  ∃ depth shifted,
    computeDepth (bfsFuel adjacency rootId) adjacency rootId = Some (depth, shifted) ∧
    buildWith h adjacency depth fuel rootId = Some scene.
Proof.
  unfold buildTree.
  destruct (computeDepth _ _ _) as [[depth shifted]|]; [|done]. by exists depth, shifted.
Qed.

Lemma collisionGroup_negative h :
  (nextGroup h < 0)%Z → (collisionGroup h < 0)%Z.
Proof.
  unfold collisionGroup. intros Hn. destruct (circleGroup h =? 0)%Z eqn:E; lia.
Qed.

Lemma scene_world_bodies h adjacency depth fuel rootId scene b :
  buildWith h adjacency depth fuel rootId = Some scene →
  b ∈ Scene.worldBodies scene →
  Body.group b = collisionGroup h ∧
  (isLeafBody b ∨ isNodeBody b ∧
     ∃ n, n ∈ Scene.nodes scene ∧ isTreeNode n ∧ TreeNode.body n = b ∧
          TreeNode.id n = Body.label b).
Proof.
  intros (root & s & _ & Hok & Hnode & _ & Hnew & _ & _ & Hnodes & _ & Hwb & _)%buildWith_Some.
  rewrite Hwb, Hnodes. intros [Hb|Hb]%elem_of_app.
  - apply (ok_world _ _ Hok) in Hb as (? & ? & _). split; [done|by left].
  - apply list_elem_of_fmap in Hb as ([k b'] & -> & Hin). simpl.
    pose proof Hin as Hget. apply cacheGet_elem in Hget; [|apply (ok_keys _ _ Hok)].
    destruct (ok_cache _ _ Hok _ _ Hin) as (Hl & Hn & Hg & _).
    split; [done|]. right. split; [done|].
    destruct (Hnew k) as [Hk|Hk].
    { unfold cacheKeys. apply list_elem_of_fmap. by exists (k, b'). }
    { by apply elem_of_nil in Hk. }
    apply list_elem_of_fmap in Hk as (n & -> & [Htree Hn']%list_elem_of_filter).
    exists n. split_and!; [done..| |by rewrite Hl].
    unfold nodeOk in Hnode. rewrite Forall_forall in Hnode.
    destruct (Hnode n Hn') as [_ Hloc]. destruct (isTreeNode n); [|done]. congruence.
Qed.

Lemma scene_nodes h adjacency depth fuel rootId scene n :
  buildWith h adjacency depth fuel rootId = Some scene →
  n ∈ Scene.nodes scene →
  Body.group (TreeNode.body n) = collisionGroup h ∧
  (isTreeNode n →
     TreeNode.body n ∈ Scene.worldBodies scene ∧
     Body.label (TreeNode.body n) = TreeNode.id n ∧
     ∀ n', n' ∈ Scene.nodes scene → isTreeNode n' →
           TreeNode.id n' = TreeNode.id n → TreeNode.body n' = TreeNode.body n).
Proof.
  intros (root & s & _ & Hok & Hnode & _ & _ & _ & _ & Hnodes & _ & Hwb & _)%buildWith_Some.
  rewrite Hwb, Hnodes. intros Hn.
  unfold nodeOk in Hnode. rewrite Forall_forall in Hnode.
  destruct (Hnode n Hn) as [Hg Hloc]. split; [done|]. intros Htree.
  destruct (isTreeNode n); [|done].
  pose proof (cacheGet_Some_elem _ _ _ Hloc) as Hin. split_and!.
  - apply elem_of_app. right. apply list_elem_of_fmap. by eexists (_, _).
  - by apply (ok_cache _ _ Hok) in Hin as (? & _).
  - intros n' Hn' Htree' Hid. destruct (Hnode n' Hn') as [_ Hloc'].
    destruct (isTreeNode n'); [|done]. congruence.
Qed.

Lemma filter_none {A} (P : A → Prop) `{∀ x, Decision (P x)} (l : list A) :
  (∀ x, x ∈ l → ¬ P x) → filter P l = [].
Proof.
  induction l as [|x l IH]; intros Hl; [done|].
  rewrite filter_cons_False by (apply Hl; by left).
  apply IH. intros; apply Hl. by right.
Qed.

Lemma filter_all {A} (P : A → Prop) `{∀ x, Decision (P x)} (l : list A) :
  (∀ x, x ∈ l → P x) → filter P l = l.
Proof.
  induction l as [|x l IH]; intros Hl; [done|].
  rewrite filter_cons_True by (apply Hl; by left).
  f_equal. apply IH. intros; apply Hl. by right.
Qed.

(** The node bodies in the world are the values of the cache. *)
Lemma world_node_bodies g s :
  stateOk g s →
  filter (λ b, isNodeBody b) (worldBodies s ++ (snd <$> bodyCache s))
  = snd <$> bodyCache s.
Proof.
  intros Hok. rewrite filter_app, filter_none, filter_all; [done| |].
  - intros b ([k b'] & -> & Hin)%list_elem_of_fmap.
    by apply (ok_cache _ _ Hok) in Hin as (_ & ? & _).
  - intros b Hb Hn. apply (ok_world _ _ Hok) in Hb as (Hl & _).
    by eapply node_not_leaf.
Qed.

Lemma cache_labels g s :
  stateOk g s → Body.label <$> (snd <$> bodyCache s) = cacheKeys s.
Proof.
  intros Hok. unfold cacheKeys. rewrite <- list_fmap_compose.
  apply list_fmap_ext. intros i [k b] Hi. simpl.
  apply list_elem_of_lookup_2 in Hi.
  by apply (ok_cache _ _ Hok) in Hi as (? & _).
Qed.

Lemma getBody_again h depth id s b s1 s2 :
  getBody h depth id s = Some (b, s1) → cacheLe s1 s2 →
  getBody h depth id s2 = Some (b, s2).
Proof.
  intros Hrun Hle.
  assert (Hget : cacheGet (bodyCache s1) id = Some b).
  { unfold getBody in Hrun.
    destruct (cacheGet (bodyCache s) id) as [b0|] eqn:E.
    - by injection Hrun as <- <-.
    - unfold makeBody, Bodies_circle in Hrun. simpl in Hrun.
      rewrite cacheGet_cacheSet in Hrun. injection Hrun as <- <-. simpl.
      apply cacheGet_cacheSet. }
  unfold getBody. by rewrite (Hle _ _ Hget).
Qed.

End BuildFacts.

(** * The claims about the builder *)

Import Bfs TreePhysics BuildInv.

(** C9. Every body that [buildTree] creates, the bodies of the tree
    nodes and the leaf bodies of both kinds, carries the group computed
    once at its start; the engine's [Body.nextGroup(true)] returning a
    negative id, that group is negative, so no two of these bodies can
    collide. *)
Theorem buildTree_one_negative_group h fuel adjacency rootId scene :
  (nextGroup h < 0)%Z →
  buildTree h fuel adjacency rootId = Some scene →
  (collisionGroup h < 0)%Z ∧
  (∀ b, b ∈ Scene.worldBodies scene → Body.group b = collisionGroup h) ∧
  (∀ n, n ∈ Scene.nodes scene → Body.group (TreeNode.body n) = collisionGroup h) ∧
  (∀ b, b ∈ Scene.nodeBodies scene → Body.group b = collisionGroup h) ∧
  (∀ a b, a ∈ Scene.worldBodies scene → b ∈ Scene.worldBodies scene →
          canCollide a b = false).
Proof.
  intros Hneg (depth & shifted & _ & Hbuild)%BuildFacts.buildTree_Some.
  pose proof (BuildFacts.collisionGroup_negative h Hneg) as Hg.
  assert (Hworld : ∀ b, b ∈ Scene.worldBodies scene → Body.group b = collisionGroup h).
  { intros b Hb. by eapply BuildFacts.scene_world_bodies. }
  assert (Hnodes : ∀ n, n ∈ Scene.nodes scene →
                        Body.group (TreeNode.body n) = collisionGroup h).
  { intros n Hn. by eapply BuildFacts.scene_nodes. }
  split_and!; [done..| |].
  - intros b Hb.
    destruct (BuildFacts.buildWith_Some _ _ _ _ _ _ Hbuild)
      as (root & s & _ & _ & _ & _ & _ & _ & _ & Hn & Hnb & _).
    rewrite Hnb in Hb. apply list_elem_of_fmap in Hb as (n & -> & Hin).
    apply Hnodes. by rewrite Hn.
  - intros a b Ha Hb. unfold canCollide. rewrite (Hworld a Ha), (Hworld b Hb).
    rewrite Z.eqb_refl. simpl.
    destruct (collisionGroup h =? 0)%Z eqn:E; simpl; lia.
Qed.

Lemma buildTree_one_negative_group_witness :
  ∃ scene,
    MakeTree.makeTree MakeTree.sampleHost 6 = Some scene ∧
    ∀ b, b ∈ Scene.worldBodies scene →
         Body.group b = collisionGroup MakeTree.sampleHost.
Proof.
  eexists. split; [vm_compute; reflexivity|].
  refine (proj1 (proj2 (buildTree_one_negative_group MakeTree.sampleHost 6
                          MakeTree.adjacency "root" _ _ _))).
  - reflexivity.
  - vm_compute; reflexivity.
Defined.

(** C6. The twig spring (20, 0.015) and the leaf spring (15, 0.01) are
    shorter and less stiff than the main spring (80, 0.03), and every
    constraint that [buildTree] hangs a decorative body on has one of
    the two decorative configurations (the leaf spring, in fact). *)
Theorem decorative_springs_are_weaker h fuel adjacency rootId scene :
  buildTree h fuel adjacency rootId = Some scene →
  ((CFG.length CFG.twigSpring == 20 ∧ CFG.stiffness CFG.twigSpring == 0.015) ∧
   (CFG.length CFG.leafSpring == 15 ∧ CFG.stiffness CFG.leafSpring == 0.01) ∧
   (CFG.length CFG.spring == 80 ∧ CFG.stiffness CFG.spring == 0.03))%Q ∧
  (CFG.length CFG.twigSpring < CFG.length CFG.spring ∧
   CFG.stiffness CFG.twigSpring < CFG.stiffness CFG.spring ∧
   CFG.length CFG.leafSpring < CFG.length CFG.spring ∧
   CFG.stiffness CFG.leafSpring < CFG.stiffness CFG.spring)%Q ∧
  ∀ c, c ∈ Scene.worldConstraints scene → isLeafBody (Constraint.bodyB c) →
       springOf c = CFG.leafSpring ∧
       (springOf c = CFG.twigSpring ∨ springOf c = CFG.leafSpring).
Proof.
  intros (depth & shifted & _ & Hbuild)%BuildFacts.buildTree_Some.
  split; [by repeat split|]. split; [by repeat split|].
  destruct (BuildFacts.buildWith_Some _ _ _ _ _ _ Hbuild)
    as (root & s & _ & Hok & _ & Htree & _ & _ & _ & _ & _ & _ & Hwc & HpinB & _).
  intros c Hc Hleaf. rewrite Hwc in Hc.
  apply elem_of_app in Hc as [Hc | ->%list_elem_of_singleton].
  - apply (ok_constraints _ _ Hok) in Hc as (_ & _ & Hspring).
    split; [|right]; by apply Hspring.
  - exfalso. rewrite HpinB in Hleaf. eapply BuildFacts.node_not_leaf; [exact Htree|done].
Qed.

Lemma decorative_springs_are_weaker_witness :
  ∃ scene,
    MakeTree.makeTree MakeTree.sampleHost 6 = Some scene ∧
    ∀ c, c ∈ Scene.worldConstraints scene → isLeafBody (Constraint.bodyB c) →
         springOf c = CFG.leafSpring ∧
         (springOf c = CFG.twigSpring ∨ springOf c = CFG.leafSpring).
Proof.
  eexists. split; [vm_compute; reflexivity|].
  refine (proj2 (proj2 (decorative_springs_are_weaker MakeTree.sampleHost 6
                          MakeTree.adjacency "root" _ _))).
  vm_compute; reflexivity.
Defined.

(** * The walk of the builder over a tree *)

Module TreeFacts.
Import Bfs TreePhysics BuildInv.

Section Paths.
Variable adjacency : Adjacency.

Lemma path_trans u v w n m :
  path adjacency u v n → path adjacency v w m → path adjacency u w (n + m).
Proof.
  intros Huv. induction 1 as [|x y m Hvx IH Hy].
  - by rewrite Nat.add_0_r.
  - rewrite Nat.add_succ_r. by eapply path_snoc.
Qed.

Lemma path_cons u c w n :
  c ∈ childrenOf adjacency u → path adjacency c w n → path adjacency u w (S n).
Proof.
  intros Hc Hp. change (S n) with (1 + n).
  eapply path_trans; [|exact Hp]. eapply path_snoc; [constructor|done].
Qed.

Lemma path_zero u w : path adjacency u w 0 → w = u.
Proof. by inversion 1. Qed.

Lemma path_unsnoc u w n :
  path adjacency u w (S n) →
  ∃ v, path adjacency u v n ∧ w ∈ childrenOf adjacency v.
Proof. inversion 1; subst. by eexists. Qed.

Lemma path_uncons u w n :
  path adjacency u w (S n) →
  ∃ c, c ∈ childrenOf adjacency u ∧ path adjacency c w n.
Proof.
  revert w. induction n as [|n IH]; intros w (v & Hv & Hw)%path_unsnoc.
  - apply path_zero in Hv as ->. exists w. split; [done|constructor].
  - destruct (IH v Hv) as (c & Hc & Hcv). exists c. split; [done|].
    by eapply path_snoc.
Qed.

Lemma reachable_trans u v w :
  reachable adjacency u v → reachable adjacency v w → reachable adjacency u w.
Proof. intros [n Hn] [m Hm]. exists (n + m). by eapply path_trans. Qed.

Lemma reachable_child u c :
  c ∈ childrenOf adjacency u → reachable adjacency u c.
Proof. intros Hc. exists 1. eapply path_snoc; [constructor|done]. Qed.

End Paths.

Lemma maxDepth_bound (depth : DepthMap) v d :
  depth !! v = Some d → d ≤ maxDepth depth.
Proof.
  intros Hd. unfold maxDepth. apply max_list_elem_of_le.
  apply list_elem_of_fmap. exists (v, d). split; [done|].
  by apply elem_of_map_to_list.
Qed.

Section Tree.
Variable adjacency : Adjacency.
Variable rootId : string.
Variable depth : DepthMap.
Hypothesis Hfinal : loopInv adjacency rootId depth [].
Hypothesis Htree : isTree adjacency rootId.

Lemma depth_reachable v d : depth !! v = Some d → reachable adjacency rootId v.
Proof. intros Hd. exists d. by apply (inv_path _ _ _ _ Hfinal). Qed.

Lemma edge_depth p c dp :
  depth !! p = Some dp → c ∈ childrenOf adjacency p →
  depth !! c = Some (S dp).
Proof.
  intros Hp Hc.
  pose proof (inv_path _ _ _ _ Hfinal p dp Hp) as Hpath.
  destruct (BfsFacts.closed_lower_bound adjacency rootId depth c (S dp) Hfinal)
    as (dc & Hdc & Hle); [exact (path_snoc _ _ _ _ _ Hpath Hc)|].
  pose proof (inv_path _ _ _ _ Hfinal c dc Hdc) as Hpc.
  destruct dc as [|n].
  - apply path_zero in Hpc as ->. exfalso.
    eapply (tree_root _ _ Htree p); [by eapply depth_reachable|done].
  - apply path_unsnoc in Hpc as (v & Hv & Hcv).
    assert (v = p) as ->.
    { eapply (tree_parent _ _ Htree); [by eexists|by eapply depth_reachable|done..]. }
    destruct (BfsFacts.closed_lower_bound adjacency rootId depth p n Hfinal Hv)
      as (d' & Hd' & Hle').
    rewrite Hdc. f_equal. assert (d' = dp) by congruence. lia.
Qed.

Lemma path_depth a da v n :
  depth !! a = Some da → path adjacency a v n → depth !! v = Some (da + n).
Proof.
  intros Ha. induction 1 as [|v w n Hv IH Hw].
  - by rewrite Nat.add_0_r.
  - rewrite Nat.add_succ_r. by eapply edge_depth.
Qed.

Lemma same_level_ancestor a b d v n :
  depth !! a = Some d → depth !! b = Some d →
  path adjacency a v n → path adjacency b v n → a = b.
Proof.
  intros Ha Hb. revert v. induction n as [|n IH]; intros v Hav Hbv.
  - apply path_zero in Hav, Hbv. congruence.
  - apply path_unsnoc in Hav as (v1 & Hav1 & Hv1).
    apply path_unsnoc in Hbv as (v2 & Hbv2 & Hv2).
    assert (v1 = v2) as ->.
    { eapply (tree_parent _ _ Htree); [| |done..].
      - eapply depth_reachable. exact (path_depth _ _ _ _ Ha Hav1).
      - eapply depth_reachable. exact (path_depth _ _ _ _ Hb Hbv2). }
    by eapply IH.
Qed.

Lemma same_level_reach a b d v :
  depth !! a = Some d → depth !! b = Some d →
  reachable adjacency a v → reachable adjacency b v → a = b.
Proof.
  intros Ha Hb [n Hn] [m Hm].
  pose proof (path_depth _ _ _ _ Ha Hn) as H1.
  pose proof (path_depth _ _ _ _ Hb Hm) as H2.
  assert (n = m) as -> by (rewrite H1 in H2; injection H2; lia).
  by eapply same_level_ancestor.
Qed.

(** The walks of the children of one node: each without repetition,
    pairwise disjoint. *)
Lemma walkChildren_tree wrec d cs :
  NoDup cs →
  (∀ c, c ∈ cs → depth !! c = Some d ∧
     ∃ l, wrec c = Some l ∧ NoDup l ∧ ∀ v, v ∈ l ↔ reachable adjacency c v) →
  ∃ ls, walkChildren wrec cs = Some ls ∧ NoDup ls ∧
        ∀ v, v ∈ ls ↔ ∃ c, c ∈ cs ∧ reachable adjacency c v.
Proof.
  induction cs as [|c cs IH]; intros Hnd Hcs.
  - exists []. split_and!; [done|constructor|].
    intros v. split; [by intros ?%elem_of_nil|].
    by intros (c & ?%elem_of_nil & _).
  - apply NoDup_cons in Hnd as [Hc Hnd].
    destruct (Hcs c) as (Hdc & l & Hl & Hndl & Hmem); [by left|].
    destruct IH as (ls & Hls & Hndls & Hmems); [done|intros; apply Hcs; by right|].
    exists (l ++ ls). split_and!.
    + simpl. by rewrite Hl, Hls.
    + apply NoDup_app. split_and!; [done| |done].
      intros v Hv%Hmem (c' & Hc' & Hv')%Hmems.
      destruct (Hcs c') as (Hdc' & _); [by right|].
      assert (c = c') by by eapply same_level_reach. by subst.
    + intros v. rewrite elem_of_app, Hmem, Hmems. split.
      * intros [Hv | (c' & Hc' & Hv)]; [exists c; split; [by left|done]|].
        exists c'. split; [by right|done].
      * intros (c' & [->|Hc']%elem_of_cons & Hv); [by left|].
        right. by exists c'.
Qed.

Lemma walk_tree fuel id d :
  depth !! id = Some d → maxDepth depth < d + fuel →
  ∃ l, walk fuel adjacency id = Some l ∧ NoDup l ∧
       ∀ v, v ∈ l ↔ reachable adjacency id v.
Proof.
  revert id d. induction fuel as [|fuel IH]; intros id d Hd Hfuel.
  - pose proof (maxDepth_bound _ _ _ Hd). lia.
  - destruct (walkChildren_tree (walk fuel adjacency) (S d) (childrenOf adjacency id))
      as (ls & Hls & Hnd & Hmem).
    { eapply (tree_children _ _ Htree). by eapply depth_reachable. }
    { intros c Hc. pose proof (edge_depth _ _ _ Hd Hc) as Hdc. split; [done|].
      eapply IH; [done|lia]. }
    exists (id :: ls). split_and!.
    + simpl. by rewrite Hls.
    + apply NoDup_cons. split; [|done].
      intros (c & Hc & [n Hn])%Hmem.
      pose proof (edge_depth _ _ _ Hd Hc) as Hdc.
      pose proof (path_depth _ _ _ _ Hdc Hn) as Hd'.
      rewrite Hd in Hd'. injection Hd'. lia.
    + intros v. rewrite elem_of_cons, Hmem. split.
      * intros [->|(c & Hc & Hv)]; [exists 0; constructor|].
        eapply reachable_trans; [by eapply reachable_child|done].
      * intros [[|n] Hn].
        -- left. by apply path_zero in Hn.
        -- right. apply path_uncons in Hn as (c & Hc & Hn). exists c.
           split; [done|by eexists].
Qed.

End Tree.
Lemma treeIds_elem v l :
  v ∈ treeIds l ↔ ∃ n, n ∈ l ∧ isTreeNode n ∧ TreeNode.id n = v.
Proof.
  unfold treeIds. rewrite list_elem_of_fmap. split.
  - intros (n & -> & [Ht Hn]%list_elem_of_filter). by exists n.
  - intros (n & Hn & Ht & <-). exists n. split; [done|].
    by apply list_elem_of_filter.
Qed.

Lemma treeIds_once v l :
  NoDup (treeIds l) → v ∈ treeIds l →
  length (filter (λ n, isTreeNode n ∧ TreeNode.id n = v) l) = 1.
Proof.
  induction l as [|n l IH]; intros Hnd Hv; [by apply elem_of_nil in Hv|].
  destruct (isTreeNode n) eqn:Ht.
  - assert (Htn : isTreeNode n) by (by apply Is_true_true_2).
    rewrite (BuildFacts.treeIds_cons_tree n l Htn) in Hnd, Hv.
    apply NoDup_cons in Hnd as [Hnot Hnd].
    destruct (decide (TreeNode.id n = v)) as [Heq|Hne].
    + rewrite filter_cons_True by done.
      rewrite BuildFacts.filter_none; [done|].
      intros x Hx [Hxt Hxv]. apply Hnot. rewrite Heq.
      apply treeIds_elem. by exists x.
    + rewrite filter_cons_False by (intros [_ ?]; done).
      apply IH; [done|]. by apply elem_of_cons in Hv as [?|?].
  - assert (Hsame : treeIds (n :: l) = treeIds l).
    { unfold treeIds. rewrite filter_cons_False; [done|].
      intros ?%Is_true_true_1. congruence. }
    rewrite Hsame in Hnd, Hv.
    rewrite filter_cons_False by (intros [?%Is_true_true_1 _]; congruence).
    by apply IH.
Qed.

(** *** A test for trees *)

Lemma concat_NoDup_part {A} (ls : list (list A)) l :
  NoDup (concat ls) → l ∈ ls → NoDup l.
Proof.
  induction ls as [|l0 ls IH]; simpl; [by intros _ ?%elem_of_nil|].
  intros (H0 & _ & Hls)%NoDup_app [->|Hl]%elem_of_cons; [done|by apply IH].
Qed.

Lemma concat_NoDup_owner (l : list (string * list string)) p1 cs1 p2 cs2 c :
  NoDup (concat (snd <$> l)) →
  (p1, cs1) ∈ l → (p2, cs2) ∈ l → c ∈ cs1 → c ∈ cs2 → p1 = p2.
Proof.
  induction l as [|[p cs] l IH]; simpl; [by intros _ ?%elem_of_nil|].
  intros (_ & Hdisj & Hl)%NoDup_app H1 H2 Hc1 Hc2.
  assert (Hin : ∀ q qs, (q, qs) ∈ l → c ∈ qs → c ∈ concat (snd <$> l)).
  { intros q qs Hq Hcq. apply list_elem_of_In, in_concat. exists qs.
    split; [|by apply list_elem_of_In].
    apply list_elem_of_In, list_elem_of_fmap. by exists (q, qs). }
  apply elem_of_cons in H1 as [[= -> ->]|H1]; apply elem_of_cons in H2 as [[= -> ->]|H2].
  - done.
  - exfalso. eapply Hdisj; [exact Hc1|]. by eapply Hin.
  - exfalso. eapply Hdisj; [exact Hc2|]. by eapply Hin.
  - by eapply IH.
Qed.

Lemma childrenOf_entry (adjacency : Adjacency) p c :
  c ∈ childrenOf adjacency p →
  ∃ cs, (p, cs) ∈ map_to_list adjacency ∧ c ∈ cs.
Proof.
  unfold childrenOf. destruct (adjacency !! p) as [cs|] eqn:E; simpl.
  - intros Hc. exists cs. split; [by apply elem_of_map_to_list|done].
  - by intros ?%elem_of_nil.
Qed.

Lemma distinctChildren_isTree adjacency rootId :
  distinctChildren adjacency rootId → isTree adjacency rootId.
Proof.
  intros [Hroot Hnd]%NoDup_cons. split.
  - intros p _. unfold childrenOf.
    destruct (adjacency !! p) as [cs|] eqn:E; simpl; [|constructor].
    eapply concat_NoDup_part; [exact Hnd|].
    apply list_elem_of_fmap. exists (p, cs). split; [done|].
    by apply elem_of_map_to_list.
  - intros p _ (cs & Hp & Hc)%childrenOf_entry. apply Hroot.
    apply list_elem_of_In, in_concat. exists cs. split; [|by apply list_elem_of_In].
    apply list_elem_of_In, list_elem_of_fmap. by exists (p, cs).
  - intros p1 p2 c _ _ (cs1 & Hp1 & Hc1)%childrenOf_entry
      (cs2 & Hp2 & Hc2)%childrenOf_entry.
    by eapply concat_NoDup_owner.
Qed.

End TreeFacts.

Import Bfs TreePhysics BuildInv.

(** C2, amended. When the part of the adjacency that the root reaches
    is a tree, [buildTree] returns with a recursion depth of one more
    than the largest depth, and among the nodes of [this.nodes] that
    were built for an id (the decorative leaf nodes aside) every id
    that the root reaches occurs, and no id occurs twice. *)
Theorem buildTree_nodes_once_on_tree h adjacency rootId extra :
  isTree adjacency rootId →
  ∃ scene,
    buildTree h (treeFuel adjacency rootId + extra) adjacency rootId = Some scene ∧
    NoDup (treeIds (Scene.nodes scene)) ∧
    (∀ v, reachable adjacency rootId v ↔ v ∈ treeIds (Scene.nodes scene)) ∧
    (∀ v, reachable adjacency rootId v →
          length (filter (λ n, isTreeNode n ∧ TreeNode.id n = v)
                         (Scene.nodes scene)) = 1).
Proof.
  intros Htree. unfold buildTree, treeFuel.
  destruct (BfsFacts.computeDepth_enough adjacency rootId) as [[depth shifted] Hrun].
  rewrite Hrun.
  pose proof (BfsFacts.bfsLoop_inv adjacency rootId _ _ _ _ _ _
                (BfsFacts.loopInv_init adjacency rootId) Hrun) as Hinv.
  destruct (TreeFacts.walk_tree adjacency rootId depth Hinv Htree
              (S (maxDepth depth) + extra) rootId 0)
    as (l & Hwalk & Hnd & Hmem); [apply Hinv|lia|].
  destruct (BuildFacts.buildRec_total h adjacency depth
              (S (maxDepth depth) + extra) rootId startState) as [[root s] Hrec];
    [by eexists|].
  assert (Hbuild : is_Some (buildWith h adjacency depth
                              (S (maxDepth depth) + extra) rootId)).
  { unfold buildWith. rewrite Hrec. by eexists. }
  destruct Hbuild as [scene Hscene]. exists scene. split; [done|].
  destruct (BuildFacts.buildWith_Some _ _ _ _ _ _ Hscene)
    as (root' & s' & _ & _ & _ & _ & _ & Hw & _ & Hnodes & _).
  rewrite Hwalk in Hw. injection Hw as ->. rewrite <- Hnodes in *.
  split_and!; [done|intros v; by rewrite Hmem|].
  intros v Hv%Hmem. by apply TreeFacts.treeIds_once.
Qed.

Lemma buildTree_nodes_once_on_tree_witness :
  isTree MakeTree.adjacency "root" ∧
  ∃ scene,
    MakeTree.makeTree MakeTree.sampleHost 6 = Some scene ∧
    NoDup (treeIds (Scene.nodes scene)).
Proof.
  assert (Htree : isTree MakeTree.adjacency "root").
  { apply TreeFacts.distinctChildren_isTree.
    unfold distinctChildren. apply (bool_decide_unpack _). vm_compute. exact I. }
  split; [exact Htree|].
  destruct (buildTree_nodes_once_on_tree MakeTree.sampleHost MakeTree.adjacency
              "root" 0 Htree) as (scene & Hscene & Hnd & _).
  exists scene. split; [exact Hscene|exact Hnd].
Defined.

(** C2 as stated fails: in an adjacency where "C" has the two parents
    "A" and "B", [buildRec] builds a node for "C" under each of them,
    and [this.nodes] holds both. *)
Lemma buildTree_diamond_node_twice :
  ∃ scene,
    buildTree MakeTree.sampleHost 3 MakeTree.diamond "root" = Some scene ∧
    reachable MakeTree.diamond "root" "C" ∧
    length (filter (λ n, TreeNode.id n = "C") (Scene.nodes scene)) = 2.
Proof.
  eexists. split; [vm_compute; reflexivity|]. split.
  - exists 2. eapply (path_snoc _ _ "A"); [eapply (path_snoc _ _ "root"); [constructor|]|];
      apply (bool_decide_unpack _); vm_compute; exact I.
  - vm_compute. reflexivity.
Qed.

(** The decorations share the node list with the nodes of the
    adjacency, and their ids are made up from the id of their parent:
    on a tree that uses such an id for a node of its own, the id occurs
    twice in [this.nodes], once among the nodes built for an id. *)
Lemma buildTree_decoration_id_clash :
  isTree MakeTree.leafNamed "root" ∧
  ∃ scene,
    buildTree MakeTree.sampleHost 3 MakeTree.leafNamed "root" = Some scene ∧
    length (filter (λ n, TreeNode.id n = "leaf_A_0") (Scene.nodes scene)) = 2 ∧
    length (filter (λ n, isTreeNode n ∧ TreeNode.id n = "leaf_A_0")
                   (Scene.nodes scene)) = 1.
Proof.
  split.
  - apply TreeFacts.distinctChildren_isTree.
    unfold distinctChildren. apply (bool_decide_unpack _). vm_compute. exact I.
  - eexists. split; [vm_compute; reflexivity|]. split; vm_compute; reflexivity.
Qed.

(** * What the builder does with the depth map *)

Module DepthFacts.
Import Bfs TreePhysics BuildInv.

Lemma node_eq_inv n1 n2 :
  Erase.node n1 = Erase.node n2 →
  TreeNode.id n1 = TreeNode.id n2 ∧
  Erase.body (TreeNode.body n1) = Erase.body (TreeNode.body n2) ∧
  Erase.node <$> TreeNode.children n1 = Erase.node <$> TreeNode.children n2 ∧
  Erase.constraint <$> TreeNode.edges n1 = Erase.constraint <$> TreeNode.edges n2.
Proof.
  destruct n1, n2.
  cbn [Erase.node TreeNode.id TreeNode.body TreeNode.children TreeNode.edges].
  intros [=]. split_and!; try done. unfold Erase.body. congruence.
Qed.

Lemma body_eq_group b1 b2 :
  Erase.body b1 = Erase.body b2 → Body.group b1 = Body.group b2.
Proof. destruct b1, b2. unfold Erase.body. simpl. by intros [= _ _ _ _ _ _ _ ->]. Qed.

Lemma node_addChild n1 n2 c1 c2 opt isLeaf :
  Erase.node n1 = Erase.node n2 → Erase.node c1 = Erase.node c2 →
  Erase.node (TreeNode.addChild n1 c1 opt isLeaf).1
  = Erase.node (TreeNode.addChild n2 c2 opt isLeaf).1 ∧
  Erase.constraint (TreeNode.addChild n1 c1 opt isLeaf).2
  = Erase.constraint (TreeNode.addChild n2 c2 opt isLeaf).2.
Proof.
  intros (Hid & Hb & Hcs & Hes)%node_eq_inv Hc.
  pose proof Hc as (_ & Hcb & _)%node_eq_inv.
  assert (Hcons : Erase.constraint (TreeNode.addChild n1 c1 opt isLeaf).2
                  = Erase.constraint (TreeNode.addChild n2 c2 opt isLeaf).2).
  { unfold Erase.constraint. simpl. by rewrite Hb, Hcb. }
  split; [|done]. unfold TreeNode.addChild in *.
  cbn [fst snd Erase.node TreeNode.id TreeNode.body TreeNode.children TreeNode.edges] in *.
  rewrite !fmap_app. cbn [fmap list_fmap].
  by rewrite Hid, Hb, Hcs, Hes, Hc, Hcons.
Qed.

Lemma cacheGet_erase c id :
  cacheGet (Erase.cache c) id = Erase.body <$> cacheGet c id.
Proof.
  induction c as [|[k b] c IH]; simpl; [done|]. by case_decide.
Qed.

Lemma cacheSet_erase c id b :
  Erase.cache (cacheSet c id b) = cacheSet (Erase.cache c) id (Erase.body b).
Proof.
  induction c as [|[k b0] c IH]; simpl; [done|].
  case_decide; simpl; [done|]. by rewrite <- IH.
Qed.

Section TwoDepths.

Variable h : Host.
Variable adjacency : Adjacency.
Variables depth1 depth2 : DepthMap.
Hypothesis Habove : ∀ id, aboveRoot depth1 id = aboveRoot depth2 id.

Lemma getBody_same id s1 s2 :
  Erase.sameState s1 s2 →
  match getBody h depth1 id s1, getBody h depth2 id s2 with
  | Some (b1, s1'), Some (b2, s2') =>
      Erase.body b1 = Erase.body b2 ∧ Erase.sameState s1' s2'
  | _, _ => False
  end.
Proof.
  intros Hs. pose proof Hs as [Hd Hn Hc Hw Hk Hb]. unfold getBody.
  pose proof (cacheGet_erase (bodyCache s1) id) as H1.
  pose proof (cacheGet_erase (bodyCache s2) id) as H2.
  rewrite Hc, H2 in H1.
  destruct (cacheGet (bodyCache s1) id) as [b1|], (cacheGet (bodyCache s2) id) as [b2|];
    simpl in H1; try discriminate.
  { split; [|done]. unfold Erase.body in *. congruence. }
  unfold makeBody, Bodies_circle. simpl. rewrite !BuildFacts.cacheGet_cacheSet.
  split.
  - unfold Erase.body. simpl. by rewrite Hn.
  - split; simpl; try done; [by rewrite Hn|].
    rewrite !cacheSet_erase, Hc. unfold Erase.body. simpl. by rewrite Hn.
Qed.

(** One decoration in two runs: the leaves differ in position only. *)
Ltac same_fin Hd Hn Hw Hk Hnb Hid Hb Hg :=
  rewrite ?fmap_app; simpl;
  rewrite ?Hw, ?Hk, ?Hnb; unfold Erase.constraint; simpl; rewrite ?Hb;
  unfold Erase.body; simpl; rewrite ?Hid, ?Hg, ?Hn, ?Hd; reflexivity.

Ltac same_leaf_step IH Hp Hs :=
  let Hid := fresh "Hid" in let Hb := fresh "Hb" in
  let Hg := fresh "Hg" in
  let Hd := fresh "Hd" in let Hn := fresh "Hn" in let Hc := fresh "Hc" in
  let Hw := fresh "Hw" in let Hk := fresh "Hk" in let Hnb := fresh "Hnb" in
  pose proof Hp as (Hid & Hb & _)%node_eq_inv;
  pose proof (body_eq_group _ _ Hb) as Hg;
  destruct Hs as [Hd Hn Hc Hw Hk Hnb];
  unfold bind, Math_random, Bodies_circle, addLeafToWorld; cbv beta iota;
  apply IH;
  [ refine (proj1 (node_addChild _ _ _ _ _ _ Hp _));
    same_fin Hd Hn Hw Hk Hnb Hid Hb Hg
  | split; simpl; [by rewrite Hd | by rewrite Hn | done | ..];
    same_fin Hd Hn Hw Hk Hnb Hid Hb Hg ].

Lemma addLeafLoop_same n i p1 p2 c1 c2 s1 s2 :
  Erase.node p1 = Erase.node p2 → Erase.sameState s1 s2 →
  Erase.sameRun (addLeafLoop h n i p1 c1 s1) (addLeafLoop h n i p2 c2 s2).
Proof.
  revert i p1 p2 s1 s2. induction n as [|n IH]; intros i p1 p2 s1 s2 Hp Hs.
  - by split.
  - cbn [addLeafLoop]. same_leaf_step IH Hp Hs.
Qed.

Lemma addTerminalLoop_same numLeaves n i p1 p2 s1 s2 :
  Erase.node p1 = Erase.node p2 → Erase.sameState s1 s2 →
  Erase.sameRun (addTerminalLoop h numLeaves n i p1 s1)
                (addTerminalLoop h numLeaves n i p2 s2).
Proof.
  revert i p1 p2 s1 s2. induction n as [|n IH]; intros i p1 p2 s1 s2 Hp Hs.
  - by split.
  - cbn [addTerminalLoop]. same_leaf_step IH Hp Hs.
Qed.

Lemma bind_same {A} (R : A → A → Prop) (m1 m2 : M A)
    (k1 k2 : A → M TreeNode.t) s1 s2 :
  match m1 s1, m2 s2 with
  | Some (a1, t1), Some (a2, t2) => R a1 a2 ∧ Erase.sameState t1 t2
  | None, None => True
  | _, _ => False
  end →
  (∀ a1 a2 t1 t2, R a1 a2 → Erase.sameState t1 t2 →
                  Erase.sameRun (k1 a1 t1) (k2 a2 t2)) →
  Erase.sameRun (bind m1 k1 s1) (bind m2 k2 s2).
Proof.
  intros Hm Hk. unfold bind.
  destruct (m1 s1) as [[a1 t1]|], (m2 s2) as [[a2 t2]|]; try done.
  destruct Hm. by apply Hk.
Qed.

Lemma bind_World_add_constraint {B} c (k : unit → M B) s :
  bind (World_add_constraint c) k s
  = k () (mkState (draws s) (nextBodyId s) (idxByDepth s) (bodyCache s)
            (worldBodies s) (worldConstraints s ++ [c]) (nodeBodies s)).
Proof. done. Qed.

Lemma sameState_add_constraint s1 s2 c1 c2 :
  Erase.sameState s1 s2 → Erase.constraint c1 = Erase.constraint c2 →
  Erase.sameState
    (mkState (draws s1) (nextBodyId s1) (idxByDepth s1) (bodyCache s1)
       (worldBodies s1) (worldConstraints s1 ++ [c1]) (nodeBodies s1))
    (mkState (draws s2) (nextBodyId s2) (idxByDepth s2) (bodyCache s2)
       (worldBodies s2) (worldConstraints s2 ++ [c2]) (nodeBodies s2)).
Proof.
  intros [] Hc. split; simpl; try done. rewrite !fmap_app. simpl. congruence.
Qed.

Lemma sameState_draw s1 s2 :
  Erase.sameState s1 s2 →
  Erase.sameState
    (mkState (S (draws s1)) (nextBodyId s1) (idxByDepth s1) (bodyCache s1)
       (worldBodies s1) (worldConstraints s1) (nodeBodies s1))
    (mkState (S (draws s2)) (nextBodyId s2) (idxByDepth s2) (bodyCache s2)
       (worldBodies s2) (worldConstraints s2) (nodeBodies s2)).
Proof. intros []. split; simpl; congruence. Qed.

Lemma addLeafNodes_same p1 p2 c1 c2 s1 s2 :
  Erase.node p1 = Erase.node p2 → Erase.sameState s1 s2 →
  Erase.sameRun (addLeafNodes h p1 c1 s1) (addLeafNodes h p2 c2 s2).
Proof.
  intros Hp Hs. unfold addLeafNodes, bind, Math_random.
  assert (Hr : random h (draws s1) = random h (draws s2))
    by by rewrite (Erase.same_draws _ _ Hs).
  rewrite Hr.
  apply addLeafLoop_same; [done|by apply sameState_draw].
Qed.

Lemma addTerminalLeaves_same p1 p2 s1 s2 :
  Erase.node p1 = Erase.node p2 → Erase.sameState s1 s2 →
  Erase.sameRun (addTerminalLeaves h p1 s1) (addTerminalLeaves h p2 s2).
Proof.
  intros Hp Hs. unfold addTerminalLeaves, bind, Math_random.
  assert (Hr : random h (draws s1) = random h (draws s2))
    by by rewrite (Erase.same_draws _ _ Hs).
  rewrite Hr.
  apply addTerminalLoop_same; [done|by apply sameState_draw].
Qed.

Lemma buildChildren_same rec1 rec2 id cs :
  (∀ cid s1 s2, Erase.sameState s1 s2 → Erase.sameRun (rec1 cid s1) (rec2 cid s2)) →
  ∀ n1 n2 s1 s2,
    Erase.node n1 = Erase.node n2 → Erase.sameState s1 s2 →
    Erase.sameRun (buildChildren h depth1 rec1 id cs n1 s1)
                  (buildChildren h depth2 rec2 id cs n2 s2).
Proof.
  intros Hrec. induction cs as [|cid cs IH]; intros n1 n2 s1 s2 Hn Hs.
  - by split.
  - cbn [buildChildren].
    apply (bind_same (λ a1 a2, Erase.node a1 = Erase.node a2)); [by apply Hrec|].
    intros c1 c2 t1 t2 Hc Ht. rewrite !bind_World_add_constraint.
    destruct (node_addChild n1 n2 c1 c2 CFG.spring false Hn Hc) as [Hn' Hcons].
    apply (bind_same (λ a1 a2, Erase.node a1 = Erase.node a2)).
    + rewrite Habove. destruct (aboveRoot depth2 id).
      * apply addLeafNodes_same; [done|by apply sameState_add_constraint].
      * split; [done|by apply sameState_add_constraint].
    + intros. by apply IH.
Qed.

Lemma buildRec_same fuel id s1 s2 :
  Erase.sameState s1 s2 →
  Erase.sameRun (buildRec h adjacency depth1 fuel id s1)
                (buildRec h adjacency depth2 fuel id s2).
Proof.
  revert id s1 s2. induction fuel as [|fuel IH]; intros id s1 s2 Hs; [done|].
  cbn [buildRec].
  apply (bind_same (λ b1 b2, Erase.body b1 = Erase.body b2)).
  { pose proof (getBody_same id s1 s2 Hs) as Hg.
    by destruct (getBody h depth1 id s1) as [[??]|], (getBody h depth2 id s2) as [[??]|]. }
  intros b1 b2 t1 t2 Hb Ht.
  apply (bind_same (λ a1 a2, Erase.node a1 = Erase.node a2)).
  { apply buildChildren_same; [intros; by apply IH| |done].
    unfold TreeNode.new. simpl. by rewrite Hb. }
  intros n1 n2 u1 u2 Hn Hu. rewrite Habove.
  destruct (_ && _); [by apply addTerminalLeaves_same|by split].
Qed.

End TwoDepths.

(** An induction principle that reaches the children of a node. *)
Lemma TreeNode_ind_deep (P : TreeNode.t → Prop) :
  (∀ i b cs es, Forall P cs → P (TreeNode.mk i b cs es)) → ∀ n, P n.
Proof.
  intros Hstep. fix IH 1. intros [i b cs es]. apply Hstep.
  induction cs as [|c cs IHcs]; constructor; [apply IH|apply IHcs].
Qed.

Lemma traverse_erase n :
  Erase.node <$> TreeNode.traverse n = TreeNode.traverse (Erase.node n).
Proof.
  induction n as [i b cs es IH] using TreeNode_ind_deep.
  assert (Hcs : Erase.node <$> flat_map TreeNode.traverse cs
                = flat_map TreeNode.traverse (Erase.node <$> cs)).
  { induction IH as [|c cs Hc _ IHcs]; [done|].
    cbn [flat_map fmap list_fmap]. rewrite fmap_app, Hc. f_equal. exact IHcs. }
  change (Erase.node <$> TreeNode.mk i b cs es :: flat_map TreeNode.traverse cs
          = Erase.node (TreeNode.mk i b cs es)
            :: flat_map TreeNode.traverse (Erase.node <$> cs)).
  rewrite fmap_cons. by f_equal.
Qed.

Lemma erase_scene_mk root pin nodes nb wb wc :
  Erase.scene (Scene.mk root pin nodes nb wb wc)
  = Scene.mk (Erase.node root) (Erase.constraint pin) (Erase.node <$> nodes)
      (Erase.body <$> nb) (Erase.body <$> wb) (Erase.constraint <$> wc).
Proof. done. Qed.

Lemma body_erase n :
  TreeNode.body (Erase.node n) = Erase.body (TreeNode.body n).
Proof. by destruct n. Qed.

Lemma cache_values c : snd <$> Erase.cache c = Erase.body <$> (snd <$> c).
Proof. unfold Erase.cache. rewrite <- !list_fmap_compose. by apply list_fmap_ext. Qed.

End DepthFacts.

Import Bfs TreePhysics BuildInv.

(** C3, amended. The builder reads a depth for positions and for one
    more thing, whether it is greater than zero: two depth maps that
    agree on which ids lie above the root give, from line 179 on, the
    same nodes, edges, decorations and world, up to the positions of
    the bodies. *)
Theorem depth_feeds_positions_and_root_test
    h adjacency fuel rootId (depth1 depth2 : DepthMap) :
  (∀ id, aboveRoot depth1 id = aboveRoot depth2 id) →
  Erase.scene <$> buildWith h adjacency depth1 fuel rootId
  = Erase.scene <$> buildWith h adjacency depth2 fuel rootId.
Proof.
  intros Habove. unfold buildWith.
  assert (Hstart : Erase.sameState startState startState) by by split.
  pose proof (DepthFacts.buildRec_same h adjacency depth1 depth2 Habove fuel rootId
                startState startState Hstart) as Hrun.
  destruct (buildRec h adjacency depth1 fuel rootId startState) as [[r1 s1]|],
           (buildRec h adjacency depth2 fuel rootId startState) as [[r2 s2]|];
    simpl in Hrun; try done.
  destruct Hrun as [Hr [_ _ Hc Hw Hk _]].
  pose proof Hr as (_ & Hb & _)%DepthFacts.node_eq_inv.
  assert (Hnodes : Erase.node <$> TreeNode.traverse r1
                   = Erase.node <$> TreeNode.traverse r2)
    by by rewrite !DepthFacts.traverse_erase, Hr.
  match goal with |- _ <$> Some ?a = _ <$> Some ?b =>
    change (Some (Erase.scene a) = Some (Erase.scene b)) end.
  f_equal. rewrite !DepthFacts.erase_scene_mk. f_equal.
  - done.
  - unfold Erase.constraint. simpl. by rewrite Hb.
  - done.
  - transitivity (TreeNode.body <$> (Erase.node <$> TreeNode.traverse r1)).
    + rewrite <- !list_fmap_compose. apply list_fmap_ext. intros ???. simpl.
      by rewrite DepthFacts.body_erase.
    + rewrite Hnodes, <- !list_fmap_compose. apply list_fmap_ext. intros ???.
      simpl. by rewrite DepthFacts.body_erase.
  - by rewrite !fmap_app, Hw, <- !DepthFacts.cache_values, Hc.
  - rewrite !fmap_app, Hk. f_equal. unfold Erase.constraint. simpl. by rewrite Hb.
Qed.

Lemma depth_feeds_positions_and_root_test_witness :
  (∀ id, aboveRoot MakeTree.depthBfs id = aboveRoot MakeTree.depthHigh id) ∧
  Erase.scene <$> buildWith MakeTree.sampleHost MakeTree.twoNodes
                    MakeTree.depthBfs 2 "root"
  = Erase.scene <$> buildWith MakeTree.sampleHost MakeTree.twoNodes
                      MakeTree.depthHigh 2 "root".
Proof.
  assert (Habove : ∀ id,
            aboveRoot MakeTree.depthBfs id = aboveRoot MakeTree.depthHigh id).
  { intros id. unfold aboveRoot, MakeTree.depthBfs, MakeTree.depthHigh.
    destruct (decide (id = "root")) as [->|Hr]; [done|].
    destruct (decide (id = "A")) as [->|Ha]; [done|].
    by rewrite !lookup_insert_ne, !lookup_singleton_ne. }
  split; [exact Habove|].
  exact (depth_feeds_positions_and_root_test MakeTree.sampleHost MakeTree.twoNodes
           2 "root" MakeTree.depthBfs MakeTree.depthHigh Habove).
Defined.

(** C3 as stated fails: the depth of "A" decides whether leaves are
    hung on it. With the labelling of the breadth-first loop "A" gets
    five terminal leaves; with a labelling on the same ids that gives
    it depth 0 it gets none. *)
Lemma depth_decides_decoration :
  dom MakeTree.depthBfs = dom MakeTree.depthFlat ∧
  ∃ scene1 scene2,
    buildWith MakeTree.sampleHost MakeTree.twoNodes MakeTree.depthBfs 2 "root"
      = Some scene1 ∧
    buildWith MakeTree.sampleHost MakeTree.twoNodes MakeTree.depthFlat 2 "root"
      = Some scene2 ∧
    length (Scene.nodes scene1) = 7 ∧ length (Scene.nodes scene2) = 2 ∧
    length (Scene.worldConstraints scene1) = 7 ∧
    length (Scene.worldConstraints scene2) = 2 ∧
    Erase.scene scene1 ≠ Erase.scene scene2.
Proof.
  split; [by apply (bool_decide_unpack _); vm_compute|].
  eexists _, _. split; [vm_compute; reflexivity|].
  split; [vm_compute; reflexivity|].
  split_and!; [by vm_compute..|].
  intros Heq. apply (f_equal (λ sc, length (Scene.nodes sc))) in Heq.
  vm_compute in Heq. discriminate.
Qed.

(** * The repulsion step *)

Module ForceFacts.
Import Forces ForcePairs.

Local Open Scope R_scope.

Lemma k_is_1 : k = 1.
Proof. reflexivity. Qed.
Lemma min_is_26 : min = 26.
Proof. reflexivity. Qed.
Lemma max_is_240 : max = 240.
Proof. reflexivity. Qed.

Lemma r2_nonneg A B : 0 <= r2 A B.
Proof.
  unfold r2. pose proof (Rle_0_sqr (B.1 - A.1)). pose proof (Rle_0_sqr (B.2 - A.2)).
  unfold Rsqr in *. lra.
Qed.

Lemma clamped_pos r : 0 < Rmax r min.
Proof.
  apply Rlt_le_trans with min; [rewrite min_is_26; lra|apply Rmax_r].
Qed.

Lemma repelPair_same A B :
  r2 A B = 0 → repelPair A B = {| divisors := []; force := None |}.
Proof. intros H0. unfold repelPair. by destruct (Req_dec_T (r2 A B) 0). Qed.

Lemma repelPair_far A B :
  max < sqrt (r2 A B) → repelPair A B = {| divisors := []; force := None |}.
Proof.
  intros Hfar. unfold repelPair.
  destruct (Req_dec_T (r2 A B) 0); [done|].
  by destruct (Rlt_dec max (sqrt (r2 A B))).
Qed.

Lemma repelPair_near A B :
  0 < sqrt (r2 A B) <= max →
  repelPair A B =
  {| divisors := [Rmax (sqrt (r2 A B)) min * Rmax (sqrt (r2 A B)) min;
                  sqrt (r2 A B); sqrt (r2 A B)];
     force := Some
       ((B.1 - A.1) / sqrt (r2 A B)
          * (k / (Rmax (sqrt (r2 A B)) min * Rmax (sqrt (r2 A B)) min)),
        (B.2 - A.2) / sqrt (r2 A B)
          * (k / (Rmax (sqrt (r2 A B)) min * Rmax (sqrt (r2 A B)) min))) |}.
Proof.
  intros [Hpos Hle]. unfold repelPair.
  destruct (Req_dec_T (r2 A B) 0) as [H0|_].
  - rewrite H0, sqrt_0 in Hpos. lra.
  - destruct (Rlt_dec max (sqrt (r2 A B))); [lra|done].
Qed.

Lemma divisors_nonzero A B : Forall (λ d, d ≠ 0) (divisors (repelPair A B)).
Proof.
  unfold repelPair. destruct (Req_dec_T (r2 A B) 0) as [|Hne]; [constructor|].
  destruct (Rlt_dec max (sqrt (r2 A B))); [constructor|]. simpl.
  assert (0 < sqrt (r2 A B)).
  { apply sqrt_lt_R0. pose proof (r2_nonneg A B). lra. }
  pose proof (clamped_pos (sqrt (r2 A B))).
  repeat constructor; nra.
Qed.

(** The force has the length [mag]. *)
Lemma force_norm dx dy r mag :
  0 < r → r * r = dx * dx + dy * dy → 0 <= mag →
  norm (dx / r * mag, dy / r * mag) = mag.
Proof.
  intros Hr Hr2 Hmag. unfold norm. simpl.
  replace (dx / r * mag * (dx / r * mag) + dy / r * mag * (dy / r * mag))
    with (mag * mag).
  - by apply sqrt_square.
  - transitivity ((dx * dx + dy * dy) / (r * r) * (mag * mag)).
    + rewrite <- Hr2. field. lra.
    + field. lra.
Qed.

Lemma norm_opp v : norm (- v.1, - v.2) = norm v.
Proof. unfold norm. simpl. f_equal. ring. Qed.

(** *** The calls of the two loops *)

Lemma innerLoop_elem i j A rest c :
  c ∈ innerLoop i j A rest ↔
  ∃ n B, rest !! n = Some B ∧ c ∈ pairCalls i (j + n) A B.
Proof.
  revert j. induction rest as [|B rest IH]; intros j; simpl.
  - split; [by intros ?%elem_of_nil|]. by intros (n & B & ? & _).
  - rewrite elem_of_app, IH. split.
    + intros [Hc|(n & B' & Hn & Hc)].
      * exists 0%nat, B. by rewrite Nat.add_0_r.
      * exists (S n), B'. split; [done|]. by rewrite Nat.add_succ_r.
    + intros ([|n] & B' & Hn & Hc).
      * left. simpl in Hn. injection Hn as <-. by rewrite Nat.add_0_r in Hc.
      * right. exists n, B'. split; [done|]. by rewrite Nat.add_succ_r in Hc.
Qed.

Lemma outerLoop_elem i bodies c :
  c ∈ outerLoop i bodies ↔
  ∃ a b A B, (a < b)%nat ∧ bodies !! a = Some A ∧ bodies !! b = Some B ∧
             c ∈ pairCalls (i + a) (i + b) A B.
Proof.
  revert i. induction bodies as [|A0 rest IH]; intros i; simpl.
  - split; [by intros ?%elem_of_nil|]. by intros (a & b & A & B & _ & ? & _).
  - rewrite elem_of_app, innerLoop_elem, IH. split.
    + intros [(n & B & Hn & Hc)|(a & b & A & B & Hab & Ha & Hb & Hc)].
      * exists 0%nat, (S n), A0, B. split_and!; [lia|done|done|].
        by replace (i + 0)%nat with i by lia;
           replace (i + S n)%nat with (S i + n)%nat by lia.
      * exists (S a), (S b), A, B. split_and!; [lia|done|done|].
        by replace (i + S a)%nat with (S i + a)%nat by lia;
           replace (i + S b)%nat with (S i + b)%nat by lia.
    + intros (a & b & A & B & Hab & Ha & Hb & Hc).
      destruct a as [|a]; destruct b as [|b]; try lia; simpl in Ha, Hb.
      * left. injection Ha as <-. exists b, B. split; [done|].
        by replace (i + 0)%nat with i in Hc by lia;
           replace (i + S b)%nat with (S i + b)%nat in Hc by lia.
      * right. exists a, b, A, B. split_and!; [lia|done|done|].
        by replace (i + S a)%nat with (S i + a)%nat in Hc by lia;
           replace (i + S b)%nat with (S i + b)%nat in Hc by lia.
Qed.

Lemma repulsion_elem bodies c :
  c ∈ repulsion bodies ↔
  ∃ i j A B, (i < j)%nat ∧ bodies !! i = Some A ∧ bodies !! j = Some B ∧
             c ∈ pairCalls i j A B.
Proof. unfold repulsion. by rewrite outerLoop_elem. Qed.

(** *** Each pair once *)

Lemma callsFor_lookup bodies i j A B :
  bodies !! i = Some A → bodies !! j = Some B →
  callsFor bodies (i, j) = pairCalls i j A B.
Proof. intros HA HB. unfold callsFor. simpl. by rewrite HA, HB. Qed.

Lemma innerLoop_pairs bodies i A n :
  bodies !! i = Some A →
  ∀ j, (length bodies - j = n)%nat →
    innerLoop i j A (drop j bodies)
    = flat_map (callsFor bodies) ((λ j', (i, j')) <$> seq j n).
Proof.
  intros HA. induction n as [|n IH]; intros j Hn.
  - by rewrite drop_ge by lia.
  - destruct (lookup_lt_is_Some_2 bodies j) as [B HB]; [lia|].
    rewrite (drop_S _ _ _ HB). cbn [innerLoop seq fmap list_fmap flat_map].
    rewrite (callsFor_lookup _ _ _ _ _ HA HB). f_equal. apply IH. lia.
Qed.

Lemma outerLoop_pairs bodies n :
  ∀ i, (length bodies - i = n)%nat →
    outerLoop i (drop i bodies)
    = flat_map (callsFor bodies)
        (flat_map (λ i', (λ j, (i', j)) <$> seq (S i') (length bodies - S i'))
           (seq i n)).
Proof.
  induction n as [|n IH]; intros i Hn.
  - by rewrite drop_ge by lia.
  - destruct (lookup_lt_is_Some_2 bodies i) as [A HA]; [lia|].
    rewrite (drop_S _ _ _ HA). cbn [outerLoop seq flat_map].
    rewrite flat_map_app. f_equal; [|apply IH; lia].
    by apply innerLoop_pairs.
Qed.

Lemma repulsion_pairs bodies :
  repulsion bodies = flat_map (callsFor bodies) (indexPairs (length bodies)).
Proof.
  unfold repulsion, indexPairs.
  rewrite <- (outerLoop_pairs bodies (length bodies) 0%nat) by lia. by rewrite drop_0.
Qed.

Lemma indexPairs_elem n i j :
  (i, j) ∈ indexPairs n ↔ (i < j < n)%nat.
Proof.
  unfold indexPairs. rewrite list_elem_of_In, in_flat_map. split.
  - intros (i' & Hi'%list_elem_of_In & Hj%list_elem_of_In).
    apply elem_of_seq in Hi'.
    apply list_elem_of_fmap in Hj as (j' & [= -> ->] & Hj'%elem_of_seq). lia.
  - intros Hij. exists i. split.
    + apply list_elem_of_In, elem_of_seq. lia.
    + apply list_elem_of_In, list_elem_of_fmap. exists j. split; [done|].
      apply elem_of_seq. lia.
Qed.

Lemma NoDup_flat_map {X Y} (f : X → list Y) (l : list X) :
  NoDup l → (∀ x, x ∈ l → NoDup (f x)) →
  (∀ x1 x2 y, x1 ∈ l → x2 ∈ l → y ∈ f x1 → y ∈ f x2 → x1 = x2) →
  NoDup (flat_map f l).
Proof.
  induction l as [|x l IH]; intros Hl Hf Hsep; [constructor|].
  apply NoDup_cons in Hl as [Hx Hl]. cbn [flat_map]. apply NoDup_app. split_and!.
  - apply Hf. by left.
  - intros y Hy Hy'%list_elem_of_In%in_flat_map.
    destruct Hy' as (x' & Hx'%list_elem_of_In & Hy'%list_elem_of_In).
    apply Hx. by rewrite (Hsep x x' y) by (done || by left || by right).
  - apply IH; [done|intros; apply Hf; by right|].
    intros x1 x2 y ????. apply (Hsep x1 x2 y); by (done || right).
Qed.

Lemma indexPairs_NoDup n : NoDup (indexPairs n).
Proof.
  unfold indexPairs. apply NoDup_flat_map.
  - apply NoDup_seq.
  - intros i _. apply NoDup_fmap_2; [by intros ?? [=]|apply NoDup_seq].
  - intros i1 i2 [a b] _ _ (? & [= -> ->] & _)%list_elem_of_fmap
      (? & [= -> ->] & _)%list_elem_of_fmap.
    done.
Qed.

(** *** The room for rounding *)

Lemma slack_small : 0 < slack < / 1000.
Proof.
  unfold slack. replace (10 ^ 9) with 1000000000 by (simpl; lra). lra.
Qed.

Lemma tiny_small : tiny <= 1.
Proof.
  unfold tiny. rewrite <- Rinv_1. apply Rinv_le_contravar; [lra|].
  apply Rlt_le, Rlt_pow_R1; [lra|lia].
Qed.

Lemma tiny_pos : 0 < tiny.
Proof. unfold tiny. apply Rinv_0_lt_compat, pow_lt. lra. Qed.

End ForceFacts.

Import Forces ForcePairs.

Local Open Scope R_scope.

(** C4, amended. The two loops look at each pair of list entries
    [i < j] once and at nothing else. For two bodies at a distance [r]
    between [tiny] and [max], the margin of rounding aside, the loop
    body makes two calls of [Body.applyForce]: [F] on [list[j]] and
    its exact opposite on [list[i]], of the same length, which is
    [k / max(r, min)^2] up to one part in 10^9; [F] pushes [list[j]]
    away from [list[i]], along the line through the two up to the same
    margin. At the distance [max] itself the two calls are made; for
    a distance beyond [max] by that margin, and for two bodies at the
    same point, it makes no call. *)
Theorem repulsion_inverse_square (bodies : list Vec) (i j : nat) (A B : Vec) :
  (i < j)%nat → bodies !! i = Some A → bodies !! j = Some B →
  repulsion bodies = flat_map (callsFor bodies) (indexPairs (length bodies)) ∧
  NoDup (indexPairs (length bodies)) ∧
  (i, j) ∈ indexPairs (length bodies) ∧
  (tiny <= dist A B <= max * (1 - slack) →
     ∃ F : Vec,
       callsFor bodies (i, j) = [(i, (- F.1, - F.2)%R); (j, F)] ∧
       (1 - slack) * (k / (Rmax (dist A B) min * Rmax (dist A B) min))
         <= norm F
         <= (1 + slack) * (k / (Rmax (dist A B) min * Rmax (dist A B) min)) ∧
       norm (- F.1, - F.2)%R = norm F ∧
       0 < dot F (B.1 - A.1, B.2 - A.2)%R ∧
       Rabs (cross F (B.1 - A.1, B.2 - A.2)%R)
         <= slack * (norm F * dist A B)) ∧
  (dist A B = max → ∃ F : Vec, callsFor bodies (i, j) = [(i, (- F.1, - F.2)%R); (j, F)]) ∧
  (max * (1 + slack) <= dist A B → callsFor bodies (i, j) = []) ∧
  (A = B → callsFor bodies (i, j) = []).
Proof.
  intros Hij HA HB.
  pose proof ForceFacts.slack_small as [Hs0 Hs1].
  pose proof ForceFacts.tiny_pos as Ht.
  rewrite (ForceFacts.callsFor_lookup _ _ _ _ _ HA HB).
  split_and!.
  - apply ForceFacts.repulsion_pairs.
  - apply ForceFacts.indexPairs_NoDup.
  - apply ForceFacts.indexPairs_elem. split; [done|].
    by apply lookup_lt_Some in HB.
  - unfold dist. intros [Hlo Hhi].
    assert (Hnear : 0 < sqrt (r2 A B) <= max).
    { rewrite ForceFacts.max_is_240 in *. nra. }
    pose proof Hnear as [Hpos Hle].
    pose proof (ForceFacts.clamped_pos (sqrt (r2 A B))) as Hc.
    assert (Hsq : sqrt (r2 A B) * sqrt (r2 A B) = r2 A B)
      by (apply sqrt_sqrt, ForceFacts.r2_nonneg).
    set (r := sqrt (r2 A B)) in *. set (c := Rmax r min) in *.
    assert (Hmag : (0 < k / (c * c))%R).
    { rewrite ForceFacts.k_is_1. apply Rdiv_lt_0_compat; nra. }
    set (m := k / (c * c)) in *.
    exists (((B.1 - A.1) / r * m)%R, ((B.2 - A.2) / r * m)%R).
    assert (Hnorm : norm ((B.1 - A.1) / r * m, (B.2 - A.2) / r * m) = m).
    { apply ForceFacts.force_norm; [done|by rewrite Hsq|lra]. }
    split_and!.
    + unfold pairCalls. by rewrite (ForceFacts.repelPair_near A B Hnear).
    + rewrite Hnorm. nra.
    + rewrite Hnorm. nra.
    + apply (ForceFacts.norm_opp ((B.1 - A.1) / r * m, (B.2 - A.2) / r * m)).
    + unfold dot. simpl.
      replace ((B.1 - A.1) / r * m * (B.1 - A.1) + (B.2 - A.2) / r * m * (B.2 - A.2))
        with (m * r).
      * nra.
      * transitivity (m * (r2 A B) / r); [rewrite <- Hsq; field; lra|].
        unfold r2. field. lra.
    + unfold cross. simpl.
      replace ((B.1 - A.1) / r * m * (B.2 - A.2) - (B.2 - A.2) / r * m * (B.1 - A.1))
        with 0 by (field; lra).
      rewrite Rabs_R0, Hnorm. assert (0 <= m * r) by nra. nra.
  - unfold dist. intros Hmax. unfold pairCalls.
    rewrite (ForceFacts.repelPair_near A B)
      by (rewrite Hmax, ForceFacts.max_is_240; lra).
    by eexists (_, _).
  - unfold dist. intros Hfar. unfold pairCalls.
    rewrite (ForceFacts.repelPair_far A B); [done|].
    rewrite ForceFacts.max_is_240 in *. nra.
  - intros ->. unfold pairCalls. rewrite (ForceFacts.repelPair_same B B); [done|].
    unfold r2. ring.
Qed.

Lemma repulsion_inverse_square_witness :
  ∃ F : Vec,
    callsFor [(0, 0); (30, 40)] (0%nat, 1%nat)
      = [(0%nat, (- F.1, - F.2)); (1%nat, F)] ∧
    0 < dot F (30 - 0, 40 - 0).
Proof.
  assert (Hr : dist (0, 0) (30, 40) = 50).
  { unfold dist, r2. simpl.
    replace ((30 - 0) * (30 - 0) + (40 - 0) * (40 - 0)) with (50 * 50) by lra.
    rewrite sqrt_square; lra. }
  destruct (repulsion_inverse_square [(0, 0); (30, 40)] 0 1 (0, 0) (30, 40))
    as (_ & _ & _ & Hnear & _); [lia|reflexivity|reflexivity|].
  destruct Hnear as (F & Hcalls & _ & _ & Hdot & _).
  { rewrite Hr, ForceFacts.max_is_240.
    pose proof ForceFacts.slack_small. pose proof ForceFacts.tiny_small. lra. }
  exists F. split; [exact Hcalls|exact Hdot].
Defined.

Section Binary64.

Import PrimFloat.

(** In binary64 the claim as it stands fails below [tiny]: two bodies
    [2^-700] apart are at different points, at a distance that is
    positive and far below [max], and the step makes no call for them,
    because the square of the difference underflows to 0. *)
Lemma repulsion_skips_bodies_too_close :
  let A := (0, 0)%float in
  let B := (0x1p-700, 0)%float in
  PrimFloat.ltb 0 (B.1 - A.1) = true ∧ PrimFloat.eqb (B.2 - A.2) 0 = true ∧
  PrimFloat.leb (B.1 - A.1) Forces64.max = true ∧
  Forces64.repelPair A B = None ∧
  Forces64.repulsion [A; B] = [].
Proof. vm_compute. by split_and!. Qed.

End Binary64.

(** C10. For two bodies at the same position ([r2 === 0]) the step
    makes no call of [Body.applyForce] and carries out no division; and
    whatever the positions, no division of the step has divisor zero. *)
Theorem repulsion_never_divides_by_zero (A B : Vec) :
  (r2 A B = 0%R →
     repelPair A B = {| divisors := []; force := None |} ∧
     ∀ i j, pairCalls i j A B = []) ∧
  (A = B → r2 A B = 0%R) ∧
  Forall (λ d, d ≠ 0%R) (divisors (repelPair A B)).
Proof.
  split_and!.
  - intros H0. split; [by apply ForceFacts.repelPair_same|].
    intros i j. unfold pairCalls. by rewrite (ForceFacts.repelPair_same A B H0).
  - intros ->. unfold r2. ring.
  - apply ForceFacts.divisors_nonzero.
Qed.

Local Close Scope R_scope.

(** * The hand-off of the canvas *)

Module AppFacts.
Import App.

Lemma step_handedOver p e : handedOver p → handedOver (step p e).
Proof.
  intros Hp. destruct e as [w h|w h|]; simpl.
  - unfold effect. destruct (current p) as [canvas|] eqn:Hc; [|done].
    destruct (truthy (started canvas)) eqn:Ht; [done|].
    destruct Hp as [Hnil|(_ & canvas' & Hc' & Ht')].
    + right. simpl. rewrite Hnil. split; [done|]. by eexists.
    + congruence.
  - unfold handleResize. destruct (resizeListeners p); [done|].
    destruct (current p) as [canvas|] eqn:Hc; [|done].
    destruct Hp as [Hnil|(Hlen & canvas' & Hc' & Ht')]; [by left|].
    right. simpl. split; [done|]. eexists. split; [done|]. simpl. congruence.
  - destruct Hp as [Hnil|(Hlen & canvas' & Hc' & Ht')]; [by left|].
    right. simpl. split; [done|]. by eexists.
Qed.

Lemma run_handedOver p events : handedOver p → handedOver (run p events).
Proof.
  revert p. induction events as [|e events IH]; intros p Hp; [done|].
  simpl. apply IH. by apply step_handedOver.
Qed.

Lemma step_calls_prefix p e :
  ∃ extra, makeTreeCalls (step p e) = makeTreeCalls p ++ extra.
Proof.
  destruct e as [w h|w h|]; simpl.
  - unfold effect. destruct (current p); [|exists []; by rewrite app_nil_r].
    destruct (truthy _); [exists []; by rewrite app_nil_r|]. by eexists.
  - unfold handleResize. exists [].
    destruct (resizeListeners p), (current p); by rewrite app_nil_r.
  - exists []. by rewrite app_nil_r.
Qed.

Lemma handedOver_mount canvas : handedOver (mount canvas).
Proof. by left. Qed.

End AppFacts.

Import App.

(** C7. Whatever sequence of effect runs, window resizes and cleanups
    happens to a page after it is mounted, [makeTree] is called at most
    once: after its call the canvas carries the marker, and no later
    event adds a call. *)
Theorem canvas_handed_over_at_most_once (canvas : option Canvas) (events : list Event) :
  length (makeTreeCalls (run (mount canvas) events)) ≤ 1 ∧
  (∀ c, makeTreeCalls (run (mount canvas) events) = [c] →
        ∃ cur, current (run (mount canvas) events) = Some cur ∧
               truthy (started cur) = true) ∧
  (∀ c e, makeTreeCalls (run (mount canvas) events) = [c] →
          makeTreeCalls (run (mount canvas) (events ++ [e])) = [c]).
Proof.
  pose proof (AppFacts.run_handedOver (mount canvas) events
                (AppFacts.handedOver_mount canvas)) as Hnow.
  split_and!.
  - destruct Hnow as [->|[-> _]]; simpl; lia.
  - intros c Hc. destruct Hnow as [Hnil|(_ & cur & Hcur & Ht)]; [congruence|].
    by exists cur.
  - intros c e Hc.
    pose proof (AppFacts.run_handedOver (mount canvas) (events ++ [e])
                  (AppFacts.handedOver_mount canvas)) as Hnext.
    unfold run in *. rewrite foldl_app in *. simpl in *.
    destruct (AppFacts.step_calls_prefix (foldl step (mount canvas) events) e)
      as [extra Hextra].
    rewrite Hc in Hextra. unfold handedOver in Hnext. rewrite Hextra in *.
    destruct Hnext as [Hnil|[Hlen _]]; [by simpl in Hnil|].
    destruct extra; [done|]. simpl in Hlen. lia.
Qed.

(** * More about the repulsion step *)

Module ForceTotalFacts.
Import Forces ForceTotals.

Local Open Scope R_scope.

Lemma sumForces_app l1 l2 :
  sumForces (l1 ++ l2)
  = ((sumForces l1).1 + (sumForces l2).1, (sumForces l1).2 + (sumForces l2).2).
Proof.
  induction l1 as [|[m f] l1 IH]; simpl.
  - destruct (sumForces l2). simpl. f_equal; ring.
  - rewrite IH. simpl. f_equal; ring.
Qed.

Lemma sumForces_pair i j A B : sumForces (pairCalls i j A B) = (0, 0).
Proof.
  unfold pairCalls. destruct (force (repelPair A B)) as [[fx fy]|]; simpl; [|done].
  f_equal; ring.
Qed.

Lemma sumForces_inner i j A rest : sumForces (innerLoop i j A rest) = (0, 0).
Proof.
  revert j. induction rest as [|B rest IH]; intros j; simpl; [done|].
  rewrite sumForces_app, sumForces_pair, IH. simpl. f_equal; ring.
Qed.

Lemma sumForces_outer i bodies : sumForces (outerLoop i bodies) = (0, 0).
Proof.
  revert i. induction bodies as [|A rest IH]; intros i; simpl; [done|].
  rewrite sumForces_app, sumForces_inner, IH. simpl. f_equal; ring.
Qed.

Lemma r2_sym A B : r2 B A = r2 A B.
Proof. unfold r2. ring. Qed.

End ForceTotalFacts.

Import Forces ForceTotals ForcePairs.

Local Open Scope R_scope.

(** X18. The forces of one repulsion step add up to zero, whatever the
    positions: each call on [list[i]] is undone by the call on
    [list[j]]. *)
Theorem repulsion_adds_no_net_force (bodies : list Vec) :
  sumForces (repulsion bodies) = (0, 0).
Proof. apply ForceTotalFacts.sumForces_outer. Qed.

(** X19. The clamp caps the repulsion. Every force that the step applies
    has a length between [k / max^2] and [k / min^2], within a factor
    of two, whatever the positions; and for two bodies closer than
    [min], but not closer than [tiny], the length is [k / min^2] up to
    one part in 10^9, whatever their distance. The factor and the part
    are the room that the rounding of binary64 needs. *)
Theorem repulsion_force_is_capped (A B F : Vec) :
  force (repelPair A B) = Some F →
  k / (2 * (max * max)) <= norm F <= 2 * (k / (min * min)) ∧
  (tiny <= dist A B <= min * (1 - slack) →
     (1 - slack) * (k / (min * min)) <= norm F
     <= (1 + slack) * (k / (min * min))).
Proof.
  unfold repelPair, dist. destruct (Req_dec_T (r2 A B) 0) as [|Hne]; [done|].
  destruct (Rlt_dec max (sqrt (r2 A B))) as [|Hle]; [done|].
  simpl. intros [= <-].
  assert (Hr : 0 < sqrt (r2 A B)).
  { apply sqrt_lt_R0. pose proof (ForceFacts.r2_nonneg A B). lra. }
  pose proof (ForceFacts.clamped_pos (sqrt (r2 A B))) as Hc.
  pose proof ForceFacts.slack_small as [Hs0 Hs1].
  set (r := sqrt (r2 A B)) in *. set (c := Rmax r min) in *.
  assert (Hmin : min <= c) by apply Rmax_r.
  assert (Hmax : c <= max).
  { unfold c. apply Rmax_lub; [lra|].
    rewrite ForceFacts.min_is_26, ForceFacts.max_is_240. lra. }
  assert (Hminpos : 0 < min) by (rewrite ForceFacts.min_is_26; lra).
  assert (Hnorm : norm ((B.1 - A.1) / r * (k / (c * c)),
                        (B.2 - A.2) / r * (k / (c * c))) = k / (c * c)).
  { apply ForceFacts.force_norm; [done| |].
    - unfold r. rewrite sqrt_sqrt by apply ForceFacts.r2_nonneg. done.
    - rewrite ForceFacts.k_is_1. apply Rlt_le, Rdiv_lt_0_compat; nra. }
  rewrite Hnorm. rewrite ForceFacts.k_is_1.
  assert (Hlo : / (max * max) <= / (c * c)) by (apply Rinv_le_contravar; nra).
  assert (Hhi : / (c * c) <= / (min * min)) by (apply Rinv_le_contravar; nra).
  assert (Hpos : 0 < / (max * max)) by (apply Rinv_0_lt_compat; nra).
  unfold Rdiv. rewrite !Rmult_1_l.
  replace (/ (2 * (max * max))) with (/ 2 * / (max * max))
    by (rewrite ForceFacts.max_is_240; lra).
  split; [lra|].
  intros [_ Hclose]. unfold c. rewrite Rmax_right by nra.
  assert (0 < / (min * min)) by (apply Rinv_0_lt_compat; nra). nra.
Qed.

Lemma repulsion_force_is_capped_witness :
  ∃ F : Vec,
    force (repelPair (0, 0) (3, 4)) = Some F ∧
    (1 - slack) * (k / (min * min)) <= norm F.
Proof.
  assert (Hr : sqrt (r2 (0, 0) (3, 4)) = 5).
  { unfold r2. simpl.
    replace ((3 - 0) * (3 - 0) + (4 - 0) * (4 - 0)) with (5 * 5) by lra.
    rewrite sqrt_square; lra. }
  assert (Hnear : 0 < sqrt (r2 (0, 0) (3, 4)) <= max).
  { rewrite Hr, ForceFacts.max_is_240. lra. }
  eexists. split.
  - by rewrite (ForceFacts.repelPair_near _ _ Hnear).
  - refine (proj1 (proj2 (repulsion_force_is_capped (0, 0) (3, 4) _ _) _)).
    + by rewrite (ForceFacts.repelPair_near _ _ Hnear).
    + unfold dist. rewrite Hr, ForceFacts.min_is_26.
      pose proof ForceFacts.slack_small. pose proof ForceFacts.tiny_small. lra.
Defined.

(** X20. The step treats a pair alike in both orders: with the two
    bodies exchanged it skips the same pairs, and the force it computes
    is the opposite one. *)
Theorem repulsion_pair_antisymmetric (A B : Vec) :
  force (repelPair B A)
  = (λ F : Vec, (- F.1, - F.2)) <$> force (repelPair A B).
Proof.
  unfold repelPair. rewrite (ForceTotalFacts.r2_sym A B).
  destruct (Req_dec_T (r2 A B) 0); [done|].
  destruct (Rlt_dec max (sqrt (r2 A B))); [done|].
  simpl. f_equal. f_equal; unfold Rdiv; ring.
Qed.

Local Close Scope R_scope.

(** * More about the adjacency and the depth map *)

Module GraphFacts.
Import Bfs TreePhysics BuildInv MakeTree Layers.

(** *** The adjacency made from an edge list *)

Lemma childrenOf_insert (adjacency : Adjacency) p q cs :
  childrenOf (<[q := cs]> adjacency) p
  = if decide (q = p) then cs else childrenOf adjacency p.
Proof.
  unfold childrenOf. case_decide as Hq.
  - subst. by rewrite lookup_insert_eq.
  - by rewrite lookup_insert_ne.
Qed.

Lemma adjacency_fold (es : list (string * string)) (acc : Adjacency) p :
  childrenOf
    (foldl (λ adjacency e, <[e.1 := default [] (adjacency !! e.1) ++ [e.2]]> adjacency)
           acc es) p
  = childrenOf acc p ++ (snd <$> filter (λ e, e.1 = p) es).
Proof.
  revert acc. induction es as [|[q c] es IH]; intros acc; simpl.
  - by rewrite app_nil_r.
  - rewrite IH, childrenOf_insert. simpl.
    destruct (decide (q = p)) as [->|Hne].
    + rewrite filter_cons_True by done. simpl. by rewrite <- app_assoc.
    + by rewrite filter_cons_False by done.
Qed.

Lemma adjacency_fold_key (es : list (string * string)) (acc : Adjacency) p :
  is_Some
    (foldl (λ adjacency e, <[e.1 := default [] (adjacency !! e.1) ++ [e.2]]> adjacency)
           acc es !! p)
  ↔ is_Some (acc !! p) ∨ p ∈ fst <$> es.
Proof.
  revert acc. induction es as [|[q c] es IH]; intros acc; simpl.
  - split; [by left|]. intros [?|?%elem_of_nil]; done.
  - rewrite IH. destruct (decide (q = p)) as [->|Hne].
    + rewrite lookup_insert_eq. split; [intros _; right; by left|].
      intros _. left. by eexists.
    + rewrite lookup_insert_ne by done. rewrite elem_of_cons. simpl.
      split; [intros [?|?]; auto|]. intros [?|[?|?]]; auto. congruence.
Qed.

(** *** The layers of a depth map *)

Lemma atDepth_lookup (depth : DepthMap) d v x :
  atDepth depth d !! v = Some x ↔ depth !! v = Some x ∧ x = d.
Proof. unfold atDepth. by rewrite map_lookup_filter_Some. Qed.

Lemma countByDepth_lookup (depth : DepthMap) d n :
  countByDepth depth !! d = Some n ↔ n = size (atDepth depth d) ∧ 0 < n.
Proof.
  revert n. unfold countByDepth.
  apply (map_fold_weak_ind
    (λ (counts : gmap nat nat) (m : DepthMap),
       ∀ n, counts !! d = Some n ↔ n = size (atDepth m d) ∧ 0 < n)).
  - intros n. unfold atDepth. rewrite map_filter_empty, map_size_empty.
    rewrite lookup_empty. split; [done|lia].
  - intros v x m counts Hv IH n. unfold atDepth in *.
    destruct (decide (x = d)) as [->|Hne].
    + rewrite lookup_insert_eq.
      rewrite map_filter_insert_True by done.
      rewrite map_size_insert_None by (rewrite map_lookup_filter_None; by left).
      assert (Hold : default 0 (counts !! d)
                     = size (filter (λ kv : string * nat, kv.2 = d) m)).
      { destruct (counts !! d) as [k|] eqn:Hk; simpl.
        - by destruct (proj1 (IH k) eq_refl) as [-> _].
        - destruct (size (filter (λ kv : string * nat, kv.2 = d) m)) as [|k] eqn:Hs;
            [done|].
          assert (None = Some (S k)) as Hc by (apply IH; lia). done. }
      rewrite Hold. split; [intros [= <-]; lia|]. intros [-> _]. f_equal. lia.
    + rewrite lookup_insert_ne by done. rewrite IH.
      rewrite map_filter_insert_False by done.
      by rewrite delete_id.
Qed.

Lemma maxDepth_attained (depth : DepthMap) v d :
  depth !! v = Some d → ∃ u, depth !! u = Some (maxDepth depth).
Proof.
  intros Hd. unfold maxDepth.
  assert (Hne : snd <$> map_to_list depth ≠ []).
  { intros Hnil. apply fmap_nil_inv, map_to_list_empty_iff in Hnil.
    subst. by rewrite lookup_empty in Hd. }
  apply max_list_elem_of, list_elem_of_fmap in Hne as ([u x] & Hx & Hin).
  exists u. apply elem_of_map_to_list in Hin. simpl in Hx. by rewrite Hx.
Qed.

Section Labelled.
Variable adjacency : Adjacency.
Variable rootId : string.
Variable depth : DepthMap.
Hypothesis Hfinal : loopInv adjacency rootId depth [].

Lemma depth_zero v : depth !! v = Some 0 ↔ v = rootId.
Proof.
  split.
  - intros Hv. apply (inv_path _ _ _ _ Hfinal) in Hv. by apply TreeFacts.path_zero in Hv.
  - intros ->. apply (inv_root _ _ _ _ Hfinal).
Qed.

Lemma depth_edge u du c :
  depth !! u = Some du → c ∈ childrenOf adjacency u →
  ∃ dc, depth !! c = Some dc ∧ dc ≤ S du.
Proof.
  intros Hu Hc.
  destruct (inv_closed _ _ _ _ Hfinal u c) as [[dc Hdc] Hle];
    [by eexists|apply not_elem_of_nil|done|].
  exists dc. split; [done|]. unfold depthOf in Hle. rewrite Hu, Hdc in Hle.
  simpl in Hle. lia.
Qed.

Lemma depth_parent v d :
  depth !! v = Some (S d) →
  ∃ u, depth !! u = Some d ∧ v ∈ childrenOf adjacency u.
Proof.
  intros Hv. pose proof (inv_path _ _ _ _ Hfinal v _ Hv) as Hp.
  apply TreeFacts.path_unsnoc in Hp as (u & Hu & Hc).
  destruct (BfsFacts.closed_lower_bound adjacency rootId depth u d Hfinal Hu)
    as (du & Hdu & Hle).
  destruct (depth_edge u du v Hdu Hc) as (dv & Hdv & Hle').
  exists u. split; [|done]. rewrite Hdu. f_equal.
  assert (dv = S d) by congruence. lia.
Qed.

Lemma layer_inhabited k :
  k ≤ maxDepth depth → ∃ v, depth !! v = Some (maxDepth depth - k).
Proof.
  induction k as [|k IH]; intros Hk.
  - rewrite Nat.sub_0_r. eapply maxDepth_attained. apply (inv_root _ _ _ _ Hfinal).
  - destruct IH as [v Hv]; [lia|].
    replace (maxDepth depth - k) with (S (maxDepth depth - S k)) in Hv by lia.
    apply depth_parent in Hv as (u & Hu & _). by exists u.
Qed.

End Labelled.

(** *** When the recursion of [buildRec] ends *)

Section Walk.
Variable adjacency : Adjacency.

Lemma walkChildren_all wrec cs :
  (∀ c, c ∈ cs → is_Some (wrec c)) → is_Some (walkChildren wrec cs).
Proof.
  induction cs as [|c cs IH]; intros Hcs; simpl; [by eexists|].
  destruct (Hcs c) as [l ->]; [by left|].
  destruct IH as [ls ->]; [intros; apply Hcs; by right|]. by eexists.
Qed.

Lemma walk_Some_iff fuel id :
  is_Some (walk fuel adjacency id) ↔ ∀ v n, path adjacency id v n → n < fuel.
Proof.
  revert id. induction fuel as [|fuel IH]; intros id; simpl.
  - split; [by intros [? ?]|]. intros Hp. specialize (Hp id 0 (path_here _ _)). lia.
  - split.
    + intros [l Hl] v [|n] Hn; [lia|].
      apply TreeFacts.path_uncons in Hn as (c & Hc & Hn).
      destruct (walkChildren _ _) as [ls|] eqn:Hcs; [|done].
      assert (n < fuel); [|lia].
      apply (proj1 (IH c)) with v; [|done].
      by eapply BuildFacts.walkChildren_Some.
    + intros Hp.
      destruct (walkChildren_all (walk fuel adjacency) (childrenOf adjacency id))
        as [ls ->]; [|by eexists].
      intros c Hc. apply IH. intros v n Hn.
      assert (S n < S fuel); [|lia].
      apply (Hp v). by eapply TreeFacts.path_cons.
Qed.

Lemma cycle_pumps v n k :
  path adjacency v v n → path adjacency v v (k * n).
Proof.
  intros Hc. induction k as [|k IH]; simpl; [constructor|].
  rewrite Nat.add_comm. by eapply TreeFacts.path_trans.
Qed.

End Walk.

End GraphFacts.

Import Bfs TreePhysics BuildInv MakeTree Layers.

(** X1. The adjacency that [makeTree] folds from its edge list gives, for
    every parent, the children of its edges in the order of the list;
    the keys of the map are the ids that occur as a parent. *)
Theorem adjacencyOf_children (es : list (string * string)) (p : string) :
  childrenOf (adjacencyOf es) p = snd <$> filter (λ e, e.1 = p) es ∧
  (is_Some (adjacencyOf es !! p) ↔ p ∈ fst <$> es) ∧
  (∀ c, c ∈ childrenOf (adjacencyOf es) p ↔ (p, c) ∈ es).
Proof.
  assert (Hch : childrenOf (adjacencyOf es) p = snd <$> filter (λ e, e.1 = p) es).
  { unfold adjacencyOf. rewrite GraphFacts.adjacency_fold. unfold childrenOf.
    by rewrite lookup_empty. }
  split_and!; [done| |].
  - unfold adjacencyOf. rewrite GraphFacts.adjacency_fold_key, lookup_empty.
    split; [intros [[? ?]|?]; done|by right].
  - intros c. rewrite Hch, list_elem_of_fmap. split.
    + intros ([q c'] & -> & [Hq Hin]%list_elem_of_filter). simpl in Hq. by subst.
    + intros Hin. exists (p, c). split; [done|]. by apply list_elem_of_filter.
Qed.

(** X2. The labelling is a breadth-first tree: only the root has depth 0,
    every other labelled id has a parent that is labelled one less, and
    an edge never leads more than one level up. *)
Theorem bfs_labels_form_a_tree adjacency rootId fuel depth shifted :
  computeDepth fuel adjacency rootId = Some (depth, shifted) →
  (∀ v, depth !! v = Some 0 ↔ v = rootId) ∧
  (∀ v d, depth !! v = Some (S d) →
          ∃ u, depth !! u = Some d ∧ v ∈ childrenOf adjacency u) ∧
  (∀ u du c, depth !! u = Some du → c ∈ childrenOf adjacency u →
             ∃ dc, depth !! c = Some dc ∧ dc ≤ S du).
Proof.
  intros Hrun.
  pose proof (BfsFacts.bfsLoop_inv adjacency rootId _ _ _ _ _ _
                (BfsFacts.loopInv_init adjacency rootId) Hrun) as Hinv.
  split_and!.
  - intros v. exact (GraphFacts.depth_zero adjacency rootId depth Hinv v).
  - intros v d. exact (GraphFacts.depth_parent adjacency rootId depth Hinv v d).
  - intros u du c. exact (GraphFacts.depth_edge adjacency rootId depth Hinv u du c).
Qed.

Lemma bfs_labels_form_a_tree_witness :
  ∃ depth shifted,
    computeDepth 12 adjacency "root" = Some (depth, shifted) ∧
    ∀ v, depth !! v = Some 0 ↔ v = "root".
Proof.
  eexists _, _. split; [vm_compute; reflexivity|].
  refine (proj1 (bfs_labels_form_a_tree adjacency "root" 12 _ _ _)).
  vm_compute; reflexivity.
Defined.

(** X3. [counts] holds, for each depth that occurs, the number of ids
    with that depth, and nothing for the others; on the labelling of the
    breadth-first loop every depth from 0 to the largest one occurs, so
    [counts.get(d)] is a positive number for each of them. *)
Theorem counts_cover_every_layer adjacency rootId fuel depth shifted :
  computeDepth fuel adjacency rootId = Some (depth, shifted) →
  (∀ d n, countByDepth depth !! d = Some n ↔ n = size (atDepth depth d) ∧ 0 < n) ∧
  (∀ v d, depth !! v = Some d → d ≤ maxDepth depth) ∧
  (∀ d, d ≤ maxDepth depth → ∃ n, countByDepth depth !! d = Some n ∧ 0 < n).
Proof.
  intros Hrun.
  pose proof (BfsFacts.bfsLoop_inv adjacency rootId _ _ _ _ _ _
                (BfsFacts.loopInv_init adjacency rootId) Hrun) as Hinv.
  split_and!.
  - intros d n. apply GraphFacts.countByDepth_lookup.
  - apply TreeFacts.maxDepth_bound.
  - intros d Hd.
    destruct (GraphFacts.layer_inhabited adjacency rootId depth Hinv
                (maxDepth depth - d)) as [v Hv]; [lia|].
    replace (maxDepth depth - (maxDepth depth - d)) with d in Hv by lia.
    exists (size (atDepth depth d)).
    assert (0 < size (atDepth depth d)).
    { assert (size (atDepth depth d) ≠ 0); [|lia].
      apply (map_size_ne_0_lookup_2 _ v). exists d.
      by apply GraphFacts.atDepth_lookup. }
    split; [|done]. by apply GraphFacts.countByDepth_lookup.
Qed.

Lemma counts_cover_every_layer_witness :
  ∃ depth shifted,
    computeDepth 12 adjacency "root" = Some (depth, shifted) ∧
    ∀ d, d ≤ maxDepth depth → ∃ n, countByDepth depth !! d = Some n ∧ 0 < n.
Proof.
  eexists _, _. split; [vm_compute; reflexivity|].
  refine (proj2 (proj2 (counts_cover_every_layer adjacency "root" 12 _ _ _))).
  vm_compute; reflexivity.
Defined.

(** X4. [buildTree] returns exactly when the recursion depth allowed is
    more than the length of every path from the root; so with a cycle in
    reach of the root, where paths have any length, the recursion of
    [buildRec] never ends. *)
Theorem buildTree_returns_iff_paths_are_short h fuel adjacency rootId :
  (is_Some (buildTree h fuel adjacency rootId)
   ↔ ∀ v n, path adjacency rootId v n → n < fuel) ∧
  (∀ v n, reachable adjacency rootId v → path adjacency v v (S n) →
          buildTree h fuel adjacency rootId = None).
Proof.
  assert (Hiff : is_Some (buildTree h fuel adjacency rootId)
                 ↔ ∀ v n, path adjacency rootId v n → n < fuel).
  { rewrite <- GraphFacts.walk_Some_iff. unfold buildTree.
    destruct (BfsFacts.computeDepth_enough adjacency rootId) as [[depth shifted] ->].
    split.
    - intros [scene Hscene].
      apply BuildFacts.buildWith_Some in Hscene
        as (root & s & _ & _ & _ & _ & _ & Hw & _). by eexists.
    - intros Hw.
      destruct (BuildFacts.buildRec_total h adjacency depth fuel rootId startState Hw)
        as [[root s] Hrec].
      unfold buildWith. rewrite Hrec. by eexists. }
  split; [done|].
  intros v n [m Hm] Hcycle.
  destruct (buildTree h fuel adjacency rootId) as [scene|] eqn:Hb; [|done].
  exfalso.
  assert (Hlong : path adjacency rootId v (m + fuel * S n)).
  { eapply TreeFacts.path_trans; [done|]. by apply GraphFacts.cycle_pumps. }
  apply (proj1 Hiff) in Hlong; [nia|by eexists].
Qed.

Lemma buildTree_returns_iff_paths_are_short_witness :
  buildTree sampleHost 1000 MoreInputs.cyclic "root" = None.
Proof.
  refine (proj2 (buildTree_returns_iff_paths_are_short sampleHost 1000
                   MoreInputs.cyclic "root") "root" 1 _ _).
  - exists 0. constructor.
  - eapply (path_snoc _ _ "A"); [eapply (path_snoc _ _ "root"); [constructor|]|];
      apply (bool_decide_unpack _); vm_compute; exact I.
Defined.

(** * The shape of the tree that is built *)

Module ShapeFacts.
Import Bfs TreePhysics BuildInv Shape.

Section Builder.

Variable h : Host.
Variable adjacency : Adjacency.
Variable depth : DepthMap.

Local Abbreviation g := (collisionGroup h).

(** What a loop that hangs [n] leaves on [p] does, each leaf costing
    [perLeaf] draws. *)
Local Abbreviation hung n p s p' s' :=
  (∃ leaves es,
     length leaves = n ∧
     TreeNode.id p' = TreeNode.id p ∧ TreeNode.body p' = TreeNode.body p ∧
     TreeNode.children p' = TreeNode.children p ++ leaves ∧
     TreeNode.edges p' = TreeNode.edges p ++ es ∧
     Forall2 (linkOk (TreeNode.body p)) leaves es ∧
     Forall isLeafNode leaves ∧
     worldConstraints s' = worldConstraints s ++ es ∧
     worldBodies s' = worldBodies s ++ (TreeNode.body <$> leaves) ∧
     bodyCache s' = bodyCache s ∧ idxByDepth s' = idxByDepth s ∧
     nextBodyId s' = nextBodyId s + n).

Ltac hang_step IH Hrun :=
  unfold bind, Math_random, Bodies_circle, addLeafToWorld in Hrun;
  cbv beta iota in Hrun;
  apply IH in Hrun
    as [(leaves & es & Hlen & Hid & Hb & Hc & He & Hlinks & Hleaves
         & Hwc & Hwb & Hcache & Hidx & Hnext) Hdraws];
  simpl in Hid, Hb, Hc, He, Hlinks, Hwc, Hwb, Hcache, Hidx, Hnext, Hdraws;
  split; [|lia];
  match type of Hc with
  | _ = (_ ++ [?leaf]) ++ _ =>
      match type of He with
      | _ = (_ ++ [?e]) ++ _ =>
          exists (leaf :: leaves), (e :: es)
      end
  end;
  split_and!;
  [ simpl; by rewrite Hlen | done | done
  | by rewrite Hc, <- app_assoc | by rewrite He, <- app_assoc
  | apply Forall2_cons; split; [by split_and!|done]
  | apply Forall_cons; split; [by split_and!|done]
  | by rewrite Hwc, <- app_assoc | by rewrite Hwb, <- app_assoc
  | done | done | lia ].

Lemma addLeafLoop_shape n i p c s p' s' :
  addLeafLoop h n i p c s = Some (p', s') →
  hung n p s p' s' ∧ draws s' = draws s + 2 * n.
Proof.
  revert i p s. induction n as [|n IH]; intros i p s Hrun.
  - injection Hrun as <- <-. split; [|lia]. exists [], []. rewrite !app_nil_r.
    split_and!; try done; try constructor; lia.
  - cbn [addLeafLoop] in Hrun. hang_step IH Hrun.
Qed.

Lemma addTerminalLoop_shape numLeaves n i p s p' s' :
  addTerminalLoop h numLeaves n i p s = Some (p', s') →
  hung n p s p' s' ∧ draws s' = draws s + n.
Proof.
  revert i p s. induction n as [|n IH]; intros i p s Hrun.
  - injection Hrun as <- <-. split; [|lia]. exists [], []. rewrite !app_nil_r.
    split_and!; try done; try constructor; lia.
  - cbn [addTerminalLoop] in Hrun. hang_step IH Hrun.
Qed.

Lemma addLeafNodes_shape p c s p' s' :
  addLeafNodes h p c s = Some (p', s') →
  hung (Z.to_nat (2 + Qfloor (random h (draws s) * 3))) p s p' s' ∧
  draws s' = draws s + 1 + 2 * Z.to_nat (2 + Qfloor (random h (draws s) * 3)).
Proof.
  intros Hrun. unfold addLeafNodes, bind, Math_random in Hrun.
  apply addLeafLoop_shape in Hrun as [Hhung Hd]. simpl in *. split; [done|lia].
Qed.

Lemma addTerminalLeaves_shape p s p' s' :
  addTerminalLeaves h p s = Some (p', s') →
  hung (Z.to_nat (3 + Qfloor (random h (draws s) * 4))) p s p' s' ∧
  draws s' = draws s + 1 + Z.to_nat (3 + Qfloor (random h (draws s) * 4)).
Proof.
  intros Hrun. unfold addTerminalLeaves, bind, Math_random in Hrun.
  apply addTerminalLoop_shape in Hrun as [Hhung Hd]. simpl in *. split; [done|lia].
Qed.

Lemma not_tree_node (n : TreeNode.t) : isTreeNode n = false → ¬ isTreeNode n.
Proof. intros Hn Ht. rewrite Hn in Ht. exact Ht. Qed.

Lemma leafNodes_treeIds l : Forall isLeafNode l → treeIds l = [].
Proof.
  induction 1 as [|n l (Hn & _) _ IH]; [done|].
  unfold treeIds in *. rewrite filter_cons_False; [exact IH|].
  by apply not_tree_node.
Qed.

Lemma leafNodes_flat l : Forall isLeafNode l → flat_map TreeNode.traverse l = l.
Proof.
  induction 1 as [|n l (_ & Hc & _) _ IH]; simpl; [done|].
  rewrite BuildFacts.traverse_unfold. unfold descendants. rewrite Hc. simpl.
  by rewrite IH.
Qed.

Lemma allEdges_app l1 l2 : allEdges (l1 ++ l2) = allEdges l1 ++ allEdges l2.
Proof. unfold allEdges. by rewrite fmap_app, concat_app. Qed.

Lemma leafBodies_app l1 l2 : leafBodies (l1 ++ l2) = leafBodies l1 ++ leafBodies l2.
Proof. unfold leafBodies. by rewrite filter_app, fmap_app. Qed.

Lemma leafNodes_edges l : Forall isLeafNode l → allEdges l = [].
Proof.
  induction 1 as [|n l (_ & _ & He) _ IH]; [done|].
  unfold allEdges in *. rewrite fmap_cons. cbn [concat]. rewrite He. exact IH.
Qed.

Lemma leafNodes_bodies l : Forall isLeafNode l → leafBodies l = TreeNode.body <$> l.
Proof.
  induction 1 as [|n l (Hn & _) _ IH]; [done|].
  unfold leafBodies in *. rewrite filter_cons_True by done.
  rewrite !fmap_cons. f_equal. exact IH.
Qed.

Lemma leafNode_shapeOk n : isLeafNode n → shapeOk h adjacency depth n.
Proof.
  intros (Hn & Hc & He). split.
  - unfold wired. rewrite Hc, He. constructor.
  - by rewrite Hn.
Qed.

Lemma traverse_tree_node n :
  isTreeNode n →
  allEdges (TreeNode.traverse n) = TreeNode.edges n ++ allEdges (descendants n) ∧
  leafBodies (TreeNode.traverse n) = leafBodies (descendants n).
Proof.
  intros Hn. rewrite BuildFacts.traverse_unfold. split; [done|].
  unfold leafBodies. rewrite filter_cons_False; [done|].
  intros Hf. by apply not_tree_node in Hf.
Qed.

Lemma getBody_frame id s b s1 :
  getBody h depth id s = Some (b, s1) →
  worldConstraints s1 = worldConstraints s ∧ worldBodies s1 = worldBodies s ∧
  draws s1 = draws s.
Proof.
  unfold getBody. destruct (cacheGet (bodyCache s) id).
  - by intros [= <- <-].
  - unfold makeBody, Bodies_circle. simpl. rewrite BuildFacts.cacheGet_cacheSet.
    by intros [= <- <-].
Qed.

(** What [buildRec] guarantees of the node it returns. *)
Local Abbreviation kept wrec id :=
  (λ (s : State) (c : TreeNode.t) (s' : State),
     nodeOk g s' c ∧ isTreeNode c ∧ TreeNode.id c = id ∧
     newKeysIn s s' (TreeNode.traverse c) ∧
     wrec = Some (treeIds (TreeNode.traverse c))).

Local Abbreviation shaped c s s' :=
  (Forall (shapeOk h adjacency depth) (TreeNode.traverse c) ∧
   worldConstraints s' ≡ₚ worldConstraints s ++ allEdges (TreeNode.traverse c) ∧
   worldBodies s' ≡ₚ worldBodies s ++ leafBodies (TreeNode.traverse c)).

Lemma buildChildren_shape rec wrec id :
  (∀ cid, keeps g (rec cid) (kept (wrec cid) cid)) →
  (∀ cid s c s', stateOk g s → rec cid s = Some (c, s') → shaped c s s') →
  ∀ cs seen node s node' s',
    stateOk g s → Body.group (TreeNode.body node) = g →
    TreeNode.id node = id →
    wired node → treeIds (TreeNode.children node) = seen →
    Forall (λ c, isTreeNode c = false → isLeafNode c) (TreeNode.children node) →
    (aboveRoot depth id = false →
       Forall (λ c, isTreeNode c) (TreeNode.children node)) →
    buildChildren h depth rec id cs node s = Some (node', s') →
    ∃ kids es,
      TreeNode.id node' = id ∧ TreeNode.body node' = TreeNode.body node ∧
      TreeNode.children node' = TreeNode.children node ++ kids ∧
      TreeNode.edges node' = TreeNode.edges node ++ es ∧
      (cs = [] → kids = []) ∧
      wired node' ∧ treeIds (TreeNode.children node') = seen ++ cs ∧
      Forall (λ c, isTreeNode c = false → isLeafNode c) (TreeNode.children node') ∧
      (aboveRoot depth id = false →
         Forall (λ c, isTreeNode c) (TreeNode.children node')) ∧
      Forall (shapeOk h adjacency depth) (flat_map TreeNode.traverse kids) ∧
      worldConstraints s'
        ≡ₚ worldConstraints s ++ es ++ allEdges (flat_map TreeNode.traverse kids) ∧
      worldBodies s'
        ≡ₚ worldBodies s ++ leafBodies (flat_map TreeNode.traverse kids) ∧
      stateOk g s'.
Proof.
  intros Hkeep Hshape.
  induction cs as [|cid cs IH];
    intros seen node s node' s' Hok Hgroup Hid Hwired Hseen Hkinds Hroot Hrun.
  - injection Hrun as <- <-. exists [], []. rewrite !app_nil_r.
    split_and!; try done.
  - cbn [buildChildren] in Hrun. apply BuildFacts.bind_Some in Hrun
      as (child & s1 & Hstep & Hrun).
    pose proof (Hshape _ _ _ _ Hok Hstep) as (Hcshape & Hcwc & Hcwb).
    apply Hkeep in Hstep as (Hok1 & _ & Hcnode & Hctree & Hcid & _); [|done].
    assert (Hcgroup : Body.group (TreeNode.body child) = g).
    { unfold nodeOk in Hcnode. rewrite BuildFacts.traverse_unfold in Hcnode.
      apply Forall_cons in Hcnode as [[? _] _]. done. }
    set (node1 := (TreeNode.addChild node child CFG.spring false).1) in *.
    set (cons := (TreeNode.addChild node child CFG.spring false).2) in *.
    unfold bind at 1 in Hrun. unfold World_add_constraint in Hrun.
    cbv beta iota in Hrun.
    apply BuildFacts.bind_Some in Hrun as (node2 & s2 & Hstep & Hrun).
    match type of Hstep with _ ?st = _ => set (s1' := st) in * end.
    assert (Hok1' : stateOk g s1').
    { apply BuildFacts.stateOk_add_constraint; [done|]. split_and!; simpl.
      - done.
      - by intros ? [= <-].
      - intros Hl. exfalso. eapply BuildFacts.node_not_leaf; [exact Hctree|exact Hl]. }
    assert (Hhung : ∃ leaves les,
              TreeNode.id node2 = TreeNode.id node1 ∧
              TreeNode.body node2 = TreeNode.body node1 ∧
              TreeNode.children node2 = TreeNode.children node1 ++ leaves ∧
              TreeNode.edges node2 = TreeNode.edges node1 ++ les ∧
              Forall2 (linkOk (TreeNode.body node1)) leaves les ∧
              Forall isLeafNode leaves ∧
              worldConstraints s2 = worldConstraints s1' ++ les ∧
              worldBodies s2 = worldBodies s1' ++ (TreeNode.body <$> leaves) ∧
              (aboveRoot depth id = false → leaves = [])).
    { destruct (aboveRoot depth id).
      - apply addLeafNodes_shape in Hstep
          as [(leaves & les & ? & ? & ? & ? & ? & ? & ? & ? & ? & _) _].
        exists leaves, les. by split_and!.
      - injection Hstep as <- <-. exists [], []. rewrite !app_nil_r.
        split_and!; try done; constructor. }
    assert (Hok2 : stateOk g s2).
    { eapply (BuildFacts.maybe_leaves_keeps h (aboveRoot depth id) _ node1
                (BuildFacts.addLeafNodes_keeps h node1 child Hgroup)); [|exact Hstep].
      done. }
    destruct Hhung as (leaves & les & Hid2 & Hb2 & Hc2 & He2 & Hlinks & Hleaves
                       & Hwc2 & Hwb2 & Hnone).
    simpl in Hid2, Hb2, Hc2, He2, Hlinks, Hwc2, Hwb2.
    assert (Hlink : linkOk (TreeNode.body node) child cons).
    { split_and!; try done. simpl.
      destruct (isTreeNode child); [done|]. done. }
    apply (IH (seen ++ [cid])) in Hrun
      as (kids & es & Hid' & Hb' & Hc' & He' & Hnil & Hwired' & Hseen' & Hkinds'
          & Hroot' & Hshapes & Hwc' & Hwb' & Hok'); [|done|congruence|congruence|..].
    + exists (child :: leaves ++ kids), (cons :: les ++ es).
      assert (Hflat : flat_map TreeNode.traverse (child :: leaves ++ kids)
                      = TreeNode.traverse child ++ leaves
                        ++ flat_map TreeNode.traverse kids).
      { simpl. by rewrite flat_map_app, (leafNodes_flat _ Hleaves). }
      split_and!.
      * done.
      * congruence.
      * rewrite Hc', Hc2. by rewrite <- !app_assoc.
      * rewrite He', He2. by rewrite <- !app_assoc.
      * done.
      * done.
      * rewrite Hseen'. by rewrite <- app_assoc.
      * done.
      * done.
      * rewrite Hflat, !Forall_app. split_and!; [done| |done].
        eapply Forall_impl; [exact Hleaves|]. apply leafNode_shapeOk.
      * rewrite Hflat, !allEdges_app, (leafNodes_edges _ Hleaves).
        rewrite Hwc', Hwc2. simpl. rewrite Hcwc. simpl. solve_Permutation.
      * rewrite Hflat, !leafBodies_app, (leafNodes_bodies _ Hleaves).
        rewrite Hwb', Hwb2. simpl. rewrite Hcwb. by rewrite <- !app_assoc.
      * done.
    + unfold wired. rewrite Hb2, Hc2, He2. simpl.
      apply Forall2_app; [|done]. apply Forall2_app; [done|].
      by apply Forall2_cons.
    + rewrite Hc2. simpl. rewrite !BuildFacts.treeIds_app, Hseen.
      rewrite (leafNodes_treeIds _ Hleaves), app_nil_r.
      f_equal. unfold treeIds. rewrite filter_cons_True by done. simpl.
      by rewrite Hcid.
    + rewrite Hc2. simpl. rewrite !Forall_app. split_and!; [done| |].
      * constructor; [|constructor]. intros Hf. by apply not_tree_node in Hf.
      * eapply Forall_impl; [exact Hleaves|]. done.
    + intros Hr. rewrite Hc2, (Hnone Hr), app_nil_r. simpl.
      rewrite Forall_app. split; [by apply Hroot|]. by constructor.
Qed.

Lemma buildRec_shape fuel id s node s' :
  stateOk g s → buildRec h adjacency depth fuel id s = Some (node, s') →
  shaped node s s'.
Proof.
  revert id s node s'. induction fuel as [|fuel IH]; intros id s node s' Hok Hrun;
    [done|].
  cbn [buildRec] in Hrun.
  apply BuildFacts.bind_Some in Hrun as (b & s1 & Hstep & Hrun).
  pose proof (getBody_frame _ _ _ _ Hstep) as (Hwc1 & Hwb1 & _).
  apply BuildFacts.getBody_keeps in Hstep as (Hok1 & _ & _ & Hnode & Hgroup & _);
    [|done].
  apply BuildFacts.bind_Some in Hrun as (node1 & s2 & Hstep & Hrun).
  apply (buildChildren_shape _ (walk fuel adjacency) id
           (BuildFacts.buildRec_spec h adjacency depth fuel)
           (λ cid s0 c s0' Hok0 Hrun0, IH cid s0 c s0' Hok0 Hrun0)
           _ [] (TreeNode.new id b)) in Hstep
    as (kids & es & Hid1 & Hb1 & Hc1 & He1 & Hnil & Hwired1 & Hseen1 & Hkinds1
        & Hroot1 & Hshapes & Hwc2 & Hwb2 & Hok2);
    [|done|done|done|constructor|done|constructor|by constructor].
  simpl in Hb1, Hc1, He1, Hseen1.
  assert (Hgroup1 : Body.group (TreeNode.body node1) = g) by by rewrite Hb1.
  assert (Hhung : ∃ leaves les,
            TreeNode.id node = TreeNode.id node1 ∧
            TreeNode.body node = TreeNode.body node1 ∧
            TreeNode.children node = TreeNode.children node1 ++ leaves ∧
            TreeNode.edges node = TreeNode.edges node1 ++ les ∧
            Forall2 (linkOk (TreeNode.body node1)) leaves les ∧
            Forall isLeafNode leaves ∧
            worldConstraints s' = worldConstraints s2 ++ les ∧
            worldBodies s' = worldBodies s2 ++ (TreeNode.body <$> leaves) ∧
            (aboveRoot depth id = false → leaves = []) ∧
            (aboveRoot depth id = true → childrenOf adjacency id = [] →
               length leaves = Z.to_nat (3 + Qfloor (random h (draws s2) * 4)))).
  { destruct (bool_decide (childrenOf adjacency id = [])) eqn:Hterm;
      destruct (aboveRoot depth id) eqn:Habove; simpl in Hrun.
    - apply addTerminalLeaves_shape in Hrun
        as [(leaves & les & ? & ? & ? & ? & ? & ? & ? & ? & ? & _) _].
      exists leaves, les. by split_and!.
    - injection Hrun as <- <-. exists [], []. rewrite !app_nil_r.
      split_and!; try done; constructor.
    - injection Hrun as <- <-. exists [], []. rewrite !app_nil_r.
      split_and!; try done; try constructor.
      intros _ Hcs. by apply bool_decide_eq_false in Hterm.
    - injection Hrun as <- <-. exists [], []. rewrite !app_nil_r.
      split_and!; try done; constructor. }
  destruct Hhung as (leaves & les & Hid' & Hb' & Hc' & He' & Hlinks & Hleaves
                     & Hwc' & Hwb' & Hnone & Hcount).
  assert (Htree : isTreeNode node).
  { unfold isTreeNode. by rewrite Hb', Hb1. }
  assert (Hdesc : descendants node = flat_map TreeNode.traverse kids ++ leaves).
  { unfold descendants. rewrite Hc', Hc1, flat_map_app.
    by rewrite (leafNodes_flat _ Hleaves). }
  destruct (traverse_tree_node node Htree) as [Hedges Hbodies].
  split_and!.
  - rewrite BuildFacts.traverse_unfold. apply Forall_cons. split.
    + split.
      * unfold wired. rewrite Hb', Hc', He'. by apply Forall2_app.
      * destruct (isTreeNode node); [|done].
        rewrite Hid', Hid1, Hc'. split_and!.
        -- by rewrite BuildFacts.treeIds_app, Hseen1, (leafNodes_treeIds _ Hleaves),
             app_nil_r.
        -- rewrite Forall_app. split; [done|].
           eapply Forall_impl; [exact Hleaves|]. done.
        -- intros Hr. rewrite (Hnone Hr), app_nil_r. by apply Hroot1.
        -- intros Ha Hcs. exists (draws s2).
           rewrite Hc1, (Hnil Hcs). simpl. by apply Hcount.
    + rewrite Hdesc, Forall_app. split; [done|].
      eapply Forall_impl; [exact Hleaves|]. apply leafNode_shapeOk.
  - rewrite Hedges, Hdesc, allEdges_app, (leafNodes_edges _ Hleaves), app_nil_r.
    rewrite Hwc', Hwc2, Hwc1, He', He1. simpl. solve_Permutation.
  - rewrite Hbodies, Hdesc, leafBodies_app, (leafNodes_bodies _ Hleaves).
    rewrite Hwb', Hwb2, Hwb1. by rewrite <- app_assoc.
Qed.

Lemma buildWith_shape fuel rootId scene :
  buildWith h adjacency depth fuel rootId = Some scene →
  Forall (shapeOk h adjacency depth) (Scene.nodes scene) ∧
  Scene.worldConstraints scene
    ≡ₚ allEdges (Scene.nodes scene) ++ [Scene.rootPin scene] ∧
  Scene.worldBodies scene
    ≡ₚ leafBodies (Scene.nodes scene)
       ++ filter (λ b, isNodeBody b) (Scene.worldBodies scene).
Proof.
  intros Hscene.
  destruct (BuildFacts.buildWith_Some _ _ _ _ _ _ Hscene)
    as (root & s & Hrun & Hok & _ & _ & _ & _ & _ & Hnodes & _ & Hwb & Hwc & _).
  apply buildRec_shape in Hrun as (Hshape & Hswc & Hswb);
    [|apply BuildFacts.stateOk_start].
  simpl in Hswc, Hswb. rewrite Hnodes. split_and!.
  - done.
  - by rewrite Hwc, Hswc.
  - rewrite Hwb at 2. rewrite (BuildFacts.world_node_bodies _ _ Hok).
    by rewrite Hwb, Hswb.
Qed.

End Builder.

(** In a tree whose nodes all carry as many edges as children there is
    one edge per node, the root aside. *)
Lemma edges_count n :
  Forall (λ m, length (TreeNode.edges m) = length (TreeNode.children m))
         (TreeNode.traverse n) →
  S (length (allEdges (TreeNode.traverse n))) = length (TreeNode.traverse n).
Proof.
  induction n as [i b cs es IH] using DepthFacts.TreeNode_ind_deep.
  rewrite BuildFacts.traverse_unfold. unfold descendants.
  cbn [TreeNode.children]. intros [Hhead Hrest]%Forall_cons.
  cbn [TreeNode.edges TreeNode.children] in Hhead.
  unfold allEdges. rewrite fmap_cons. cbn [concat TreeNode.edges length].
  rewrite length_app, Hhead. f_equal. clear Hhead.
  induction IH as [|c cs Hc _ IHcs]; [done|].
  cbn [flat_map] in *. apply Forall_app in Hrest as [Hc1 Hc2].
  rewrite fmap_app, concat_app, !length_app. cbn [length].
  specialize (Hc Hc1). specialize (IHcs Hc2). unfold allEdges in Hc. lia.
Qed.

Lemma walk_reachable adjacency fuel id l v :
  walk fuel adjacency id = Some l → v ∈ l → reachable adjacency id v.
Proof.
  revert id l. induction fuel as [|fuel IH]; intros id l; [done|]. simpl.
  destruct (walkChildren _ _) as [ls|] eqn:Hcs; [|done].
  intros [= <-] [->|Hv]%elem_of_cons; [exists 0; constructor|].
  assert (Hin : ∀ cs ls', walkChildren (walk fuel adjacency) cs = Some ls' →
            v ∈ ls' → ∃ c, c ∈ cs ∧ reachable adjacency c v).
  { induction cs as [|c cs IHcs]; intros ls'; simpl.
    - intros [= <-] ?%elem_of_nil. done.
    - destruct (walk fuel adjacency c) as [lc|] eqn:Hc; [|done].
      destruct (walkChildren _ cs) as [lcs|]; [|done].
      intros [= <-] [Hv'|Hv']%elem_of_app.
      + exists c. split; [by left|by eapply IH].
      + destruct (IHcs lcs eq_refl Hv') as (c' & Hc' & Hr).
        exists c'. split; [by right|done]. }
  destruct (Hin _ _ Hcs Hv) as (c & Hc & Hr).
  eapply TreeFacts.reachable_trans; [by eapply TreeFacts.reachable_child|done].
Qed.

(** *** [Math.floor(Math.random() * k)] *)

Lemma floor_of_draw_nonneg (r : Q) (k : Z) :
  (0 <= r)%Q → (0 < k)%Z → (0 <= Qfloor (r * inject_Z k))%Z.
Proof.
  intros H0 Hk. change 0%Z with (Qfloor (inject_Z 0)). apply Qfloor_resp_le.
  apply Qmult_le_0_compat; [done|].
  change 0%Q with (inject_Z 0). rewrite <- Zle_Qle. lia.
Qed.

Lemma floor_of_draw (r : Q) (k : Z) :
  (0 <= r)%Q → (r < 1)%Q → (0 < k)%Z →
  (0 <= Qfloor (r * inject_Z k) < k)%Z.
Proof.
  intros H0 H1 Hk. split; [by apply floor_of_draw_nonneg|].
  rewrite Zlt_Qlt. eapply Qle_lt_trans; [apply Qfloor_le|].
  rewrite <- (Qmult_1_l (inject_Z k)) at 2.
  apply Qmult_lt_compat_r; [|done].
  change 0%Q with (inject_Z 0). rewrite <- Zlt_Qlt. lia.
Qed.

Lemma all_tree_ids l : Forall (λ c, isTreeNode c) l → treeIds l = TreeNode.id <$> l.
Proof.
  intros Hl. unfold treeIds. by rewrite BuildFacts.filter_all by by apply Forall_forall.
Qed.

End ShapeFacts.

Import Bfs TreePhysics BuildInv Shape.

(** X8. The decorations come in the numbers that the comments promise:
    with [Math.random()] in [0, 1), [addLeafNodes] hangs 2 to 4 leaves
    on the parent and [addTerminalLeaves] 3 to 6, each a childless node
    with a body of its own in the world, and they draw 1 + 2n and 1 + n
    random numbers for n leaves. Neither can fail. *)
Theorem decorations_come_in_bounded_numbers h (p c : TreeNode.t) (s : State) :
  (∀ i, 0 <= random h i ∧ random h i < 1)%Q →
  (∃ p' s' leaves,
     addLeafNodes h p c s = Some (p', s') ∧
     TreeNode.children p' = TreeNode.children p ++ leaves ∧
     2 ≤ length leaves ≤ 4 ∧ Forall isLeafNode leaves ∧
     length (TreeNode.edges p') = length (TreeNode.edges p) + length leaves ∧
     worldBodies s' = worldBodies s ++ (TreeNode.body <$> leaves) ∧
     draws s' = draws s + 1 + 2 * length leaves) ∧
  (∃ p' s' leaves,
     addTerminalLeaves h p s = Some (p', s') ∧
     TreeNode.children p' = TreeNode.children p ++ leaves ∧
     3 ≤ length leaves ≤ 6 ∧ Forall isLeafNode leaves ∧
     length (TreeNode.edges p') = length (TreeNode.edges p) + length leaves ∧
     worldBodies s' = worldBodies s ++ (TreeNode.body <$> leaves) ∧
     draws s' = draws s + 1 + length leaves).
Proof.
  intros Hrandom. destruct (Hrandom (draws s)) as [H0 H1]. split.
  - assert (Hsome : is_Some (addLeafNodes h p c s)).
    { unfold addLeafNodes, bind, Math_random. apply BuildFacts.addLeafLoop_total. }
    destruct Hsome as [[p' s'] Hrun]. exists p', s'.
    destruct (ShapeFacts.addLeafNodes_shape h p c s p' s' Hrun)
      as [(leaves & es & Hlen & _ & _ & Hc & He & Hlinks & Hleaves & _ & Hwb & _) Hd].
    exists leaves. pose proof (ShapeFacts.floor_of_draw _ 3 H0 H1 eq_refl) as Hf.
    change (inject_Z 3) with 3%Q in Hf.
    pose proof (Forall2_length _ _ _ Hlinks) as Hl.
    split_and!; try done; try lia. rewrite He, length_app. lia.
  - assert (Hsome : is_Some (addTerminalLeaves h p s)).
    { unfold addTerminalLeaves, bind, Math_random.
      apply BuildFacts.addTerminalLoop_total. }
    destruct Hsome as [[p' s'] Hrun]. exists p', s'.
    destruct (ShapeFacts.addTerminalLeaves_shape h p s p' s' Hrun)
      as [(leaves & es & Hlen & _ & _ & Hc & He & Hlinks & Hleaves & _ & Hwb & _) Hd].
    exists leaves. pose proof (ShapeFacts.floor_of_draw _ 4 H0 H1 eq_refl) as Hf.
    change (inject_Z 4) with 4%Q in Hf.
    pose proof (Forall2_length _ _ _ Hlinks) as Hl.
    split_and!; try done; try lia. rewrite He, length_app. lia.
Qed.

Lemma decorations_come_in_bounded_numbers_witness :
  ∃ p' s' leaves,
    addLeafNodes MakeTree.sampleHost (TreeNode.new "A" (Body.mk 1 "A" (None, None)
        CFG.nodeRadius CFG.airFriction "" "" 1 (-1)))
      (TreeNode.new "B" (Body.mk 2 "B" (None, None)
        CFG.nodeRadius CFG.airFriction "" "" 1 (-1))) startState = Some (p', s') ∧
    TreeNode.children p' = leaves ∧ 2 ≤ length leaves ≤ 4.
Proof.
  destruct (decorations_come_in_bounded_numbers MakeTree.sampleHost
              (TreeNode.new "A" (Body.mk 1 "A" (None, None)
                 CFG.nodeRadius CFG.airFriction "" "" 1 (-1)))
              (TreeNode.new "B" (Body.mk 2 "B" (None, None)
                 CFG.nodeRadius CFG.airFriction "" "" 1 (-1))) startState)
    as [(p' & s' & leaves & Hrun & Hc & Hn & _) _].
  { intros i. split; by vm_compute. }
  exists p', s', leaves.
  split; [exact Hrun|]. split; [exact Hc|exact Hn].
Defined.

(** X5. The tree of [TreeNode]s mirrors the adjacency: the children of a
    node built for an id that are themselves built for an id are, in
    order, the nodes of the children of that id; every other child is a
    decoration, without children or edges; and the root, whose depth is
    0, has no decoration at all. *)
Theorem tree_mirrors_adjacency h fuel adjacency rootId scene :
  buildTree h fuel adjacency rootId = Some scene →
  (∀ n, n ∈ Scene.nodes scene → isTreeNode n →
        treeIds (TreeNode.children n) = childrenOf adjacency (TreeNode.id n)) ∧
  (∀ n c, n ∈ Scene.nodes scene → c ∈ TreeNode.children n →
          isTreeNode c = false → isLeafNode c ∧ isTreeNode n) ∧
  isTreeNode (Scene.root scene) ∧ TreeNode.id (Scene.root scene) = rootId ∧
  TreeNode.id <$> TreeNode.children (Scene.root scene)
    = childrenOf adjacency rootId.
Proof.
  intros (depth & shifted & Hbfs & Hbuild)%BuildFacts.buildTree_Some.
  pose proof (BfsFacts.bfsLoop_inv adjacency rootId _ _ _ _ _ _
                (BfsFacts.loopInv_init adjacency rootId) Hbfs) as Hinv.
  destruct (ShapeFacts.buildWith_shape _ _ _ _ _ _ Hbuild) as (Hshape & _).
  rewrite Forall_forall in Hshape.
  destruct (BuildFacts.buildWith_Some _ _ _ _ _ _ Hbuild)
    as (root & s & Hrun & Hok & _ & Htree & _ & _ & Hroot & Hnodes & _).
  apply BuildFacts.buildRec_spec in Hrun as (_ & _ & _ & _ & Hid & _);
    [|apply BuildFacts.stateOk_start].
  assert (Hin : Scene.root scene ∈ Scene.nodes scene).
  { rewrite Hnodes, Hroot, BuildFacts.traverse_unfold. by left. }
  split_and!.
  - intros n Hn Ht. destruct (Hshape n Hn) as [_ Hs].
    destruct (isTreeNode n); [|done]. apply Hs.
  - intros n c Hn Hc Hleaf. destruct (Hshape n Hn) as [_ Hs].
    destruct (isTreeNode n) eqn:Ht.
    + destruct Hs as (_ & Hkinds & _). rewrite Forall_forall in Hkinds.
      split; [by apply Hkinds|done].
    + destruct Hs as [Hnil _]. rewrite Hnil in Hc. by apply elem_of_nil in Hc.
  - by rewrite Hroot.
  - by rewrite Hroot.
  - destruct (Hshape _ Hin) as [_ Hs]. rewrite Hroot in *.
    destruct (isTreeNode root); [|done].
    destruct Hs as (Hids & _ & Hnone & _). rewrite Hid in *.
    rewrite <- Hids. symmetry. apply ShapeFacts.all_tree_ids, Hnone.
    unfold aboveRoot. by rewrite (inv_root _ _ _ _ Hinv).
Qed.

Lemma tree_mirrors_adjacency_witness :
  ∃ scene,
    MakeTree.makeTree MakeTree.sampleHost 6 = Some scene ∧
    TreeNode.id <$> TreeNode.children (Scene.root scene)
      = childrenOf MakeTree.adjacency "root".
Proof.
  eexists. split; [vm_compute; reflexivity|].
  refine (proj2 (proj2 (proj2 (proj2
            (tree_mirrors_adjacency MakeTree.sampleHost 6
               MakeTree.adjacency "root" _ _))))).
  vm_compute; reflexivity.
Defined.

(** X6. [edges] runs parallel to [children] in every node: the n-th
    constraint joins the body of the node to the body of its n-th child,
    with the main spring for a node of the adjacency and the leaf spring
    for a decoration, and it has been added to the world. *)
Theorem edges_run_parallel_to_children h fuel adjacency rootId scene :
  buildTree h fuel adjacency rootId = Some scene →
  ∀ n, n ∈ Scene.nodes scene →
    wired n ∧
    length (TreeNode.edges n) = length (TreeNode.children n) ∧
    ∀ e, e ∈ TreeNode.edges n → e ∈ Scene.worldConstraints scene.
Proof.
  intros (depth & shifted & _ & Hbuild)%BuildFacts.buildTree_Some n Hn.
  destruct (ShapeFacts.buildWith_shape _ _ _ _ _ _ Hbuild) as (Hshape & Hwc & _).
  rewrite Forall_forall in Hshape. destruct (Hshape n Hn) as [Hwired _].
  split_and!; [done|symmetry; by eapply Forall2_length|].
  intros e He. rewrite Hwc. apply elem_of_app. left.
  unfold allEdges. apply list_elem_of_In, in_concat. exists (TreeNode.edges n).
  split; [|by apply list_elem_of_In].
  apply list_elem_of_In, list_elem_of_fmap. by exists n.
Qed.

Lemma edges_run_parallel_to_children_witness :
  ∃ scene,
    MakeTree.makeTree MakeTree.sampleHost 6 = Some scene ∧
    wired (Scene.root scene).
Proof.
  eexists. split; [vm_compute; reflexivity|].
  refine (proj1 (edges_run_parallel_to_children MakeTree.sampleHost 6
                   MakeTree.adjacency "root" _ _ _ _)).
  - vm_compute; reflexivity.
  - by left.
Defined.

(** X7. What [buildTree] adds to the world is what the tree holds, and
    the pin. The constraints it adds are the edges of the nodes, each
    once, and the root pin, so it adds as many constraints as there are
    nodes. The bodies it adds are the bodies of the decorations, each
    once, and the bodies of [CFG.nodeRadius], which are the bodies of
    the nodes built for ids; no body is added twice. (The walls and
    the mouse constraint that the constructor has put in the world are
    not among them.) *)
Theorem buildTree_adds_the_tree_and_the_pin h fuel adjacency rootId scene :
  buildTree h fuel adjacency rootId = Some scene →
  Scene.worldConstraints scene
    ≡ₚ allEdges (Scene.nodes scene) ++ [Scene.rootPin scene] ∧
  length (Scene.worldConstraints scene) = length (Scene.nodes scene) ∧
  Scene.worldBodies scene
    ≡ₚ leafBodies (Scene.nodes scene)
       ++ filter (λ b, isNodeBody b) (Scene.worldBodies scene) ∧
  NoDup (Body.id <$> Scene.worldBodies scene) ∧
  (∀ b, b ∈ filter (λ b, isNodeBody b) (Scene.worldBodies scene)
        ↔ ∃ n, n ∈ Scene.nodes scene ∧ isTreeNode n ∧ TreeNode.body n = b).
Proof.
  intros (depth & shifted & _ & Hbuild)%BuildFacts.buildTree_Some.
  destruct (ShapeFacts.buildWith_shape _ _ _ _ _ _ Hbuild) as (Hshape & Hwc & Hwb).
  destruct (BuildFacts.buildWith_Some _ _ _ _ _ _ Hbuild)
    as (root & s & _ & Hok & _ & _ & _ & _ & _ & Hnodes & _ & Hworld & _).
  split_and!; [done| |done| |].
  - rewrite Hwc, length_app. simpl.
    rewrite Hnodes in *. rewrite <- ShapeFacts.edges_count; [lia|].
    eapply Forall_impl; [exact Hshape|]. intros n [Hwired _].
    symmetry. by eapply Forall2_length.
  - rewrite Hworld. pose proof (ok_ids _ _ Hok) as Hnd.
    eapply NoDup_Permutation_proper; [|exact Hnd].
    rewrite !fmap_app. apply Permutation_app_comm.
  - intros b. rewrite list_elem_of_filter. split.
    + intros [Hnode Hb].
      destruct (BuildFacts.scene_world_bodies _ _ _ _ _ _ _ Hbuild Hb)
        as [_ [Hleaf|(_ & n & Hn & Ht & <- & _)]].
      * exfalso. by eapply BuildFacts.node_not_leaf.
      * by exists n.
    + intros (n & Hn & Ht & <-).
      destruct (BuildFacts.scene_nodes _ _ _ _ _ _ _ Hbuild Hn) as [_ Hin].
      destruct (Hin Ht) as (Hb & _). by split.
Qed.

Lemma buildTree_adds_the_tree_and_the_pin_witness :
  ∃ scene,
    MakeTree.makeTree MakeTree.sampleHost 6 = Some scene ∧
    length (Scene.worldConstraints scene) = length (Scene.nodes scene).
Proof.
  eexists. split; [vm_compute; reflexivity|].
  refine (proj1 (proj2 (buildTree_adds_the_tree_and_the_pin MakeTree.sampleHost 6
                          MakeTree.adjacency "root" _ _))).
  vm_compute; reflexivity.
Defined.

(** X9. The pass at the end of [makeTree] that recolours the nodes
    without children recolours the decorations, all of them, and no node
    of the adjacency except a root that has no children: with
    [Math.random()] not negative, every other node of the adjacency has
    been given children, if only leaves. *)
Theorem restyling_hits_the_decorations h fuel adjacency rootId scene :
  (∀ i, 0 <= random h i)%Q →
  buildTree h fuel adjacency rootId = Some scene →
  (∀ n, n ∈ restyled scene →
        isTreeNode n = false ∨
        (TreeNode.id n = rootId ∧ childrenOf adjacency rootId = [])) ∧
  (∀ n, n ∈ Scene.nodes scene → isTreeNode n = false → n ∈ restyled scene).
Proof.
  intros Hrandom (depth & shifted & Hbfs & Hbuild)%BuildFacts.buildTree_Some.
  pose proof (BfsFacts.bfsLoop_inv adjacency rootId _ _ _ _ _ _
                (BfsFacts.loopInv_init adjacency rootId) Hbfs) as Hinv.
  destruct (ShapeFacts.buildWith_shape _ _ _ _ _ _ Hbuild) as (Hshape & _).
  rewrite Forall_forall in Hshape.
  destruct (BuildFacts.buildWith_Some _ _ _ _ _ _ Hbuild)
    as (root & s & _ & _ & _ & _ & _ & Hwalk & _ & Hnodes & _).
  split.
  - intros n [Hnil Hn]%list_elem_of_filter.
    destruct (isTreeNode n) eqn:Ht; [right|by left].
    destruct (Hshape n Hn) as [_ Hs]. rewrite Ht in Hs.
    destruct Hs as (Hids & _ & _ & Hterm). rewrite Hnil in Hids, Hterm.
    assert (Hreach : reachable adjacency rootId (TreeNode.id n)).
    { eapply ShapeFacts.walk_reachable; [exact Hwalk|]. rewrite <- Hnodes.
      apply TreeFacts.treeIds_elem. exists n. split_and!; [done| |done].
      by rewrite Ht. }
    destruct Hreach as [k Hk].
    destruct (BfsFacts.closed_lower_bound adjacency rootId depth _ k Hinv Hk)
      as (d & Hd & _).
    destruct d as [|d].
    + apply (GraphFacts.depth_zero adjacency rootId depth Hinv) in Hd.
      split; [done|]. by rewrite <- Hd.
    + exfalso. destruct Hterm as [i Hi]; [|done|].
      * unfold aboveRoot. rewrite Hd. apply bool_decide_eq_true. lia.
      * pose proof (ShapeFacts.floor_of_draw_nonneg (random h i) 4 (Hrandom i) eq_refl)
          as Hf.
        change (inject_Z 4) with 4%Q in Hf. change (length []) with 0 in Hi. lia.
  - intros n Hn Ht. apply list_elem_of_filter. split; [|done].
    destruct (Hshape n Hn) as [_ Hs]. rewrite Ht in Hs. apply Hs.
Qed.

Lemma restyling_hits_the_decorations_witness :
  ∃ scene,
    MakeTree.makeTree MakeTree.sampleHost 6 = Some scene ∧
    ∀ n, n ∈ restyled scene →
         isTreeNode n = false ∨
         (TreeNode.id n = "root" ∧ childrenOf MakeTree.adjacency "root" = []).
Proof.
  eexists. split; [vm_compute; reflexivity|].
  refine (proj1 (restyling_hits_the_decorations MakeTree.sampleHost 6
                   MakeTree.adjacency "root" _ _ _)).
  - intros i. by vm_compute.
  - vm_compute; reflexivity.
Defined.

(** * The first layout *)

Module LayoutFacts.
Import Bfs TreePhysics BuildInv Layers Layout.

Lemma layerOf_app depth d l1 l2 :
  layerOf depth d (l1 ++ l2) = layerOf depth d l1 ++ layerOf depth d l2.
Proof. apply filter_app. Qed.

Lemma layerOf_snoc depth d l id :
  length (layerOf depth d (l ++ [id]))
  = length (layerOf depth d l) + (if decide (depthOf depth id = d) then 1 else 0).
Proof.
  rewrite layerOf_app, length_app. f_equal. unfold layerOf.
  rewrite filter_cons, filter_nil. by destruct (decide _).
Qed.

Section Builder.

Variable h : Host.
Variable adjacency : Adjacency.
Variable depth : DepthMap.

Local Abbreviation laid s := (layoutOk h depth (idxByDepth s) (bodyCache s)).

Lemma getBody_laid id s b s' :
  laid s → getBody h depth id s = Some (b, s') → laid s'.
Proof.
  intros [Hidx Hpos]. unfold getBody.
  destruct (cacheGet (bodyCache s) id) eqn:Hget; [by intros [= <- <-]|].
  unfold makeBody, Bodies_circle. simpl. rewrite BuildFacts.cacheGet_cacheSet.
  intros [= <- <-]. simpl. rewrite (BuildFacts.cacheSet_absent _ _ _ Hget).
  split.
  - intros d. rewrite fmap_app. simpl. rewrite layerOf_snoc.
    destruct (decide (depthOf depth id = d)) as [<-|Hne].
    + rewrite lookup_insert_eq. simpl. by rewrite Hidx.
    + rewrite lookup_insert_ne by done. rewrite Hidx. lia.
  - intros i id' b' [Hin|[Hlen Hlast]]%lookup_app_Some.
    + rewrite fmap_app, take_app_le
        by (rewrite length_fmap; apply lookup_lt_Some in Hin; lia).
      by apply Hpos.
    + apply list_lookup_singleton_Some in Hlast as [Hi [= <- <-]].
      assert (i = length (bodyCache s)) as -> by lia.
      rewrite fmap_app, take_app_le, take_ge by (rewrite ?length_fmap; lia).
      simpl. unfold slotOf. by rewrite Hidx.
Qed.

Lemma buildChildren_laid rec id :
  (∀ cid s c s', laid s → rec cid s = Some (c, s') → laid s') →
  ∀ cs node s node' s',
    laid s → buildChildren h depth rec id cs node s = Some (node', s') → laid s'.
Proof.
  intros Hrec cs. induction cs as [|cid cs IH]; intros node s node' s' Hl Hrun.
  - by injection Hrun as <- <-.
  - cbn [buildChildren] in Hrun.
    apply BuildFacts.bind_Some in Hrun as (child & s1 & Hstep & Hrun).
    apply Hrec in Hstep; [|done].
    set (node1 := (TreeNode.addChild node child CFG.spring false).1) in *.
    set (cons := (TreeNode.addChild node child CFG.spring false).2) in *.
    unfold bind at 1, World_add_constraint in Hrun. cbv beta iota in Hrun.
    apply BuildFacts.bind_Some in Hrun as (node2 & s2 & Hleaves & Hrun).
    eapply IH; [|exact Hrun].
    destruct (aboveRoot depth id).
    + apply ShapeFacts.addLeafNodes_shape in Hleaves
        as [(_ & _ & _ & _ & _ & _ & _ & _ & _ & _ & _ & Hcache & Hidx & _) _].
      simpl in Hcache, Hidx. by rewrite Hcache, Hidx.
    + by injection Hleaves as <- <-.
Qed.

Lemma buildRec_laid fuel id s node s' :
  laid s → buildRec h adjacency depth fuel id s = Some (node, s') → laid s'.
Proof.
  revert id s node s'. induction fuel as [|fuel IH]; intros id s node s' Hl Hrun;
    [done|].
  cbn [buildRec] in Hrun.
  apply BuildFacts.bind_Some in Hrun as (b & s1 & Hstep & Hrun).
  apply getBody_laid in Hstep; [|done].
  apply BuildFacts.bind_Some in Hrun as (node1 & s2 & Hkids & Hrun).
  apply (buildChildren_laid _ id (λ cid, IH cid)) in Hkids; [|done].
  destruct (bool_decide _ && aboveRoot depth id).
  - apply ShapeFacts.addTerminalLeaves_shape in Hrun
      as [(_ & _ & _ & _ & _ & _ & _ & _ & _ & _ & _ & Hcache & Hidx & _) _].
    by rewrite Hcache, Hidx.
  - by injection Hrun as <- <-.
Qed.

Lemma laid_start : laid startState.
Proof. split; [done|]. by intros [|i] id b Hi. Qed.

(** The cache stays in the order of creation. *)
Local Abbreviation sorted s := (cacheSorted (nextBodyId s) (bodyCache s)).

Lemma sorted_frame s s' :
  sorted s → bodyCache s' = bodyCache s → nextBodyId s ≤ nextBodyId s' →
  sorted s'.
Proof.
  intros [Hord Hbelow] -> Hnext. split; [done|].
  intros b Hb. specialize (Hbelow b Hb). lia.
Qed.

Lemma getBody_sorted id s b s' :
  sorted s → getBody h depth id s = Some (b, s') → sorted s'.
Proof.
  intros [Hord Hbelow]. unfold getBody.
  destruct (cacheGet (bodyCache s) id) eqn:Hget; [by intros [= <- <-]|].
  unfold makeBody, Bodies_circle. simpl. rewrite BuildFacts.cacheGet_cacheSet.
  intros [= <- <-]. simpl. rewrite (BuildFacts.cacheSet_absent _ _ _ Hget).
  unfold cacheSorted. rewrite fmap_app. simpl. split.
  - intros i j a b' Hij [Hi|[Hlen Hi]]%lookup_app_Some
      [Hj|[Hlen' Hj]]%lookup_app_Some.
    + by eapply Hord.
    + apply list_lookup_singleton_Some in Hj as [_ <-]. simpl.
      apply Hbelow. by eapply list_elem_of_lookup_2.
    + apply lookup_lt_Some in Hj. lia.
    + apply list_lookup_singleton_Some in Hi as [Hi _].
      apply list_lookup_singleton_Some in Hj as [Hj _]. lia.
  - intros b' [Hb|Hb%list_elem_of_singleton]%elem_of_app.
    + specialize (Hbelow b' Hb). lia.
    + subst b'. simpl. lia.
Qed.

Lemma buildChildren_sorted rec id :
  (∀ cid s c s', sorted s → rec cid s = Some (c, s') → sorted s') →
  ∀ cs node s node' s',
    sorted s → buildChildren h depth rec id cs node s = Some (node', s') →
    sorted s'.
Proof.
  intros Hrec cs. induction cs as [|cid cs IH]; intros node s node' s' Hl Hrun.
  - by injection Hrun as <- <-.
  - cbn [buildChildren] in Hrun.
    apply BuildFacts.bind_Some in Hrun as (child & s1 & Hstep & Hrun).
    apply Hrec in Hstep; [|done].
    set (node1 := (TreeNode.addChild node child CFG.spring false).1) in *.
    set (cons := (TreeNode.addChild node child CFG.spring false).2) in *.
    unfold bind at 1, World_add_constraint in Hrun. cbv beta iota in Hrun.
    apply BuildFacts.bind_Some in Hrun as (node2 & s2 & Hleaves & Hrun).
    eapply IH; [|exact Hrun].
    destruct (aboveRoot depth id).
    + apply ShapeFacts.addLeafNodes_shape in Hleaves
        as [(_ & _ & _ & _ & _ & _ & _ & _ & _ & _ & _ & Hcache & _ & Hnext) _].
      simpl in Hcache, Hnext. eapply sorted_frame; [exact Hstep|done|lia].
    + by injection Hleaves as <- <-.
Qed.

Lemma buildRec_sorted fuel id s node s' :
  sorted s → buildRec h adjacency depth fuel id s = Some (node, s') → sorted s'.
Proof.
  revert id s node s'. induction fuel as [|fuel IH]; intros id s node s' Hl Hrun;
    [done|].
  cbn [buildRec] in Hrun.
  apply BuildFacts.bind_Some in Hrun as (b & s1 & Hstep & Hrun).
  apply getBody_sorted in Hstep; [|done].
  apply BuildFacts.bind_Some in Hrun as (node1 & s2 & Hkids & Hrun).
  apply (buildChildren_sorted _ id (λ cid, IH cid)) in Hkids; [|done].
  destruct (bool_decide _ && aboveRoot depth id).
  - apply ShapeFacts.addTerminalLeaves_shape in Hrun
      as [(_ & _ & _ & _ & _ & _ & _ & _ & _ & _ & _ & Hcache & _ & Hnext) _].
    eapply sorted_frame; [exact Hkids|done|lia].
  - by injection Hrun as <- <-.
Qed.

Lemma sorted_start : sorted startState.
Proof. split; [by intros [|i] j a b|]. by intros b ?%elem_of_nil. Qed.

End Builder.

(** *** Ranks within a layer *)

Lemma rank_below depth d keys i id :
  keys !! i = Some id → depthOf depth id = d →
  length (layerOf depth d (take i keys)) < length (layerOf depth d keys).
Proof.
  intros Hi Hd. pose proof (take_drop_middle keys i id Hi) as Hsplit.
  remember (take i keys) as pre. remember (drop (S i) keys) as post.
  rewrite <- Hsplit. unfold layerOf.
  rewrite filter_app, filter_cons, decide_True, length_app by done. simpl. lia.
Qed.

Lemma rank_mono depth d keys i1 i2 id1 :
  keys !! i1 = Some id1 → depthOf depth id1 = d → i1 < i2 →
  length (layerOf depth d (take i1 keys))
  < length (layerOf depth d (take i2 keys)).
Proof.
  intros Hi Hd Hlt.
  assert (Hi' : take i2 keys !! i1 = Some id1) by by rewrite lookup_take_lt.
  pose proof (rank_below depth d (take i2 keys) i1 id1 Hi' Hd) as H.
  by rewrite take_take, Nat.min_l in H by lia.
Qed.

Lemma layer_fits (depth : DepthMap) d keys :
  NoDup keys → (∀ id, id ∈ keys → is_Some (depth !! id)) →
  length (layerOf depth d keys) ≤ size (atDepth depth d).
Proof.
  intros Hnd Hlab. rewrite <- (size_dom (D := gset string)).
  change (size (dom (atDepth depth d)))
    with (length (elements (dom (D := gset string) (atDepth depth d)))).
  apply submseteq_length, NoDup_submseteq; [by apply NoDup_filter|].
  intros id [Hd Hin]%list_elem_of_filter. apply elem_of_elements, elem_of_dom.
  destruct (Hlab id Hin) as [x Hx]. exists x. apply GraphFacts.atDepth_lookup.
  split; [done|]. unfold depthOf in Hd. by rewrite Hx in Hd.
Qed.

(** *** The arithmetic of the slots *)

Lemma ofNat_nonneg n : (0 <= ofNat n)%Q.
Proof. unfold ofNat. change 0%Q with (inject_Z 0). rewrite <- Zle_Qle. lia. Qed.

Lemma ofNat_lt n m : n < m → (ofNat n < ofNat m)%Q.
Proof. intros H. unfold ofNat. rewrite <- Zlt_Qlt. lia. Qed.

Lemma ofNat_inj n m : (ofNat n == ofNat m)%Q → n = m.
Proof. unfold ofNat. intros H. apply (proj1 (inject_Z_injective _ _)) in H. lia. Qed.

Lemma layerY_inj h d1 d2 : (layerY h d1 == layerY h d2)%Q → d1 = d2.
Proof.
  unfold layerY. intros H. apply ofNat_inj.
  set (a := ofNat d1) in *. set (b := ofNat d2) in *. Lqa.lra.
Qed.

Lemma layerY_below h d : (layerY h d <= canvasHeight h - 120)%Q.
Proof.
  unfold layerY. pose proof (ofNat_nonneg d). set (a := ofNat d) in *. Lqa.lra.
Qed.

Lemma slotX_inj h slots k1 k2 :
  ¬ (canvasWidth h == 0)%Q →
  (slotX h slots k1 == slotX h slots k2)%Q → k1 = k2.
Proof.
  intros Hw H. unfold slotX in H. apply Qplus_inj_l in H.
  apply Qmult_inj_r in H; [|intros Hz; apply Hw; Lqa.lra].
  assert (Hc : ¬ (ofNat slots + 1 == 0)%Q).
  { pose proof (ofNat_nonneg slots). set (a := ofNat slots) in *. Lqa.lra. }
  assert (Hk : (ofNat k1 + 1 == ofNat k2 + 1)%Q).
  { rewrite <- (Qmult_div_r (ofNat k1 + 1) _ Hc), H. by apply Qmult_div_r. }
  apply ofNat_inj. set (a := ofNat k1) in *. set (b := ofNat k2) in *. Lqa.lra.
Qed.

Lemma slotX_inside h slots k :
  (0 < canvasWidth h)%Q → k < slots →
  (canvasWidth h * 0.2 < slotX h slots k)%Q ∧
  (slotX h slots k < canvasWidth h * 0.8)%Q.
Proof.
  intros Hw Hk. unfold slotX.
  pose proof (ofNat_nonneg k) as H0. pose proof (ofNat_lt _ _ Hk) as Hlt.
  set (a := ofNat k) in *. set (c := ofNat slots) in *.
  assert (Ht0 : (0 < (a + 1) / (c + 1))%Q).
  { apply Qlt_shift_div_l; Lqa.lra. }
  assert (Ht1 : ((a + 1) / (c + 1) < 1)%Q).
  { apply Qlt_shift_div_r; Lqa.lra. }
  set (t := ((a + 1) / (c + 1))%Q) in *. set (w := canvasWidth h) in *.
  split; Lqa.nra.
Qed.

Lemma slotX_alone h : (slotX h 1 0 == canvasWidth h * 0.5)%Q.
Proof. unfold slotX, ofNat. simpl. field. Qed.

Lemma slotX_mono h slots k1 k2 :
  (0 < canvasWidth h)%Q → k1 < k2 →
  (slotX h slots k1 < slotX h slots k2)%Q.
Proof.
  intros Hw Hk. unfold slotX.
  pose proof (ofNat_nonneg slots) as Hc. pose proof (ofNat_lt _ _ Hk) as Hlt.
  set (a1 := ofNat k1) in *. set (a2 := ofNat k2) in *. set (c := ofNat slots) in *.
  assert (Ht : ((a1 + 1) / (c + 1) < (a2 + 1) / (c + 1))%Q).
  { unfold Qdiv. apply Qmult_lt_compat_r; [|Lqa.lra].
    apply Qinv_lt_0_compat. Lqa.lra. }
  set (t1 := ((a1 + 1) / (c + 1))%Q) in *. set (t2 := ((a2 + 1) / (c + 1))%Q) in *.
  set (w := canvasWidth h) in *. Lqa.nra.
Qed.

(** *** The layout of a finished scene *)

Lemma entry_slot h depth idx cache i id b :
  NoDup cache.*1 → (∀ id, id ∈ cache.*1 → is_Some (depth !! id)) →
  layoutOk h depth idx cache → cache !! i = Some (id, b) →
  ∃ d, depth !! id = Some d ∧
    length (layerOf depth d (take i cache.*1)) < size (atDepth depth d) ∧
    Body.position b
    = (Some (slotX h (size (atDepth depth d))
               (length (layerOf depth d (take i cache.*1)))),
       Some (layerY h d)).
Proof.
  intros Hnd Hlab [_ Hpos] Hi.
  assert (Hkey : cache.*1 !! i = Some id) by by rewrite list_lookup_fmap, Hi.
  destruct (Hlab id) as [d Hd]; [by eapply list_elem_of_lookup_2|].
  assert (Hof : depthOf depth id = d) by (unfold depthOf; by rewrite Hd).
  exists d. split; [done|].
  pose proof (rank_below depth d _ _ _ Hkey Hof) as Hk.
  pose proof (layer_fits depth d _ Hnd Hlab) as Hfit.
  split; [lia|].
  rewrite (Hpos _ _ _ Hi), Hof. unfold slotOf.
  assert (Hcount : countByDepth depth !! d = Some (size (atDepth depth d))).
  { apply GraphFacts.countByDepth_lookup. split; [done|lia]. }
  by rewrite Hcount.
Qed.

Lemma scene_cache h adjacency rootId depth fuel scene :
  loopInv adjacency rootId depth [] →
  buildWith h adjacency depth fuel rootId = Some scene →
  ∃ idx cache,
    NoDup cache.*1 ∧ (∀ id, id ∈ cache.*1 → is_Some (depth !! id)) ∧
    layoutOk h depth idx cache ∧
    ∀ n, n ∈ Scene.nodes scene → isTreeNode n →
      cacheGet cache (TreeNode.id n) = Some (TreeNode.body n).
Proof.
  intros Hfinal Hbuild.
  destruct (BuildFacts.buildWith_Some _ _ _ _ _ _ Hbuild)
    as (root & s & Hrun & Hok & Hnode & _ & Hnew & Hwalk & _ & Hnodes & _).
  exists (idxByDepth s), (bodyCache s). split_and!.
  - apply (ok_keys _ _ Hok).
  - intros id Hid. destruct (Hnew id Hid) as [Hin|Hin];
      [by apply elem_of_nil in Hin|].
    destruct (ShapeFacts.walk_reachable _ _ _ _ _ Hwalk Hin) as [n Hp].
    destruct (BfsFacts.closed_lower_bound adjacency rootId depth _ n Hfinal Hp)
      as (d & Hd & _).
    by exists d.
  - eapply buildRec_laid; [apply laid_start|exact Hrun].
  - intros n Hn Ht. rewrite Hnodes in Hn. unfold nodeOk in Hnode.
    rewrite Forall_forall in Hnode. destruct (Hnode n Hn) as [_ Hloc].
    by destruct (isTreeNode n).
Qed.

(** Every node built for an id sits in a slot of the layer of its id,
    and the slots of two ids of one layer differ. *)
Lemma node_slots h adjacency rootId depth fuel scene :
  loopInv adjacency rootId depth [] →
  buildWith h adjacency depth fuel rootId = Some scene →
  ∃ rank : string → nat,
    (∀ n, n ∈ Scene.nodes scene → isTreeNode n →
       ∃ d, depth !! TreeNode.id n = Some d ∧
         rank (TreeNode.id n) < size (atDepth depth d) ∧
         Body.position (TreeNode.body n)
         = (Some (slotX h (size (atDepth depth d)) (rank (TreeNode.id n))),
            Some (layerY h d))) ∧
    (∀ n1 n2, n1 ∈ Scene.nodes scene → n2 ∈ Scene.nodes scene →
       isTreeNode n1 → isTreeNode n2 →
       depth !! TreeNode.id n1 = depth !! TreeNode.id n2 →
       rank (TreeNode.id n1) = rank (TreeNode.id n2) →
       TreeNode.id n1 = TreeNode.id n2).
Proof.
  intros Hfinal Hbuild.
  destruct (scene_cache _ _ _ _ _ _ Hfinal Hbuild)
    as (idx & cache & Hnd & Hlab & Hlaid & Hnodes).
  assert (Hix : ∀ n, n ∈ Scene.nodes scene → isTreeNode n →
            ∃ i, cache !! i = Some (TreeNode.id n, TreeNode.body n)).
  { intros n Hn Ht. by apply list_elem_of_lookup_1, BuildFacts.cacheGet_Some_elem, Hnodes. }
  set (indexOf := λ id, default 0 (fst <$> list_find (λ k, k = id) cache.*1)).
  assert (Hindex : ∀ i id b, cache !! i = Some (id, b) → (fst <$> list_find (λ k, k = id) cache.*1) = Some i).
  { intros i id b Hi.
    assert (Hkey : cache.*1 !! i = Some id) by by rewrite list_lookup_fmap, Hi.
    destruct (list_find (λ k, k = id) cache.*1) as [[j y]|] eqn:Hfind.
    - apply list_find_Some in Hfind as (Hj & -> & _). simpl. f_equal.
      by eapply NoDup_lookup.
    - apply list_find_None in Hfind. rewrite Forall_forall in Hfind.
      exfalso. eapply Hfind; [by eapply list_elem_of_lookup_2|done]. }
  exists (λ id, length (layerOf depth (depthOf depth id) (take (indexOf id) cache.*1))).
  split.
  - intros n Hn Ht. destruct (Hix n Hn Ht) as [i Hi].
    destruct (entry_slot h depth idx cache i _ _ Hnd Hlab Hlaid Hi)
      as (d & Hd & Hk & Hpos).
    exists d. unfold indexOf. rewrite (Hindex _ _ _ Hi). simpl.
    unfold depthOf. rewrite Hd. simpl. by split_and!.
  - intros n1 n2 Hn1 Hn2 Ht1 Ht2 Hsame Hrank.
    destruct (Hix n1 Hn1 Ht1) as [i1 Hi1]. destruct (Hix n2 Hn2 Ht2) as [i2 Hi2].
    unfold indexOf in Hrank.
    rewrite (Hindex _ _ _ Hi1), (Hindex _ _ _ Hi2) in Hrank. simpl in Hrank.
    assert (Hd : depthOf depth (TreeNode.id n1) = depthOf depth (TreeNode.id n2))
      by (unfold depthOf; by rewrite Hsame).
    rewrite <- Hd in Hrank.
    assert (Hk1 : cache.*1 !! i1 = Some (TreeNode.id n1))
      by by rewrite list_lookup_fmap, Hi1.
    assert (Hk2 : cache.*1 !! i2 = Some (TreeNode.id n2))
      by by rewrite list_lookup_fmap, Hi2.
    destruct (Nat.lt_trichotomy i1 i2) as [Hlt|[->|Hlt]].
    + pose proof (rank_mono depth _ _ _ _ _ Hk1 eq_refl Hlt). lia.
    + congruence.
    + pose proof (rank_mono depth _ _ _ _ _ Hk2 (eq_sym Hd) Hlt). lia.
Qed.

(** Within a layer the bodies stand from left to right in the order in
    which they were made. *)
Lemma node_order h adjacency rootId depth fuel scene :
  loopInv adjacency rootId depth [] →
  buildWith h adjacency depth fuel rootId = Some scene →
  (0 < canvasWidth h)%Q →
  ∀ n1 n2, n1 ∈ Scene.nodes scene → n2 ∈ Scene.nodes scene →
    isTreeNode n1 → isTreeNode n2 →
    depth !! TreeNode.id n1 = depth !! TreeNode.id n2 →
    Body.id (TreeNode.body n1) < Body.id (TreeNode.body n2) →
    ∃ d x1 x2,
      depth !! TreeNode.id n1 = Some d ∧
      Body.position (TreeNode.body n1) = (Some x1, Some (layerY h d)) ∧
      Body.position (TreeNode.body n2) = (Some x2, Some (layerY h d)) ∧
      (x1 < x2)%Q.
Proof.
  intros Hfinal Hbuild Hw n1 n2 Hn1 Hn2 Ht1 Ht2 Hsame Hlt.
  destruct (BuildFacts.buildWith_Some _ _ _ _ _ _ Hbuild)
    as (root & s & Hrun & Hok & Hnode & _ & Hnew & Hwalk & _ & Hnodes & _).
  assert (Hlab : ∀ id, id ∈ (bodyCache s).*1 → is_Some (depth !! id)).
  { intros id Hid. destruct (Hnew id Hid) as [Hin|Hin];
      [by apply elem_of_nil in Hin|].
    destruct (ShapeFacts.walk_reachable _ _ _ _ _ Hwalk Hin) as [n Hp].
    destruct (BfsFacts.closed_lower_bound adjacency rootId depth _ n Hfinal Hp)
      as (d & Hd & _).
    by exists d. }
  assert (Hlaid : layoutOk h depth (idxByDepth s) (bodyCache s)).
  { eapply buildRec_laid; [apply laid_start|exact Hrun]. }
  assert (Hsorted : cacheSorted (nextBodyId s) (bodyCache s)).
  { eapply buildRec_sorted; [apply sorted_start|exact Hrun]. }
  assert (Hix : ∀ n, n ∈ Scene.nodes scene → isTreeNode n →
            ∃ i, bodyCache s !! i = Some (TreeNode.id n, TreeNode.body n)).
  { intros n Hn Ht. apply list_elem_of_lookup_1, BuildFacts.cacheGet_Some_elem.
    rewrite Hnodes in Hn. unfold nodeOk in Hnode. rewrite Forall_forall in Hnode.
    destruct (Hnode n Hn) as [_ Hloc]. by destruct (isTreeNode n). }
  destruct (Hix n1 Hn1 Ht1) as [i1 Hi1]. destruct (Hix n2 Hn2 Ht2) as [i2 Hi2].
  destruct (entry_slot h depth _ _ i1 _ _ (ok_keys _ _ Hok) Hlab Hlaid Hi1)
    as (d1 & Hd1 & _ & Hpos1).
  destruct (entry_slot h depth _ _ i2 _ _ (ok_keys _ _ Hok) Hlab Hlaid Hi2)
    as (d2 & Hd2 & _ & Hpos2).
  assert (d2 = d1) as -> by congruence.
  assert (Hb1 : (bodyCache s).*2 !! i1 = Some (TreeNode.body n1))
    by by rewrite list_lookup_fmap, Hi1.
  assert (Hb2 : (bodyCache s).*2 !! i2 = Some (TreeNode.body n2))
    by by rewrite list_lookup_fmap, Hi2.
  assert (Hk1 : (bodyCache s).*1 !! i1 = Some (TreeNode.id n1))
    by by rewrite list_lookup_fmap, Hi1.
  assert (Hi : i1 < i2).
  { destruct Hsorted as [Hord _].
    destruct (Nat.lt_trichotomy i1 i2) as [?|[->|Hgt]]; [done| |].
    - rewrite Hb1 in Hb2. injection Hb2 as Hb. rewrite Hb in Hlt. lia.
    - pose proof (Hord _ _ _ _ Hgt Hb2 Hb1). lia. }
  exists d1. eexists _, _. split_and!; [done|exact Hpos1|exact Hpos2|].
  apply slotX_mono; [done|].
  eapply rank_mono; [exact Hk1| |done]. unfold depthOf. by rewrite Hd1.
Qed.

Lemma root_layer adjacency rootId depth :
  loopInv adjacency rootId depth [] → size (atDepth depth 0) = 1.
Proof.
  intros Hfinal. assert (atDepth depth 0 = {[ rootId := 0 ]}) as ->;
    [|apply map_size_singleton].
  apply map_eq. intros v. apply option_eq. intros x.
  rewrite GraphFacts.atDepth_lookup, lookup_singleton_Some. split.
  - intros [Hv ->]. by apply (GraphFacts.depth_zero adjacency rootId depth Hfinal) in Hv.
  - intros [<- <-]. split; [|done]. apply (inv_root _ _ _ _ Hfinal).
Qed.

End LayoutFacts.

Import Bfs TreePhysics BuildInv Layers Layout.

(** X10. The first layout is layered. A node built for an id that the
    labelling puts at depth d starts at the height
    [canvas.height - 120 - 90 d], a number, so that the nodes of one
    depth start in a row and deeper ones higher up; and on a canvas of
    positive width each row is filled from left to right in the order
    in which its bodies were made, which is the order in which
    [buildRec] first reaches their ids. *)
Theorem nodes_are_laid_out_in_layers h fuel adjacency rootId scene :
  (0 < canvasWidth h)%Q →
  buildTree h fuel adjacency rootId = Some scene →
  ∃ depth shifted,
    computeDepth (bfsFuel adjacency rootId) adjacency rootId
      = Some (depth, shifted) ∧
    (∀ n, n ∈ Scene.nodes scene → isTreeNode n →
       ∃ d x, depth !! TreeNode.id n = Some d ∧
         Body.position (TreeNode.body n) = (Some x, Some (layerY h d))) ∧
    (∀ n1 n2, n1 ∈ Scene.nodes scene → n2 ∈ Scene.nodes scene →
       isTreeNode n1 → isTreeNode n2 →
       depth !! TreeNode.id n1 = depth !! TreeNode.id n2 →
       Body.id (TreeNode.body n1) < Body.id (TreeNode.body n2) →
       ∃ x1 x2 y,
         Body.position (TreeNode.body n1) = (Some x1, Some y) ∧
         Body.position (TreeNode.body n2) = (Some x2, Some y) ∧
         (x1 < x2)%Q).
Proof.
  intros Hw (depth & shifted & Hbfs & Hbuild)%BuildFacts.buildTree_Some.
  exists depth, shifted. split; [done|].
  pose proof (BfsFacts.bfsLoop_inv adjacency rootId _ _ _ _ _ _
                (BfsFacts.loopInv_init adjacency rootId) Hbfs) as Hinv.
  split.
  - destruct (LayoutFacts.node_slots _ _ _ _ _ _ Hinv Hbuild) as (rank & Hslot & _).
    intros n Hn Ht. destruct (Hslot n Hn Ht) as (d & Hd & Hk & Hpos).
    by eexists d, _.
  - intros n1 n2 Hn1 Hn2 Ht1 Ht2 Hsame Hlt.
    destruct (LayoutFacts.node_order _ _ _ _ _ _ Hinv Hbuild Hw
                n1 n2 Hn1 Hn2 Ht1 Ht2 Hsame Hlt)
      as (d & x1 & x2 & _ & Hp1 & Hp2 & Hx).
    by eexists x1, x2, _.
Qed.

Lemma nodes_are_laid_out_in_layers_witness :
  ∃ scene,
    MakeTree.makeTree MakeTree.sampleHost 6 = Some scene ∧
    ∃ depth shifted,
      computeDepth (bfsFuel MakeTree.adjacency "root") MakeTree.adjacency "root"
        = Some (depth, shifted) ∧
      (∀ n, n ∈ Scene.nodes scene → isTreeNode n →
         ∃ d x, depth !! TreeNode.id n = Some d ∧
           Body.position (TreeNode.body n)
           = (Some x, Some (layerY MakeTree.sampleHost d))) ∧
      (∀ n1 n2, n1 ∈ Scene.nodes scene → n2 ∈ Scene.nodes scene →
         isTreeNode n1 → isTreeNode n2 →
         depth !! TreeNode.id n1 = depth !! TreeNode.id n2 →
         Body.id (TreeNode.body n1) < Body.id (TreeNode.body n2) →
         ∃ x1 x2 y,
           Body.position (TreeNode.body n1) = (Some x1, Some y) ∧
           Body.position (TreeNode.body n2) = (Some x2, Some y) ∧
           (x1 < x2)%Q).
Proof.
  eexists. split; [vm_compute; reflexivity|].
  refine (nodes_are_laid_out_in_layers MakeTree.sampleHost 6
            MakeTree.adjacency "root" _ _ _).
  - by vm_compute.
  - vm_compute; reflexivity.
Defined.

(** X11. No two ids start at the same point: on a canvas whose width is
    not 0, and in exact arithmetic, two nodes built for ids start at the
    same point exactly when they are built for the same id. *)
Theorem node_bodies_start_apart h fuel adjacency rootId scene :
  ¬ (canvasWidth h == 0)%Q →
  buildTree h fuel adjacency rootId = Some scene →
  ∀ n1 n2, n1 ∈ Scene.nodes scene → n2 ∈ Scene.nodes scene →
    isTreeNode n1 → isTreeNode n2 →
    (samePoint (Body.position (TreeNode.body n1))
               (Body.position (TreeNode.body n2))
     ↔ TreeNode.id n1 = TreeNode.id n2).
Proof.
  intros Hw (depth & shifted & Hbfs & Hbuild)%BuildFacts.buildTree_Some.
  pose proof (BfsFacts.bfsLoop_inv adjacency rootId _ _ _ _ _ _
                (BfsFacts.loopInv_init adjacency rootId) Hbfs) as Hinv.
  destruct (LayoutFacts.node_slots _ _ _ _ _ _ Hinv Hbuild) as (rank & Hslot & Hrank).
  intros n1 n2 Hn1 Hn2 Ht1 Ht2.
  destruct (Hslot n1 Hn1 Ht1) as (d1 & Hd1 & Hk1 & Hpos1).
  destruct (Hslot n2 Hn2 Ht2) as (d2 & Hd2 & Hk2 & Hpos2).
  rewrite Hpos1, Hpos2. simpl. split.
  - intros [Hx Hy]. apply LayoutFacts.layerY_inj in Hy as <-.
    apply LayoutFacts.slotX_inj in Hx; [|done].
    apply Hrank; try done. by rewrite Hd1, Hd2.
  - intros Hid. rewrite Hid in Hd1. rewrite Hd1 in Hd2. injection Hd2 as <-.
    by rewrite Hid.
Qed.

Lemma node_bodies_start_apart_witness :
  ∃ scene,
    MakeTree.makeTree MakeTree.sampleHost 6 = Some scene ∧
    ∀ n1 n2, n1 ∈ Scene.nodes scene → n2 ∈ Scene.nodes scene →
      isTreeNode n1 → isTreeNode n2 →
      (samePoint (Body.position (TreeNode.body n1))
                 (Body.position (TreeNode.body n2))
       ↔ TreeNode.id n1 = TreeNode.id n2).
Proof.
  eexists. split; [vm_compute; reflexivity|].
  refine (node_bodies_start_apart MakeTree.sampleHost 6
            MakeTree.adjacency "root" _ _ _).
  - by vm_compute.
  - vm_compute; reflexivity.
Defined.

(** X12. On a canvas of positive width every node built for an id starts
    strictly inside the middle 60% of the canvas, between 0.2 and 0.8
    of its width, and no higher on the screen than 120 above the
    bottom edge allows: its y is at most [canvas.height - 120]. *)
Theorem nodes_start_inside_the_spread h fuel adjacency rootId scene :
  (0 < canvasWidth h)%Q →
  buildTree h fuel adjacency rootId = Some scene →
  ∀ n, n ∈ Scene.nodes scene → isTreeNode n →
    ∃ x y, Body.position (TreeNode.body n) = (Some x, Some y) ∧
      (canvasWidth h * 0.2 < x)%Q ∧ (x < canvasWidth h * 0.8)%Q ∧
      (y <= canvasHeight h - 120)%Q.
Proof.
  intros Hw (depth & shifted & Hbfs & Hbuild)%BuildFacts.buildTree_Some.
  pose proof (BfsFacts.bfsLoop_inv adjacency rootId _ _ _ _ _ _
                (BfsFacts.loopInv_init adjacency rootId) Hbfs) as Hinv.
  destruct (LayoutFacts.node_slots _ _ _ _ _ _ Hinv Hbuild) as (rank & Hslot & _).
  intros n Hn Ht. destruct (Hslot n Hn Ht) as (d & Hd & Hk & Hpos).
  eexists _, _. split; [exact Hpos|].
  destruct (LayoutFacts.slotX_inside h _ _ Hw Hk) as [Hlo Hhi].
  split_and!; [done|done|apply LayoutFacts.layerY_below].
Qed.

Lemma nodes_start_inside_the_spread_witness :
  ∃ scene,
    MakeTree.makeTree MakeTree.sampleHost 6 = Some scene ∧
    ∃ x y, Body.position (TreeNode.body (Scene.root scene)) = (Some x, Some y) ∧
      (800 * 0.2 < x)%Q ∧ (x < 800 * 0.8)%Q ∧ (y <= 600 - 120)%Q.
Proof.
  eexists. split; [vm_compute; reflexivity|].
  refine (nodes_start_inside_the_spread MakeTree.sampleHost 6
            MakeTree.adjacency "root" _ _ _ _ _ _).
  - by vm_compute.
  - vm_compute; reflexivity.
  - by left.
  - by vm_compute.
Defined.

(** X13. The root starts right above its pin: alone in the layer of
    depth 0, it is given the middle of the canvas, where the pin is,
    and starts 20 above the point [canvas.height - 100] to which the
    pin, of length 0, holds it. *)
Theorem root_starts_above_its_pin h fuel adjacency rootId scene :
  buildTree h fuel adjacency rootId = Some scene →
  ∃ x y px py,
    Body.position (TreeNode.body (Scene.root scene)) = (Some x, Some y) ∧
    Constraint.pointA (Scene.rootPin scene) = Some (px, py) ∧
    Constraint.bodyB (Scene.rootPin scene) = TreeNode.body (Scene.root scene) ∧
    (Constraint.length (Scene.rootPin scene) == 0)%Q ∧
    (x == px)%Q ∧ (y == py - 20)%Q ∧ (py == canvasHeight h - 100)%Q.
Proof.
  intros (depth & shifted & Hbfs & Hbuild)%BuildFacts.buildTree_Some.
  pose proof (BfsFacts.bfsLoop_inv adjacency rootId _ _ _ _ _ _
                (BfsFacts.loopInv_init adjacency rootId) Hbfs) as Hinv.
  destruct (LayoutFacts.node_slots _ _ _ _ _ _ Hinv Hbuild) as (rank & Hslot & _).
  destruct (BuildFacts.buildWith_Some _ _ _ _ _ _ Hbuild)
    as (root & s & Hrun & _ & _ & Htree & _ & _ & Hroot & Hnodes & _).
  pose proof Hrun as Hspec.
  apply BuildFacts.buildRec_spec in Hspec as (_ & _ & _ & _ & Hid & _);
    [|apply BuildFacts.stateOk_start].
  destruct (Hslot root) as (d & Hd & Hk & Hpos); [|done|].
  { rewrite Hnodes, BuildFacts.traverse_unfold. by left. }
  rewrite Hid, (inv_root _ _ _ _ Hinv) in Hd. injection Hd as <-.
  rewrite (LayoutFacts.root_layer _ _ _ Hinv) in Hk, Hpos.
  assert (rank (TreeNode.id root) = 0) as Hzero by lia. rewrite Hzero in Hpos.
  unfold buildWith in Hbuild. rewrite Hrun in Hbuild. injection Hbuild as <-.
  simpl. eexists _, _, _, _. split; [exact Hpos|]. split; [reflexivity|].
  split_and!; [done|done|apply LayoutFacts.slotX_alone| |done].
  unfold layerY, ofNat. change (inject_Z (Z.of_nat 0)) with 0%Q.
  set (H := canvasHeight h). Lqa.lra.
Qed.

Lemma root_starts_above_its_pin_witness :
  ∃ scene,
    MakeTree.makeTree MakeTree.sampleHost 6 = Some scene ∧
    ∃ x y px py,
      Body.position (TreeNode.body (Scene.root scene)) = (Some x, Some y) ∧
      Constraint.pointA (Scene.rootPin scene) = Some (px, py) ∧
      Constraint.bodyB (Scene.rootPin scene) = TreeNode.body (Scene.root scene) ∧
      (Constraint.length (Scene.rootPin scene) == 0)%Q ∧
      (x == px)%Q ∧ (y == py - 20)%Q ∧ (py == 600 - 100)%Q.
Proof.
  eexists. split; [vm_compute; reflexivity|].
  refine (root_starts_above_its_pin MakeTree.sampleHost 6
            MakeTree.adjacency "root" _ _).
  vm_compute; reflexivity.
Defined.

(** * Where the decorations start *)

Module PlaceFacts.
Import Bfs TreePhysics BuildInv Shape Layers Layout.

Section Builder.

Variable h : Host.
Variable adjacency : Adjacency.
Variable depth : DepthMap.

(** The leaves of [addLeafNodes] start at the middle of the branch,
    moved by two draws. *)
Lemma addLeafLoop_place n i p c s p' s' px py cx cy :
  Body.position (TreeNode.body p) = (Some px, Some py) →
  Body.position (TreeNode.body c) = (Some cx, Some cy) →
  addLeafLoop h n i p c s = Some (p', s') →
  ∃ leaves,
    TreeNode.children p' = TreeNode.children p ++ leaves ∧ length leaves = n ∧
    Forall (λ l, ∃ j1 j2,
              Body.position (TreeNode.body l)
              = (Some ((px + cx) * 0.5 + (random h j1 - 0.5) * 60)%Q,
                 Some ((py + cy) * 0.5 + (random h j2 - 0.5) * 40)%Q)) leaves.
Proof.
  intros Hp Hc. revert i p s Hp. induction n as [|n IH]; intros i p s Hp Hrun.
  - injection Hrun as <- <-. exists []. by rewrite app_nil_r.
  - cbn [addLeafLoop] in Hrun.
    unfold bind, Math_random, Bodies_circle, addLeafToWorld in Hrun.
    cbv beta iota in Hrun.
    apply IH in Hrun as (leaves & Hkids & Hlen & Hall); [|done].
    simpl in Hkids.
    match type of Hkids with
    | _ = (_ ++ [?leaf]) ++ _ => exists (leaf :: leaves)
    end.
    split_and!; [by rewrite Hkids, <- app_assoc|simpl; by rewrite Hlen|].
    apply Forall_cons. split; [|done].
    simpl. rewrite Hp, Hc. simpl. by eexists _, _.
Qed.

(** The leaves of [addTerminalLeaves] start around the node, leaf
    [i + k] at the angle of its index and at a distance of 25 plus up
    to 20. *)
Lemma addTerminalLoop_place numLeaves n i p s p' s' nx ny :
  Body.position (TreeNode.body p) = (Some nx, Some ny) →
  addTerminalLoop h numLeaves n i p s = Some (p', s') →
  ∃ leaves,
    TreeNode.children p' = TreeNode.children p ++ leaves ∧ length leaves = n ∧
    ∀ k l, leaves !! k = Some l →
      ∃ j,
        Body.position (TreeNode.body l)
        = (Some (nx + Math_cos h ((ofNat (i + k) / inject_Z numLeaves)
                                  * Math_PI h * 2)
                      * (25 + random h j * 20))%Q,
           Some (ny + Math_sin h ((ofNat (i + k) / inject_Z numLeaves)
                                  * Math_PI h * 2)
                      * (25 + random h j * 20))%Q).
Proof.
  revert i p s. induction n as [|n IH]; intros i p s Hp Hrun.
  - injection Hrun as <- <-. exists []. rewrite app_nil_r.
    split_and!; [done|done|]. by intros [|k] l Hl.
  - cbn [addTerminalLoop] in Hrun.
    unfold bind, Math_random, Bodies_circle, addLeafToWorld in Hrun.
    cbv beta iota in Hrun.
    apply IH in Hrun as (leaves & Hkids & Hlen & Hall); [|done].
    simpl in Hkids.
    match type of Hkids with
    | _ = (_ ++ [?leaf]) ++ _ => exists (leaf :: leaves)
    end.
    split_and!; [by rewrite Hkids, <- app_assoc|simpl; by rewrite Hlen|].
    intros [|k] l Hl.
    + injection Hl as <-. simpl. rewrite Hp. simpl. rewrite Nat.add_0_r.
      by eexists.
    + simpl in Hl. destruct (Hall k l Hl) as [j Hj]. exists j.
      by rewrite <- Nat.add_succ_comm.
Qed.

(** *** No position is [NaN] *)

Local Abbreviation cachedNumeric s :=
  (∀ id b, cacheGet (bodyCache s) id = Some b → numeric (Body.position b)).
Local Abbreviation worldNumeric s :=
  (∀ b, b ∈ worldBodies s → numeric (Body.position b)).

Lemma addLeafNodes_numeric p c s p' s' :
  numeric (Body.position (TreeNode.body p)) →
  numeric (Body.position (TreeNode.body c)) →
  addLeafNodes h p c s = Some (p', s') →
  worldNumeric s → worldNumeric s'.
Proof.
  intros (px & py & Hp) (cx & cy & Hc) Hrun.
  destruct (ShapeFacts.addLeafNodes_shape _ _ _ _ _ _ Hrun)
    as [(leaves & es & _ & _ & _ & Hkids & _ & _ & _ & _ & Hwb & _) _].
  unfold addLeafNodes, bind, Math_random in Hrun.
  destruct (addLeafLoop_place _ _ _ _ _ _ _ _ _ _ _ Hp Hc Hrun)
    as (leaves' & Hkids' & _ & Hall).
  simpl in Hwb. rewrite Hkids in Hkids'. apply app_inv_head in Hkids' as <-.
  intros Hw b. rewrite Hwb.
  intros [Hb'|(l & -> & Hl)%list_elem_of_fmap]%elem_of_app; [by apply Hw|].
  rewrite Forall_forall in Hall. destruct (Hall l Hl) as (j1 & j2 & ->).
  by eexists _, _.
Qed.

Lemma addTerminalLeaves_numeric p s p' s' :
  numeric (Body.position (TreeNode.body p)) →
  addTerminalLeaves h p s = Some (p', s') →
  worldNumeric s → worldNumeric s'.
Proof.
  intros (nx & ny & Hp) Hrun.
  destruct (ShapeFacts.addTerminalLeaves_shape _ _ _ _ _ Hrun)
    as [(leaves & es & _ & _ & _ & Hkids & _ & _ & _ & _ & Hwb & _) _].
  unfold addTerminalLeaves, bind, Math_random in Hrun.
  destruct (addTerminalLoop_place _ _ _ _ _ _ _ _ _ Hp Hrun)
    as (leaves' & Hkids' & _ & Hall).
  simpl in Hwb. rewrite Hkids in Hkids'. apply app_inv_head in Hkids' as <-.
  intros Hw b. rewrite Hwb.
  intros [Hb'|(l & -> & Hl)%list_elem_of_fmap]%elem_of_app; [by apply Hw|].
  apply list_elem_of_lookup_1 in Hl as [k Hk].
  destruct (Hall k l Hk) as (j & ->). by eexists _, _.
Qed.

Lemma getBody_cached id s b s' :
  getBody h depth id s = Some (b, s') →
  cacheLe s s' ∧ cacheGet (bodyCache s') id = Some b ∧
  worldBodies s' = worldBodies s.
Proof.
  unfold getBody. destruct (cacheGet (bodyCache s) id) eqn:Hget.
  - intros [= <- <-]. split; [apply BuildFacts.cacheLe_refl|done].
  - unfold makeBody, Bodies_circle. simpl. rewrite BuildFacts.cacheGet_cacheSet.
    intros [= <- <-]. simpl. split_and!; [|apply BuildFacts.cacheGet_cacheSet|done].
    intros id' b' Hin. simpl.
    by rewrite (BuildFacts.cacheSet_absent _ _ _ Hget), BuildFacts.cacheGet_app, Hin.
Qed.

Local Abbreviation cachedRec rec :=
  (∀ cid s c s', rec cid s = Some (c, s') →
     cacheLe s s' ∧ cacheGet (bodyCache s') cid = Some (TreeNode.body c)).

Lemma buildChildren_cached (rec : string → M TreeNode.t) id :
  cachedRec rec →
  ∀ cs node s node' s',
    buildChildren h depth rec id cs node s = Some (node', s') →
    cacheLe s s' ∧ TreeNode.body node' = TreeNode.body node.
Proof.
  intros Hrec cs. induction cs as [|cid cs IH]; intros node s node' s' Hrun.
  - injection Hrun as <- <-. split; [apply BuildFacts.cacheLe_refl|done].
  - cbn [buildChildren] in Hrun.
    apply BuildFacts.bind_Some in Hrun as (child & s1 & Hstep & Hrun).
    apply Hrec in Hstep as [Hle1 _].
    set (node1 := (TreeNode.addChild node child CFG.spring false).1) in *.
    set (cons := (TreeNode.addChild node child CFG.spring false).2) in *.
    unfold bind at 1, World_add_constraint in Hrun. cbv beta iota in Hrun.
    apply BuildFacts.bind_Some in Hrun as (node2 & s2 & Hleaves & Hrun).
    apply IH in Hrun as [Hle2 Hbody].
    assert (Hmid : bodyCache s2 = bodyCache s1 ∧
                   TreeNode.body node2 = TreeNode.body node).
    { destruct (aboveRoot depth id).
      - apply ShapeFacts.addLeafNodes_shape in Hleaves
          as [(_ & _ & _ & _ & Hb & _ & _ & _ & _ & _ & _ & Hcache & _) _].
        by split.
      - by injection Hleaves as <- <-. }
    destruct Hmid as [Hcache Hb2]. split; [|congruence].
    eapply BuildFacts.cacheLe_trans; [exact Hle1|].
    eapply BuildFacts.cacheLe_trans; [|exact Hle2].
    by apply BuildFacts.cacheLe_same.
Qed.

Lemma buildRec_cached fuel : cachedRec (buildRec h adjacency depth fuel).
Proof.
  induction fuel as [|fuel IH]; intros id s node s' Hrun; [done|].
  cbn [buildRec] in Hrun.
  apply BuildFacts.bind_Some in Hrun as (b & s1 & Hstep & Hrun).
  apply getBody_cached in Hstep as (Hle1 & Hget & _).
  apply BuildFacts.bind_Some in Hrun as (node1 & s2 & Hkids & Hrun).
  apply (buildChildren_cached _ id IH) in Hkids as [Hle2 Hb1]. simpl in Hb1.
  assert (Hend : bodyCache s' = bodyCache s2 ∧
                 TreeNode.body node = TreeNode.body node1).
  { destruct (bool_decide _ && aboveRoot depth id).
    - apply ShapeFacts.addTerminalLeaves_shape in Hrun
        as [(_ & _ & _ & _ & Hb & _ & _ & _ & _ & _ & _ & Hcache & _) _].
      by split.
    - by injection Hrun as <- <-. }
  destruct Hend as [Hcache Hb]. split.
  - eapply BuildFacts.cacheLe_trans; [exact Hle1|].
    eapply BuildFacts.cacheLe_trans; [exact Hle2|].
    by apply BuildFacts.cacheLe_same.
  - rewrite Hcache, Hb, Hb1. by apply Hle2.
Qed.

Local Abbreviation numericRec rec :=
  (∀ cid s c s', rec cid s = Some (c, s') →
     cachedNumeric s' → worldNumeric s → worldNumeric s').

Lemma buildChildren_numeric (rec : string → M TreeNode.t) id :
  cachedRec rec → numericRec rec →
  ∀ cs node s node' s',
    numeric (Body.position (TreeNode.body node)) →
    buildChildren h depth rec id cs node s = Some (node', s') →
    cachedNumeric s' → worldNumeric s → worldNumeric s'.
Proof.
  intros Hrec Hnum cs. induction cs as [|cid cs IH];
    intros node s node' s' Hnode Hrun Hcached Hworld.
  - by injection Hrun as <- <-.
  - cbn [buildChildren] in Hrun.
    apply BuildFacts.bind_Some in Hrun as (child & s1 & Hstep & Hrun).
    pose proof (Hrec _ _ _ _ Hstep) as [_ Hchild].
    set (node1 := (TreeNode.addChild node child CFG.spring false).1) in *.
    set (cons := (TreeNode.addChild node child CFG.spring false).2) in *.
    unfold bind at 1, World_add_constraint in Hrun. cbv beta iota in Hrun.
    apply BuildFacts.bind_Some in Hrun as (node2 & s2 & Hleaves & Hrun).
    pose proof (buildChildren_cached _ id Hrec _ _ _ _ _ Hrun) as [Hle2 _].
    assert (Hmid : bodyCache s2 = bodyCache s1 ∧
                   TreeNode.body node2 = TreeNode.body node).
    { destruct (aboveRoot depth id).
      - apply ShapeFacts.addLeafNodes_shape in Hleaves
          as [(_ & _ & _ & _ & Hb & _ & _ & _ & _ & _ & _ & Hcache & _) _].
        by split.
      - by injection Hleaves as <- <-. }
    destruct Hmid as [Hcache Hb2].
    assert (Hcached1 : cachedNumeric s1).
    { intros k b Hk. apply (Hcached k). apply Hle2. by rewrite Hcache. }
    pose proof (Hnum _ _ _ _ Hstep Hcached1 Hworld) as Hworld1.
    eapply IH; [|exact Hrun|done|].
    + by rewrite Hb2.
    + destruct (aboveRoot depth id).
      * eapply addLeafNodes_numeric; [| |exact Hleaves|done]; [done|].
        eapply Hcached1, Hchild.
      * by injection Hleaves as <- <-.
Qed.

Lemma buildRec_numeric fuel : numericRec (buildRec h adjacency depth fuel).
Proof.
  induction fuel as [|fuel IH]; intros id s node s' Hrun Hcached Hworld; [done|].
  cbn [buildRec] in Hrun.
  apply BuildFacts.bind_Some in Hrun as (b & s1 & Hstep & Hrun).
  apply getBody_cached in Hstep as (Hle1 & Hget & Hwb1).
  apply BuildFacts.bind_Some in Hrun as (node1 & s2 & Hkids & Hrun).
  pose proof (buildChildren_cached _ id (buildRec_cached fuel) _ _ _ _ _ Hkids)
    as [Hle2 Hb1].
  simpl in Hb1.
  assert (Hcache : bodyCache s' = bodyCache s2).
  { destruct (bool_decide _ && aboveRoot depth id).
    - by apply ShapeFacts.addTerminalLeaves_shape in Hrun
        as [(_ & _ & _ & _ & _ & _ & _ & _ & _ & _ & _ & Hcache & _) _].
    - by injection Hrun as <- <-. }
  assert (Hcached2 : cachedNumeric s2).
  { intros k b' Hk. apply (Hcached k). by rewrite Hcache. }
  assert (Hb : numeric (Body.position b)) by (eapply Hcached2, Hle2, Hget).
  assert (Hworld2 : worldNumeric s2).
  { eapply (buildChildren_numeric _ id (buildRec_cached fuel) IH);
      [|exact Hkids|done|].
    - done.
    - intros b' Hb'. apply Hworld. by rewrite <- Hwb1. }
  destruct (bool_decide _ && aboveRoot depth id).
  - eapply addTerminalLeaves_numeric; [|exact Hrun|done]. by rewrite Hb1.
  - by injection Hrun as <- <-.
Qed.

End Builder.

(** Every body that a finished scene holds starts at numbers. *)
Lemma scene_numeric h adjacency rootId depth fuel scene :
  loopInv adjacency rootId depth [] →
  buildWith h adjacency depth fuel rootId = Some scene →
  ∀ b, b ∈ Scene.worldBodies scene → numeric (Body.position b).
Proof.
  intros Hfinal Hbuild.
  destruct (BuildFacts.buildWith_Some _ _ _ _ _ _ Hbuild)
    as (root & s & Hrun & Hok & _ & _ & Hnew & Hwalk & _ & _ & _ & Hwb & _).
  assert (Hlab : ∀ id, id ∈ (bodyCache s).*1 → is_Some (depth !! id)).
  { intros id Hid. destruct (Hnew id Hid) as [Hin|Hin];
      [by apply elem_of_nil in Hin|].
    destruct (ShapeFacts.walk_reachable _ _ _ _ _ Hwalk Hin) as [n Hp].
    destruct (BfsFacts.closed_lower_bound adjacency rootId depth _ n Hfinal Hp)
      as (d & Hd & _).
    by exists d. }
  assert (Hlaid : layoutOk h depth (idxByDepth s) (bodyCache s)).
  { eapply LayoutFacts.buildRec_laid; [apply LayoutFacts.laid_start|exact Hrun]. }
  assert (Hcached : ∀ id b, (id, b) ∈ bodyCache s → numeric (Body.position b)).
  { intros id b [i Hi]%list_elem_of_lookup_1.
    destruct (LayoutFacts.entry_slot h depth _ _ i _ _ (ok_keys _ _ Hok) Hlab Hlaid Hi)
      as (d & _ & _ & ->).
    by eexists _, _. }
  intros b. rewrite Hwb. intros [Hb|([id b'] & -> & Hb)%list_elem_of_fmap]%elem_of_app.
  - eapply (buildRec_numeric h adjacency depth fuel); [exact Hrun| |by intros ? ?%elem_of_nil|done].
    intros id b' Hget. eapply Hcached, BuildFacts.cacheGet_Some_elem, Hget.
  - by eapply Hcached.
Qed.

(** The cosine and sine of the turning host lie on the unit circle. *)
Lemma turning_unit (a : Q) :
  (Math_cos MoreInputs.turningHost a * Math_cos MoreInputs.turningHost a
   + Math_sin MoreInputs.turningHost a * Math_sin MoreInputs.turningHost a
   == 1)%Q.
Proof.
  simpl. field. assert (0 <= a * a)%Q by Lqa.nra. Lqa.lra.
Qed.

End PlaceFacts.

Import Bfs TreePhysics BuildInv Shape Layers Layout.

(** X14. No body starts at [NaN]: every body that [buildTree] adds to the
    world, and the body of every node of the tree, starts at a position
    made of two numbers. For the nodes of the adjacency this rests on
    [counts] having an entry for the depth of every id that [buildRec]
    reaches; for the decorations, on their being placed from the
    positions of such nodes. *)
Theorem no_body_starts_at_nan h fuel adjacency rootId scene :
  buildTree h fuel adjacency rootId = Some scene →
  (∀ b, b ∈ Scene.worldBodies scene → numeric (Body.position b)) ∧
  (∀ n, n ∈ Scene.nodes scene → numeric (Body.position (TreeNode.body n))) ∧
  (∀ b, b ∈ Scene.nodeBodies scene → numeric (Body.position b)).
Proof.
  intros (depth & shifted & Hbfs & Hbuild)%BuildFacts.buildTree_Some.
  pose proof (BfsFacts.bfsLoop_inv adjacency rootId _ _ _ _ _ _
                (BfsFacts.loopInv_init adjacency rootId) Hbfs) as Hinv.
  pose proof (PlaceFacts.scene_numeric _ _ _ _ _ _ Hinv Hbuild) as Hworld.
  assert (Hnodes : ∀ n, n ∈ Scene.nodes scene →
            numeric (Body.position (TreeNode.body n))).
  { intros n Hn. apply Hworld. destruct (isTreeNode n) eqn:Ht.
    - destruct (BuildFacts.scene_nodes _ _ _ _ _ _ _ Hbuild Hn) as [_ Hin].
      apply Hin. by rewrite Ht.
    - destruct (ShapeFacts.buildWith_shape _ _ _ _ _ _ Hbuild) as (_ & _ & Hwb).
      rewrite Hwb. apply elem_of_app. left. unfold leafBodies.
      apply list_elem_of_fmap. exists n. split; [done|].
      by apply list_elem_of_filter. }
  split_and!; [done|done|].
  destruct (BuildFacts.buildWith_Some _ _ _ _ _ _ Hbuild)
    as (root & s & _ & _ & _ & _ & _ & _ & _ & Hn & Hnb & _).
  intros b. rewrite Hnb, <- Hn. intros (n & -> & Hin)%list_elem_of_fmap.
  by apply Hnodes.
Qed.

Lemma no_body_starts_at_nan_witness :
  ∃ scene,
    MakeTree.makeTree MakeTree.sampleHost 6 = Some scene ∧
    ∀ b, b ∈ Scene.worldBodies scene → numeric (Body.position b).
Proof.
  eexists. split; [vm_compute; reflexivity|].
  refine (proj1 (no_body_starts_at_nan MakeTree.sampleHost 6
                   MakeTree.adjacency "root" _ _)).
  vm_compute; reflexivity.
Defined.

(** X15. The leaves that [addLeafNodes] hangs on a branch start near its
    middle: with [Math.random()] in [0, 1) and parent and child at
    moderate numbers, every leaf starts within 30 to the left or
    right, and within 20 above or below, of the point half way
    between the parent and the child, with [room] for the rounding of
    binary64. *)
Theorem leaves_start_near_the_branch h (p c : TreeNode.t) (s : State)
    (px py cx cy : Q) :
  (∀ i, 0 <= random h i ∧ random h i < 1)%Q →
  Body.position (TreeNode.body p) = (Some px, Some py) →
  Body.position (TreeNode.body c) = (Some cx, Some cy) →
  moderate px → moderate py → moderate cx → moderate cy →
  ∃ p' s' leaves,
    addLeafNodes h p c s = Some (p', s') ∧
    TreeNode.children p' = TreeNode.children p ++ leaves ∧
    Forall (λ l, ∃ x y,
              Body.position (TreeNode.body l) = (Some x, Some y) ∧
              ((px + cx) * 0.5 - 30 - room < x)%Q ∧
              (x < (px + cx) * 0.5 + 30 + room)%Q ∧
              ((py + cy) * 0.5 - 20 - room < y)%Q ∧
              (y < (py + cy) * 0.5 + 20 + room)%Q)
           leaves.
Proof.
  intros Hrandom Hp Hc _ _ _ _.
  assert (Hsome : is_Some (addLeafNodes h p c s)).
  { unfold addLeafNodes, bind, Math_random. apply BuildFacts.addLeafLoop_total. }
  destruct Hsome as [[p' s'] Hrun]. exists p', s'.
  pose proof Hrun as Hloop. unfold addLeafNodes, bind, Math_random in Hloop.
  destruct (PlaceFacts.addLeafLoop_place _ _ _ _ _ _ _ _ _ _ _ _ Hp Hc Hloop)
    as (leaves & Hkids & _ & Hall).
  exists leaves. split_and!; [done|done|].
  eapply Forall_impl; [exact Hall|]. intros l (j1 & j2 & ->).
  eexists _, _. split; [reflexivity|].
  destruct (Hrandom j1) as [H1 H1']. destruct (Hrandom j2) as [H2 H2'].
  set (r1 := random h j1) in *. set (r2 := random h j2) in *.
  unfold room. split_and!; Lqa.lra.
Qed.

Lemma leaves_start_near_the_branch_witness :
  ∃ p' s' leaves,
    addLeafNodes MakeTree.sampleHost
      (TreeNode.new "A" (Body.mk 1 "A" (Some 400%Q, Some 300%Q)
         CFG.nodeRadius CFG.airFriction "" "" 1 (-1)))
      (TreeNode.new "B" (Body.mk 2 "B" (Some 200%Q, Some 210%Q)
         CFG.nodeRadius CFG.airFriction "" "" 1 (-1))) startState
      = Some (p', s') ∧
    TreeNode.children p' = leaves ∧
    Forall (λ l, ∃ x y,
              Body.position (TreeNode.body l) = (Some x, Some y) ∧
              ((400 + 200) * 0.5 - 30 - room < x)%Q ∧
              (x < (400 + 200) * 0.5 + 30 + room)%Q ∧
              ((300 + 210) * 0.5 - 20 - room < y)%Q ∧
              (y < (300 + 210) * 0.5 + 20 + room)%Q)
           leaves.
Proof.
  refine (leaves_start_near_the_branch MakeTree.sampleHost
            (TreeNode.new "A" (Body.mk 1 "A" (Some 400%Q, Some 300%Q)
               CFG.nodeRadius CFG.airFriction "" "" 1 (-1)))
            (TreeNode.new "B" (Body.mk 2 "B" (Some 200%Q, Some 210%Q)
               CFG.nodeRadius CFG.airFriction "" "" 1 (-1)))
            startState 400 300 200 210 _ _ _ _ _ _ _).
  - intros i. split; by vm_compute.
  - reflexivity.
  - reflexivity.
  - split; by vm_compute.
  - split; by vm_compute.
  - split; by vm_compute.
  - split; by vm_compute.
Defined.

(** X16. The leaves that [addTerminalLeaves] hangs on an end node start
    on a ring around it, clear of the node: with [Math.random()] in
    [0, 1), a cosine and a sine whose squares add up to 1 within one
    part in 10^9, and the node at moderate numbers, every leaf starts
    at least 25 and less than 45 away from the node, with [room] for
    rounding in the square of the distance. The radii of a node and of
    a leaf add up to 20. *)
Theorem terminal_leaves_start_on_a_ring h (p : TreeNode.t) (s : State)
    (nx ny : Q) :
  (∀ i, 0 <= random h i ∧ random h i < 1)%Q →
  (∀ a, 1 - (1 # 1000000000)
          <= Math_cos h a * Math_cos h a + Math_sin h a * Math_sin h a
        ∧ Math_cos h a * Math_cos h a + Math_sin h a * Math_sin h a
          <= 1 + (1 # 1000000000))%Q →
  Body.position (TreeNode.body p) = (Some nx, Some ny) →
  moderate nx → moderate ny →
  ∃ p' s' leaves,
    addTerminalLeaves h p s = Some (p', s') ∧
    TreeNode.children p' = TreeNode.children p ++ leaves ∧
    3 ≤ length leaves ≤ 6 ∧
    Forall (λ l, ∃ x y,
              Body.position (TreeNode.body l) = (Some x, Some y) ∧
              (25 * 25 - room < (x - nx) * (x - nx) + (y - ny) * (y - ny))%Q ∧
              ((x - nx) * (x - nx) + (y - ny) * (y - ny) < 45 * 45 + room)%Q)
           leaves.
Proof.
  intros Hrandom Htrig Hp _ _.
  assert (Hsome : is_Some (addTerminalLeaves h p s)).
  { unfold addTerminalLeaves, bind, Math_random.
    apply BuildFacts.addTerminalLoop_total. }
  destruct Hsome as [[p' s'] Hrun]. exists p', s'.
  pose proof Hrun as Hloop. unfold addTerminalLeaves, bind, Math_random in Hloop.
  destruct (PlaceFacts.addTerminalLoop_place _ _ _ _ _ _ _ _ _ _ Hp Hloop)
    as (leaves & Hkids & Hlen & Hall).
  exists leaves. split_and!; [done|done| | |].
  - destruct (Hrandom (draws s)) as [Hd0 Hd1].
    pose proof (ShapeFacts.floor_of_draw _ 4 Hd0 Hd1 eq_refl) as Hfloor.
    change (inject_Z 4) with 4%Q in Hfloor. lia.
  - destruct (Hrandom (draws s)) as [Hd0 Hd1].
    pose proof (ShapeFacts.floor_of_draw _ 4 Hd0 Hd1 eq_refl) as Hfloor.
    change (inject_Z 4) with 4%Q in Hfloor. lia.
  - apply Forall_forall. intros l [k Hk]%list_elem_of_lookup_1.
    destruct (Hall k l Hk) as (j & ->). eexists _, _. split; [reflexivity|].
    destruct (Hrandom j) as [Hj0 Hj1].
    match goal with |- context [Math_cos h ?a] => specialize (Htrig a);
      set (c := Math_cos h a) in *; set (sn := Math_sin h a) in * end.
    destruct Htrig as [Hlo Hhi]. set (r := random h j) in *.
    assert (Heq : ((nx + c * (25 + r * 20) - nx) * (nx + c * (25 + r * 20) - nx)
                   + (ny + sn * (25 + r * 20) - ny) * (ny + sn * (25 + r * 20) - ny)
                   == (c * c + sn * sn) * ((25 + r * 20) * (25 + r * 20)))%Q)
      by ring.
    rewrite Heq. set (t := (c * c + sn * sn)%Q) in *.
    set (rad := (25 + r * 20)%Q) in *.
    assert (Hrad : (25 <= rad)%Q ∧ (rad < 45)%Q) by (unfold rad; split; Lqa.lra).
    destruct Hrad as [Hr0 Hr1].
    assert (Hsq : (625 <= rad * rad)%Q ∧ (rad * rad < 2025)%Q) by (split; Lqa.nra).
    destruct Hsq as [Hs0 Hs1]. set (q := (rad * rad)%Q) in *.
    unfold room. split; Lqa.nra.
Qed.

Lemma terminal_leaves_start_on_a_ring_witness :
  ∃ p' s' leaves,
    addTerminalLeaves MoreInputs.turningHost
      (TreeNode.new "A" (Body.mk 1 "A" (Some 400%Q, Some 300%Q)
         CFG.nodeRadius CFG.airFriction "" "" 1 (-1))) startState
      = Some (p', s') ∧
    TreeNode.children p' = leaves ∧
    3 ≤ length leaves ≤ 6 ∧
    Forall (λ l, ∃ x y,
              Body.position (TreeNode.body l) = (Some x, Some y) ∧
              (25 * 25 - room < (x - 400) * (x - 400) + (y - 300) * (y - 300))%Q ∧
              ((x - 400) * (x - 400) + (y - 300) * (y - 300) < 45 * 45 + room)%Q)
           leaves.
Proof.
  refine (terminal_leaves_start_on_a_ring MoreInputs.turningHost
            (TreeNode.new "A" (Body.mk 1 "A" (Some 400%Q, Some 300%Q)
               CFG.nodeRadius CFG.airFriction "" "" 1 (-1)))
            startState 400 300 _ _ _ _ _).
  - intros i. split; by vm_compute.
  - intros a. rewrite (PlaceFacts.turning_unit a). split; by vm_compute.
  - reflexivity.
  - split; by vm_compute.
  - split; by vm_compute.
Defined.

(** * What the force pass is given *)

Module RefsFacts.
Import Bfs TreePhysics BuildInv Shape.

Lemma walkChildren_ext (f g : string → option (list string)) cs l :
  (∀ c l, f c = Some l → g c = Some l) →
  walkChildren f cs = Some l → walkChildren g cs = Some l.
Proof.
  intros Hfg. revert l. induction cs as [|c cs IH]; intros l; simpl; [done|].
  destruct (f c) as [lc|] eqn:Hc; [|done]. rewrite (Hfg _ _ Hc).
  destruct (walkChildren f cs) as [ls|]; [|done]. by rewrite (IH ls eq_refl).
Qed.

Lemma walk_more adjacency fuel k id l :
  walk fuel adjacency id = Some l → walk (fuel + k) adjacency id = Some l.
Proof.
  revert id l. induction fuel as [|fuel IH]; intros id l; [done|]. simpl.
  destruct (walkChildren (walk fuel adjacency) _) as [ls|] eqn:Hcs; [|done].
  intros [= <-]. by rewrite (walkChildren_ext _ _ _ _ (λ c l, IH c l) Hcs).
Qed.

Lemma walk_tree_NoDup adjacency rootId depth fuel l :
  loopInv adjacency rootId depth [] → isTree adjacency rootId →
  walk fuel adjacency rootId = Some l → NoDup l.
Proof.
  intros Hinv Htree Hwalk.
  destruct (TreeFacts.walk_tree adjacency rootId depth Hinv Htree
              (fuel + S (maxDepth depth)) rootId 0)
    as (l' & Hwalk' & Hnd & _); [apply Hinv|lia|].
  rewrite (walk_more _ _ _ _ _ Hwalk) in Hwalk'. by injection Hwalk' as ->.
Qed.

Lemma bodies_partition (l : list TreeNode.t) :
  TreeNode.body <$> l
  ≡ₚ leafBodies l ++ (TreeNode.body <$> filter (λ n, isTreeNode n) l).
Proof.
  unfold leafBodies. induction l as [|n l IH]; [done|].
  rewrite !filter_cons.
  destruct (decide (isTreeNode n = false)) as [Hf|Hf];
    destruct (decide (isTreeNode n)) as [Ht|Ht].
  - by rewrite Hf in Ht.
  - rewrite !fmap_cons. simpl. by constructor.
  - rewrite !fmap_cons. rewrite <- Permutation_middle. by constructor.
  - by destruct (isTreeNode n).
Qed.

End RefsFacts.

Import Bfs TreePhysics BuildInv Shape.

(** X17. The list that [buildTree] leaves in [this.nodeBodies], over which
    [applyForces] runs, holds the bodies that [buildTree] has added to
    the world and no others, whatever was pushed on it while the tree
    was built; and when the part of the adjacency that the root reaches
    is a tree, it holds each of them once, so that none of them is
    given a force twice. (The walls of the constructor are in the
    world and not in the list.) *)
Theorem force_pass_is_given_what_was_added h fuel adjacency rootId scene :
  buildTree h fuel adjacency rootId = Some scene →
  (∀ b, b ∈ Scene.nodeBodies scene ↔ b ∈ Scene.worldBodies scene) ∧
  (isTree adjacency rootId →
     Scene.nodeBodies scene ≡ₚ Scene.worldBodies scene ∧
     NoDup (Body.id <$> Scene.nodeBodies scene)).
Proof.
  intros (depth & shifted & Hbfs & Hbuild)%BuildFacts.buildTree_Some.
  pose proof (BfsFacts.bfsLoop_inv adjacency rootId _ _ _ _ _ _
                (BfsFacts.loopInv_init adjacency rootId) Hbfs) as Hinv.
  destruct (ShapeFacts.buildWith_shape _ _ _ _ _ _ Hbuild) as (_ & _ & Hperm).
  destruct (BuildFacts.buildWith_Some _ _ _ _ _ _ Hbuild)
    as (root & s & _ & Hok & _ & _ & _ & Hwalk & _ & Hnodes & Hnb & Hwb & _).
  rewrite <- Hnodes in Hnb.
  assert (Hnode_bodies : ∀ b,
            b ∈ filter (λ b, isNodeBody b) (Scene.worldBodies scene)
            ↔ b ∈ TreeNode.body <$> filter (λ n, isTreeNode n) (Scene.nodes scene)).
  { intros b. rewrite list_elem_of_filter, list_elem_of_fmap. split.
    - intros [Hnode Hb].
      destruct (BuildFacts.scene_world_bodies _ _ _ _ _ _ _ Hbuild Hb)
        as [_ [Hleaf|(_ & n & Hn & Ht & <- & _)]].
      + exfalso. by eapply BuildFacts.node_not_leaf.
      + exists n. split; [done|]. by apply list_elem_of_filter.
    - intros (n & -> & [Ht Hn]%list_elem_of_filter).
      destruct (BuildFacts.scene_nodes _ _ _ _ _ _ _ Hbuild Hn) as [_ Hin].
      destruct (Hin Ht) as (Hb & _). by split. }
  assert (Hids : NoDup (Body.id <$> Scene.worldBodies scene)).
  { rewrite Hwb. pose proof (ok_ids _ _ Hok) as Hnd.
    eapply NoDup_Permutation_proper; [|exact Hnd].
    rewrite !fmap_app. apply Permutation_app_comm. }
  split.
  - intros b. rewrite Hnb, (RefsFacts.bodies_partition (Scene.nodes scene)).
    rewrite Hperm at 1. rewrite !elem_of_app. by rewrite Hnode_bodies.
  - intros Htree.
    assert (Hnd : NoDup (treeIds (Scene.nodes scene))).
    { rewrite Hnodes. by eapply RefsFacts.walk_tree_NoDup. }
    assert (Hsame : Scene.nodeBodies scene ≡ₚ Scene.worldBodies scene).
    { rewrite Hnb, (RefsFacts.bodies_partition (Scene.nodes scene)).
      rewrite Hperm at 1.
      apply Permutation_app_head. symmetry. apply NoDup_Permutation.
      - assert (Hnd1 : NoDup (leafBodies (Scene.nodes scene)
                    ++ filter (λ b, isNodeBody b) (Scene.worldBodies scene))).
        { rewrite <- Hperm. by eapply NoDup_fmap_1. }
        by apply NoDup_app in Hnd1 as (_ & _ & ?).
      - apply (NoDup_fmap_1 Body.label). rewrite <- list_fmap_compose.
        unfold treeIds in Hnd.
        erewrite list_fmap_ext; [exact Hnd|].
        intros i n [Ht Hn]%list_elem_of_lookup_2%list_elem_of_filter. simpl.
        destruct (BuildFacts.scene_nodes _ _ _ _ _ _ _ Hbuild Hn) as [_ Hin].
        by destruct (Hin Ht) as (_ & Hl & _).
      - exact Hnode_bodies. }
    split; [done|]. by rewrite Hsame.
Qed.

Lemma force_pass_is_given_what_was_added_witness :
  ∃ scene,
    MakeTree.makeTree MakeTree.sampleHost 6 = Some scene ∧
    ∀ b, b ∈ Scene.nodeBodies scene ↔ b ∈ Scene.worldBodies scene.
Proof.
  eexists. split; [vm_compute; reflexivity|].
  refine (proj1 (force_pass_is_given_what_was_added MakeTree.sampleHost 6
                   MakeTree.adjacency "root" _ _)).
  vm_compute; reflexivity.
Defined.

(** X21. A resize moves the pin of the root even when the canvas keeps its
    size. On a canvas with a parent element and a height that is a
    whole number, as the height of a canvas is, the handler leaves the
    pin on the body of the root and at the x where [buildTree] has put
    it, but takes it from [canvas.height - 100] to 5/8 of the height of
    the canvas: it moves the pin down by [100 - 3/8 canvas.height],
    which is never 0. *)
Theorem resize_moves_the_pin h fuel adjacency rootId scene (height : Z) :
  (canvasHeight h == inject_Z height)%Q →
  buildTree h fuel adjacency rootId = Some scene →
  ∃ pin old_x old_y new_x new_y,
    Resize.onResize true (canvasWidth h) (canvasHeight h)
      (Some (Scene.rootPin scene)) = Some pin ∧
    Constraint.pointA (Scene.rootPin scene) = Some (old_x, old_y) ∧
    Constraint.pointA pin = Some (new_x, new_y) ∧
    Constraint.bodyB pin = TreeNode.body (Scene.root scene) ∧
    Constraint.bodyB pin = Constraint.bodyB (Scene.rootPin scene) ∧
    (new_x == old_x)%Q ∧
    (new_y - old_y == 100 - canvasHeight h * (3 # 8))%Q ∧
    ¬ (new_y == old_y)%Q.
Proof.
  intros Hheight (depth & shifted & _ & Hbuild)%BuildFacts.buildTree_Some.
  unfold buildWith in Hbuild.
  destruct (buildRec h adjacency depth fuel rootId startState) as [[root s]|];
    [|done].
  injection Hbuild as <-. simpl.
  eexists _, _, _, _, _. split; [reflexivity|]. simpl.
  split_and!; [reflexivity|reflexivity|done|done|reflexivity|field|].
  intros Heq.
  assert (H3 : (canvasHeight h * 3 == 800)%Q) by Lqa.lra.
  rewrite Hheight in H3. unfold Qeq in H3. simpl in H3. lia.
Qed.

Lemma resize_moves_the_pin_witness :
  ∃ scene,
    MakeTree.makeTree MakeTree.sampleHost 6 = Some scene ∧
    ∃ pin old_x old_y new_x new_y,
      Resize.onResize true 800 600 (Some (Scene.rootPin scene)) = Some pin ∧
      Constraint.pointA (Scene.rootPin scene) = Some (old_x, old_y) ∧
      Constraint.pointA pin = Some (new_x, new_y) ∧
      Constraint.bodyB pin = TreeNode.body (Scene.root scene) ∧
      Constraint.bodyB pin = Constraint.bodyB (Scene.rootPin scene) ∧
      (new_x == old_x)%Q ∧
      (new_y - old_y == 100 - 600 * (3 # 8))%Q ∧
      ¬ (new_y == old_y)%Q.
Proof.
  eexists. split; [vm_compute; reflexivity|].
  refine (resize_moves_the_pin MakeTree.sampleHost 6
            MakeTree.adjacency "root" _ 600 _ _).
  - reflexivity.
  - vm_compute; reflexivity.
Defined.

(** * One body per id *)

Module CacheFacts.
Import Bfs TreePhysics BuildInv.

(** The walk of [buildRec] lists what the root reaches. *)
Lemma walkChildren_part wrec cs ls c :
  walkChildren wrec cs = Some ls → c ∈ cs →
  ∃ lc, wrec c = Some lc ∧ ∀ v, v ∈ lc → v ∈ ls.
Proof.
  revert ls. induction cs as [|c0 cs IH]; intros ls; simpl.
  - intros _ Hc. by apply elem_of_nil in Hc.
  - destruct (wrec c0) as [l0|] eqn:E0; [|done].
    destruct (walkChildren wrec cs) as [l1|]; [|done].
    intros [= <-] [->|Hc]%elem_of_cons.
    + exists l0. split; [done|]. intros v Hv. apply elem_of_app. by left.
    + destruct (IH l1 eq_refl Hc) as (lc & Hlc & Hsub). exists lc.
      split; [done|]. intros v Hv. apply elem_of_app. right. by apply Hsub.
Qed.

Lemma walk_covers adjacency fuel id l v n :
  walk fuel adjacency id = Some l → path adjacency id v n → v ∈ l.
Proof.
  revert id l n. induction fuel as [|fuel IH]; intros id l n; [done|]. simpl.
  destruct (walkChildren _ _) as [ls|] eqn:Hcs; [|done].
  intros [= <-] Hp. destruct n as [|n].
  - apply TreeFacts.path_zero in Hp as ->. by left.
  - apply TreeFacts.path_uncons in Hp as (c & Hc & Hp). right.
    destruct (walkChildren_part _ _ _ _ Hcs Hc) as (lc & Hlc & Hsub).
    apply Hsub. by eapply IH.
Qed.

Lemma walk_reaches adjacency fuel id l v :
  walk fuel adjacency id = Some l → (v ∈ l ↔ reachable adjacency id v).
Proof.
  intros Hwalk. split.
  - by eapply ShapeFacts.walk_reachable.
  - intros [n Hn]. by eapply walk_covers.
Qed.

(** With a cycle in reach no recursion depth is enough. *)
Lemma cycle_no_walk adjacency rootId fuel v n :
  reachable adjacency rootId v → path adjacency v v (S n) →
  walk fuel adjacency rootId = None.
Proof.
  intros [m Hm] Hcycle.
  destruct (walk fuel adjacency rootId) as [l|] eqn:Hwalk; [|done]. exfalso.
  assert (Hlong : path adjacency rootId v (m + fuel * S n)).
  { eapply TreeFacts.path_trans; [done|]. by apply GraphFacts.cycle_pumps. }
  apply (proj1 (GraphFacts.walk_Some_iff adjacency fuel rootId)) in Hlong;
    [nia|by eexists].
Qed.

Lemma buildTree_walk h fuel adjacency rootId :
  is_Some (buildTree h fuel adjacency rootId)
  ↔ is_Some (walk fuel adjacency rootId).
Proof.
  unfold buildTree.
  destruct (BfsFacts.computeDepth_enough adjacency rootId) as [[depth shifted] ->].
  split.
  - intros [scene Hscene].
    apply BuildFacts.buildWith_Some in Hscene
      as (root & s & _ & _ & _ & _ & _ & Hw & _). by eexists.
  - intros Hw.
    destruct (BuildFacts.buildRec_total h adjacency depth fuel rootId startState Hw)
      as [[root s] Hrec].
    unfold buildWith. rewrite Hrec. by eexists.
Qed.

Lemma getBody_makes_one h depth id s b s1 :
  getBody h depth id s = Some (b, s1) →
  cacheGet (bodyCache s1) id = Some b ∧ nextBodyId s1 ≤ S (nextBodyId s) ∧
  (cacheGet (bodyCache s) id = None →
     Body.id b = nextBodyId s ∧ Body.label b = id ∧
     bodyCache s1 = bodyCache s ++ [(id, b)]).
Proof.
  unfold getBody. destruct (cacheGet (bodyCache s) id) as [b0|] eqn:Hget.
  - intros [= <- <-]. split_and!; [done|lia|done].
  - unfold makeBody, Bodies_circle. simpl. rewrite BuildFacts.cacheGet_cacheSet.
    intros [= <- <-]. simpl. split_and!; [apply BuildFacts.cacheGet_cacheSet|lia|].
    intros _. split_and!; [done|done|]. by apply BuildFacts.cacheSet_absent.
Qed.

End CacheFacts.

Import Bfs TreePhysics BuildInv.

(** C5, amended. Where [buildTree] returns, which it does exactly when
    the recursion of [buildRec] may go deeper than every path from the
    root is long, it has made one body for each id that the root
    reaches in the adjacency. [getBody] returns the cached body of an
    id without making one, and otherwise makes one body, labelled with
    the id, and caches it, so that every later request returns this
    body. The bodies of [CFG.nodeRadius] that [buildTree] adds to the
    world are distinct objects with distinct labels, and their labels
    are exactly the ids that the root reaches; every such id has a
    node, and every node built for an id carries the body labelled
    with its id, the same one in all the nodes of an id. *)
Theorem buildTree_one_body_per_id h fuel adjacency rootId :
  (is_Some (buildTree h fuel adjacency rootId)
   ↔ ∀ v n, path adjacency rootId v n → n < fuel) ∧
  (∀ depth id s,
     (∀ b, cacheGet (bodyCache s) id = Some b →
           getBody h depth id s = Some (b, s)) ∧
     (∀ b s1, getBody h depth id s = Some (b, s1) →
        cacheGet (bodyCache s1) id = Some b ∧
        nextBodyId s1 ≤ S (nextBodyId s) ∧
        (cacheGet (bodyCache s) id = None →
           Body.id b = nextBodyId s ∧ Body.label b = id ∧
           bodyCache s1 = bodyCache s ++ [(id, b)]) ∧
        ∀ s2, cacheLe s1 s2 → getBody h depth id s2 = Some (b, s2))) ∧
  (∀ scene, buildTree h fuel adjacency rootId = Some scene →
     NoDup (Body.id <$> filter (λ b, isNodeBody b) (Scene.worldBodies scene)) ∧
     NoDup (Body.label <$> filter (λ b, isNodeBody b) (Scene.worldBodies scene)) ∧
     (∀ v, v ∈ Body.label <$> filter (λ b, isNodeBody b) (Scene.worldBodies scene)
           ↔ reachable adjacency rootId v) ∧
     (∀ v, reachable adjacency rootId v →
           ∃ n, n ∈ Scene.nodes scene ∧ isTreeNode n ∧ TreeNode.id n = v) ∧
     (∀ n, n ∈ Scene.nodes scene → isTreeNode n →
           reachable adjacency rootId (TreeNode.id n) ∧
           TreeNode.body n
             ∈ filter (λ b, isNodeBody b) (Scene.worldBodies scene) ∧
           Body.label (TreeNode.body n) = TreeNode.id n) ∧
     (∀ n1 n2, n1 ∈ Scene.nodes scene → n2 ∈ Scene.nodes scene →
           isTreeNode n1 → isTreeNode n2 →
           TreeNode.id n1 = TreeNode.id n2 →
           TreeNode.body n1 = TreeNode.body n2)).
Proof.
  split_and!.
  - by rewrite CacheFacts.buildTree_walk, GraphFacts.walk_Some_iff.
  - intros depth id s. split.
    + intros b Hget. unfold getBody. by rewrite Hget.
    + intros b s1 Hrun.
      destruct (CacheFacts.getBody_makes_one _ _ _ _ _ _ Hrun) as (Hget & Hnext & Hnew).
      split_and!; [done|done|done|].
      intros s2 Hle. by eapply BuildFacts.getBody_again.
  - intros scene (depth & shifted & _ & Hbuild)%BuildFacts.buildTree_Some.
    destruct (BuildFacts.buildWith_Some _ _ _ _ _ _ Hbuild)
      as (root & s & _ & Hok & Hnode & Htree & Hnew & Hwalk & _ & Hnodes & _ & Hwb & _).
    pose proof (BuildFacts.world_node_bodies _ _ Hok) as Hfilter.
    rewrite <- Hwb in Hfilter. rewrite <- Hnodes in Hwalk.
    assert (Hids : ∀ v, v ∈ treeIds (Scene.nodes scene)
                        ↔ reachable adjacency rootId v).
    { intros v. by eapply CacheFacts.walk_reaches. }
    assert (Hcached : ∀ n, n ∈ Scene.nodes scene → isTreeNode n →
              cacheGet (bodyCache s) (TreeNode.id n) = Some (TreeNode.body n)).
    { intros n Hn Ht. rewrite Hnodes in Hn. unfold nodeOk in Hnode.
      rewrite Forall_forall in Hnode. destruct (Hnode n Hn) as [_ Hloc].
      by destruct (isTreeNode n). }
    split_and!.
    + rewrite Hfilter. pose proof (ok_ids _ _ Hok) as Hnd.
      rewrite fmap_app in Hnd. by apply NoDup_app in Hnd as (? & _).
    + rewrite Hfilter, (BuildFacts.cache_labels _ _ Hok). apply (ok_keys _ _ Hok).
    + intros v. rewrite <- Hids, Hfilter, (BuildFacts.cache_labels _ _ Hok). split.
      * intros Hk. destruct (Hnew v Hk) as [?%elem_of_nil|?]; [done|].
        by rewrite Hnodes.
      * intros (n & -> & [Ht Hn]%list_elem_of_filter)%list_elem_of_fmap.
        unfold cacheKeys. apply list_elem_of_fmap. eexists (_, _). split; [done|].
        by eapply BuildFacts.cacheGet_Some_elem, Hcached.
    + intros v (n & -> & [Ht Hn]%list_elem_of_filter)%Hids%list_elem_of_fmap.
      by exists n.
    + intros n Hn Ht.
      destruct (BuildFacts.scene_nodes _ _ _ _ _ _ _ Hbuild Hn) as [_ Hn'].
      destruct (Hn' Ht) as (Hin & Hlabel & _). split_and!; [|by apply list_elem_of_filter|done].
      apply Hids, list_elem_of_fmap. exists n. split; [done|].
      by apply list_elem_of_filter.
    + intros n1 n2 Hn1 Hn2 Ht1 Ht2 Hid.
      pose proof (Hcached n1 Hn1 Ht1) as H1. pose proof (Hcached n2 Hn2 Ht2) as H2.
      rewrite Hid in H1. congruence.
Qed.

Lemma buildTree_one_body_per_id_witness :
  ∃ scene,
    MakeTree.makeTree MakeTree.sampleHost 6 = Some scene ∧
    ∀ v, v ∈ Body.label <$> filter (λ b, isNodeBody b) (Scene.worldBodies scene)
         ↔ reachable MakeTree.adjacency "root" v.
Proof.
  eexists. split; [vm_compute; reflexivity|].
  refine (proj1 (proj2 (proj2 (proj2 (proj2
            (buildTree_one_body_per_id MakeTree.sampleHost 6
               MakeTree.adjacency "root")) _ _)))).
  vm_compute; reflexivity.
Defined.

(** The claim as it stands fails on an adjacency with a cycle: there
    [buildRec] recurses without end, [buildTree] does not return
    whatever the depth allowed, and the bodies made for the ids on the
    way are never added to the world. *)
Lemma buildTree_cycle_adds_no_body :
  reachable MoreInputs.cyclic "root" "A" ∧
  ∀ fuel, buildTree MakeTree.sampleHost fuel MoreInputs.cyclic "root" = None.
Proof.
  assert (Hstep : path MoreInputs.cyclic "root" "A" 1).
  { eapply (path_snoc _ _ "root"); [constructor|].
    apply (bool_decide_unpack _); vm_compute; exact I. }
  split; [by exists 1|]. intros fuel.
  destruct (buildTree MakeTree.sampleHost fuel MoreInputs.cyclic "root")
    as [scene|] eqn:Hrun; [|done].
  assert (Hsome : is_Some (walk fuel MoreInputs.cyclic "root")).
  { apply (CacheFacts.buildTree_walk MakeTree.sampleHost). rewrite Hrun. by eexists. }
  rewrite (CacheFacts.cycle_no_walk MoreInputs.cyclic "root" fuel "root" 1) in Hsome.
  - by destruct Hsome.
  - exists 0. constructor.
  - eapply (path_snoc _ _ "A"); [exact Hstep|].
    apply (bool_decide_unpack _); vm_compute; exact I.
Qed.
